(** * Sandbox preparation layer: filesystem trust primitives and option parsing

    A shallow embedding of
    - [src/main/cpp/util/file_posix.cc] (directory materializer, file writer,
      mtime marker) over an explicit model of the POSIX calls it makes, and
    - [src/main/tools/linux-sandbox-options.cc] (argument expansion and the
      option parser) over a model of [getopt] and [sscanf].

    The C++ functions keep their names.  System calls are functions from a
    [world] to a result and a new [world]; [errno] is a field of the world. *)

From Stdlib Require Import ZArith List Bool Lia Ascii.
From stdpp Require Import gmap strings.
Import ListNotations.

Local Open Scope string_scope.
Local Open Scope list_scope.
Local Open Scope Z_scope.

(** ** Strings as [std::string] *)

Module Str.

(** [path.rfind(c)]: the index of the last occurrence, [None] for [npos]. *)
Fixpoint rfind (c : ascii) (s : string) : option nat :=
  match s with
  | EmptyString => None
  | String a s' =>
      match rfind c s' with
      | Some i => Some (S i)
      | None => if Ascii.eqb a c then Some O else None
      end
  end.

(** [string(s, pos, n)]: at most [n] characters from index [pos]. *)
Definition substr (s : string) (pos n : nat) : string := String.substring pos n s.

(** [string(s, pos)]: everything from index [pos]. *)
Definition substr_from (s : string) (pos : nat) : string :=
  String.substring pos (String.length s - pos) s.

Definition is_empty (s : string) : bool :=
  match s with EmptyString => true | _ => false end.

(** [s[0]] of a C string: the terminating NUL when [s] is empty. *)
Definition first_char (s : string) : ascii :=
  match s with EmptyString => Ascii.zero | String a _ => a end.

(** [s + 1] of a non-empty C string. *)
Definition tail (s : string) : string :=
  match s with EmptyString => EmptyString | String _ rest => rest end.

(** Whether [c] occurs in [s]. *)
Fixpoint contains (c : ascii) (s : string) : bool :=
  match s with
  | EmptyString => false
  | String a s' => Ascii.eqb a c || contains c s'
  end.

End Str.

(** ** The operating system as seen by file_posix.cc *)

Module Posix.

(** errno values (Linux). *)
Definition EPERM : Z := 1.
Definition ENOENT : Z := 2.
Definition EIO : Z := 5.
Definition EBADF : Z := 9.
Definition EACCES : Z := 13.
Definition EEXIST : Z := 17.
Definition ENOTDIR : Z := 20.
Definition EISDIR : Z := 21.
Definition EMFILE : Z := 24.
Definition ENOSPC : Z := 28.
Definition ELOOP : Z := 40.

(** File type bits of [st_mode]. *)
Definition S_IFMT : Z := 0xF000.
Definition S_IFDIR : Z := 0x4000.
Definition S_IFREG : Z := 0x8000.
Definition S_IFLNK : Z := 0xA000.

Definition S_ISDIR (m : Z) : bool := Z.land m S_IFMT =? S_IFDIR.

(** [~x] on a 32-bit unsigned [mode_t]. *)
Definition mode_not (x : Z) : Z := Z.lxor (x mod 2 ^ 32) 0xFFFFFFFF.

Inductive file_kind :=
| KDir
| KReg
| KLink (target : string).

Record inode := Inode {
  i_kind : file_kind;
  i_uid : Z;
  i_perm : Z;              (* permission bits, within 07777 *)
  i_atime : Z;
  i_mtime : Z;
  i_data : list Byte.byte
}.

Record stat_buf := StatBuf {
  st_mode : Z;
  st_uid : Z;
  st_atime : Z;
  st_mtime : Z
}.

Record utimbuf := UtimBuf { actime : Z; modtime : Z }.

(** Failures that do not depend on the file tree: descriptor or space
    exhaustion at [open], a failing or short [write], an error that a
    network file system only reports at [close]. *)
Record faults := Faults {
  open_fault : option Z;
  write_fault : option Z;
  write_limit : option nat;
  close_fault : option Z
}.

Definition no_faults : faults := Faults None None None None.

Inductive syscall :=
| SysStat (path : string)
| SysLstat (path : string)
| SysUmask (mask : Z)
| SysChmod (path : string) (mode : Z)
| SysMkdir (path : string) (mode : Z)
| SysUnlink (path : string)
| SysOpen (path : string)
| SysWrite (fd : Z) (size : nat)
| SysClose (fd : Z)
| SysTime
| SysUtime (path : string) (times : utimbuf).

(** The process and the file tree it sees.  Paths are compared as strings
    (no normalisation); [w_clock n] is what the [n]-th call of [time]
    returns; [w_trace] records every system call made, oldest first. *)
Record world := World {
  w_fs : gmap string inode;
  w_fds : gmap Z string;
  w_next_fd : nat;
  w_umask : Z;
  w_errno : Z;
  w_ticks : nat;
  w_trace : list syscall;
  w_euid : Z;
  w_clock : nat -> Z;
  w_faults : faults
}.

Definition set_errno (e : Z) (w : world) : world :=
  World (w_fs w) (w_fds w) (w_next_fd w) (w_umask w) e (w_ticks w)
        (w_trace w) (w_euid w) (w_clock w) (w_faults w).

Definition set_fs (fs : gmap string inode) (w : world) : world :=
  World fs (w_fds w) (w_next_fd w) (w_umask w) (w_errno w) (w_ticks w)
        (w_trace w) (w_euid w) (w_clock w) (w_faults w).

Definition set_fds (fds : gmap Z string) (next : nat) (w : world) : world :=
  World (w_fs w) fds next (w_umask w) (w_errno w) (w_ticks w)
        (w_trace w) (w_euid w) (w_clock w) (w_faults w).

Definition set_umask (m : Z) (w : world) : world :=
  World (w_fs w) (w_fds w) (w_next_fd w) m (w_errno w) (w_ticks w)
        (w_trace w) (w_euid w) (w_clock w) (w_faults w).

Definition tick (w : world) : world :=
  World (w_fs w) (w_fds w) (w_next_fd w) (w_umask w) (w_errno w) (S (w_ticks w))
        (w_trace w) (w_euid w) (w_clock w) (w_faults w).

Definition log (c : syscall) (w : world) : world :=
  World (w_fs w) (w_fds w) (w_next_fd w) (w_umask w) (w_errno w) (w_ticks w)
        (w_trace w ++ [c]) (w_euid w) (w_clock w) (w_faults w).

(** Symbolic links are followed at most 40 times (Linux), then [ELOOP]. *)
Fixpoint resolve (fuel : nat) (fs : gmap string inode) (path : string)
  : Z + (string * inode) :=
  match fs !! path with
  | None => inl ENOENT
  | Some ino =>
      match i_kind ino with
      | KLink target =>
          match fuel with
          | O => inl ELOOP
          | S n => resolve n fs target
          end
      | _ => inr (path, ino)
      end
  end.

Definition max_links : nat := 40.

Definition kind_bits (k : file_kind) : Z :=
  match k with KDir => S_IFDIR | KReg => S_IFREG | KLink _ => S_IFLNK end.

Definition stat_of (ino : inode) : stat_buf :=
  StatBuf (Z.lor (kind_bits (i_kind ino)) (i_perm ino)) (i_uid ino)
          (i_atime ino) (i_mtime ino).

(** What [stat] and [lstat] answer in a world, without the bookkeeping. *)
Definition os_stat (w : world) (path : string) : Z + stat_buf :=
  match resolve max_links (w_fs w) path with
  | inl e => inl e
  | inr (_, ino) => inr (stat_of ino)
  end.

Definition os_lstat (w : world) (path : string) : Z + stat_buf :=
  match w_fs w !! path with
  | None => inl ENOENT
  | Some ino => inr (stat_of ino)
  end.

(** A call that fails returns [None] (for -1) and sets [errno]; one that
    succeeds leaves [errno] as it was. *)
Definition stat (path : string) (w : world) : option stat_buf * world :=
  let w := log (SysStat path) w in
  match os_stat w path with
  | inl e => (None, set_errno e w)
  | inr sb => (Some sb, w)
  end.

Definition lstat (path : string) (w : world) : option stat_buf * world :=
  let w := log (SysLstat path) w in
  match os_lstat w path with
  | inl e => (None, set_errno e w)
  | inr sb => (Some sb, w)
  end.

Definition geteuid (w : world) : Z := w_euid w.

(** [umask(m)] installs [m & 0777] and returns the previous mask. *)
Definition umask (m : Z) (w : world) : Z * world :=
  (w_umask w, set_umask (Z.land m 0x1FF) (log (SysUmask m) w)).

(** [chmod] follows links; only the owner (or root) may change the mode. *)
Definition chmod (path : string) (mode : Z) (w : world) : Z * world :=
  let w := log (SysChmod path mode) w in
  match resolve max_links (w_fs w) path with
  | inl e => (-1, set_errno e w)
  | inr (p, ino) =>
      if (i_uid ino =? w_euid w) || (w_euid w =? 0) then
        (0, set_fs (<[p := Inode (i_kind ino) (i_uid ino) (Z.land mode 0xFFF)
                                 (i_atime ino) (i_mtime ino) (i_data ino)]>
                      (w_fs w)) w)
      else (-1, set_errno EPERM w)
  end.

(** The directory part of a path as the kernel sees it: the text before
    the last slash; a path without a slash lives in the current directory. *)
Definition parent_of (path : string) : option string :=
  match Str.rfind "/" path with
  | None => None
  | Some O => Some "/"
  | Some pos => Some (Str.substr path 0 pos)
  end.

(** Whether the effective user may write to an existing file or directory. *)
Definition may_write (w : world) (ino : inode) : bool :=
  (w_euid w =? 0)
  || (if i_uid ino =? w_euid w then Z.testbit (i_perm ino) 7
      else Z.testbit (i_perm ino) 1).

(** The errno that stops an entry from being created at [path] or removed
    from there, if any: the directory part must be a directory that the
    effective user may write to. *)
Definition parent_error (w : world) (path : string) : option Z :=
  match parent_of path with
  | None => None
  | Some dir =>
      match resolve max_links (w_fs w) dir with
      | inl e => Some e
      | inr (_, ino) =>
          match i_kind ino with
          | KDir => if may_write w ino then None else Some EACCES
          | _ => Some ENOTDIR
          end
      end
  end.

(** The set-group-ID bit of the directory an entry is made in (none for a
    path without a slash, whose directory is the current one). *)
Definition parent_setgid (w : world) (path : string) : Z :=
  match parent_of path with
  | None => 0
  | Some dir =>
      match resolve max_links (w_fs w) dir with
      | inl _ => 0
      | inr (_, ino) => Z.land (i_perm ino) 0x400
      end
  end.

(** The permission bits of a new directory (Linux): [mode] without the bits
    of the umask, within 01777 (the sticky bit is kept), and the
    set-group-ID bit of the directory it is made in. *)
Definition mkdir_perm (w : world) (path : string) (mode : Z) : Z :=
  Z.lor (Z.land (Z.land mode (mode_not (w_umask w))) 0x3FF)
        (parent_setgid w path).

(** The clock at this moment: what [time] would return if called now. *)
Definition clock_now (w : world) : Z := w_clock w (w_ticks w).

(** [mkdir(path, mode)]: the new directory is stamped with the current
    time. *)
Definition mkdir (path : string) (mode : Z) (w : world) : Z * world :=
  let w := log (SysMkdir path mode) w in
  match w_fs w !! path with
  | Some _ => (-1, set_errno EEXIST w)
  | None =>
      match parent_error w path with
      | Some e => (-1, set_errno e w)
      | None =>
          (0, set_fs (<[path := Inode KDir (w_euid w) (mkdir_perm w path mode)
                                  (clock_now w) (clock_now w) []]> (w_fs w)) w)
      end
  end.

(** [unlink] does not follow links, needs write permission on the
    directory, and refuses directories. *)
Definition unlink (path : string) (w : world) : Z * world :=
  let w := log (SysUnlink path) w in
  match w_fs w !! path with
  | None => (-1, set_errno ENOENT w)
  | Some ino =>
      match parent_error w path with
      | Some e => (-1, set_errno e w)
      | None =>
          match i_kind ino with
          | KDir => (-1, set_errno EISDIR w)
          | _ => (0, set_fs (delete path (w_fs w)) w)
          end
      end
  end.

(** A new descriptor: never negative. *)
Definition alloc_fd (p : string) (w : world) : Z * world :=
  let fd := Z.of_nat (w_next_fd w) in
  (fd, set_fds (<[fd := p]> (w_fds w)) (S (w_next_fd w)) w).

(** [open(path, O_CREAT | O_WRONLY | O_TRUNC, mode)]. *)
Definition open_creat_trunc (path : string) (mode : Z) (w : world) : Z * world :=
  let w := log (SysOpen path) w in
  match open_fault (w_faults w) with
  | Some e => (-1, set_errno e w)
  | None =>
      match w_fs w !! path with
      | None =>
          match parent_error w path with
          | Some e => (-1, set_errno e w)
          | None =>
              alloc_fd path
                (set_fs (<[path := Inode KReg (w_euid w)
                                     (Z.land (Z.land mode (mode_not (w_umask w))) 0x1FF)
                                     0 0 []]> (w_fs w)) w)
          end
      | Some _ =>
          match resolve max_links (w_fs w) path with
          | inl e => (-1, set_errno e w)
          | inr (p, ino) =>
              match i_kind ino with
              | KDir => (-1, set_errno EISDIR w)
              | _ =>
                  if may_write w ino then
                    alloc_fd p
                      (set_fs (<[p := Inode (i_kind ino) (i_uid ino) (i_perm ino)
                                        (i_atime ino) (i_mtime ino) []]> (w_fs w)) w)
                  else (-1, set_errno EACCES w)
              end
          end
      end
  end.

(** [write(fd, buf, size)]: the number of bytes accepted, or -1. *)
Definition write (fd : Z) (buf : list Byte.byte) (w : world) : Z * world :=
  let w := log (SysWrite fd (length buf)) w in
  match w_fds w !! fd with
  | None => (-1, set_errno EBADF w)
  | Some p =>
      match write_fault (w_faults w) with
      | Some e => (-1, set_errno e w)
      | None =>
          let n := match write_limit (w_faults w) with
                   | Some k => Nat.min k (length buf)
                   | None => length buf
                   end in
          match w_fs w !! p with
          | None => (Z.of_nat n, w)
          | Some ino =>
              (Z.of_nat n,
               set_fs (<[p := Inode (i_kind ino) (i_uid ino) (i_perm ino)
                                (i_atime ino) (i_mtime ino)
                                (i_data ino ++ firstn n buf)]> (w_fs w)) w)
          end
      end
  end.

(** [close(fd)] releases the descriptor even when it reports an error. *)
Definition close (fd : Z) (w : world) : Z * world :=
  let w := log (SysClose fd) w in
  match w_fds w !! fd with
  | None => (-1, set_errno EBADF w)
  | Some _ =>
      let w := set_fds (delete fd (w_fds w)) (w_next_fd w) w in
      match close_fault (w_faults w) with
      | Some e => (-1, set_errno e w)
      | None => (0, w)
      end
  end.

(** [time(NULL)]: the next reading of the clock. *)
Definition time (w : world) : Z * world :=
  (w_clock w (w_ticks w), tick (log SysTime w)).

(** [utime(path, times)] follows links; only the owner (or root) may set
    arbitrary times. *)
Definition utime (path : string) (times : utimbuf) (w : world) : Z * world :=
  let w := log (SysUtime path times) w in
  match resolve max_links (w_fs w) path with
  | inl e => (-1, set_errno e w)
  | inr (p, ino) =>
      if (i_uid ino =? w_euid w) || (w_euid w =? 0) then
        (0, set_fs (<[p := Inode (i_kind ino) (i_uid ino) (i_perm ino)
                                 (actime times) (modtime times) (i_data ino)]>
                      (w_fs w)) w)
      else (-1, set_errno EPERM w)
  end.

End Posix.

(** ** src/main/cpp/util/file_posix.cc *)

Module FilePosix.
Import Posix.

(** [IsRootDirectory]: the path is exactly one slash. *)
Definition IsRootDirectory (path : string) : bool :=
  (String.length path =? 1)%nat && Ascii.eqb (Str.first_char path) "/".

(** [SplitPath]: directory part and base name around the last slash. *)
Definition SplitPath (path : string) : string * string :=
  match Str.rfind "/" path with
  | None => ("", path)
  | Some O => (Str.substr path 0 1, Str.substr_from path 1)
  | Some pos => (Str.substr path 0 pos, Str.substr_from path (pos + 1))
  end.

(** Modelled from the spec: [Dirname] is defined in file.cc, which is not
    among the sources; the parent of a path is the prefix before its last
    slash, taken with [SplitPath]. *)
Definition Dirname (path : string) : string := fst (SplitPath path).

(** [GetDirectoryStat]: the directory trust check. *)
Definition GetDirectoryStat (path : string) (mode : Z) (check_perms : bool)
    (w : world) : bool * world :=
  match stat path w with
  | (None, w) => (false, w)
  | (Some filestat, w) =>
      if negb (S_ISDIR (st_mode filestat)) then (false, set_errno ENOTDIR w)
      else if check_perms then
        match lstat path w with
        | (None, w) => (false, w)
        | (Some linkstat, w) =>
            if negb (st_uid linkstat =? geteuid w) then
              (* The directory isn't owned by me. *)
              (false, set_errno EACCES w)
            else
              let '(mask, w) := umask 0x12 w in         (* umask(022) *)
              let '(_, w) := umask mask w in
              let mode := Z.land mode (mode_not mask) in
              if negb (Z.land (st_mode filestat) 0x1FF =? mode) then
                let '(r, w) := chmod path mode w in
                if r =? -1 then (false, w) else (true, w)
              else (true, w)
        end
      else (true, w)
  end.

(** The three-argument [MakeDirectories].  The recursion of the source is
    on the parent path; here it is counted by [fuel], and [None] means the
    count ran out. *)
Fixpoint MakeDirectories_rec (fuel : nat) (path : string) (mode : Z)
    (childmost : bool) (w : world) : option (bool * world) :=
  match fuel with
  | O => None
  | S fuel' =>
      if Str.is_empty path || IsRootDirectory path then
        Some (false, set_errno EACCES w)
      else
        let '(stat_succeeded, w) := GetDirectoryStat path mode childmost w in
        if stat_succeeded then Some (true, w)
        else if w_errno w =? ENOENT then
          (* Path does not exist, attempt to create its parents, then it. *)
          let parent := Dirname path in
          match MakeDirectories_rec fuel' parent mode false w with
          | None => None
          | Some (false, w) => Some (false, w)
          | Some (true, w) =>
              let '(r, w) := mkdir path mode w in
              if r =? -1 then
                if w_errno w =? EEXIST then
                  if childmost then Some (GetDirectoryStat path mode childmost w)
                  else Some (true, w)
                else Some (false, w)
              else Some (true, w)
          end
        else Some (stat_succeeded, w)
  end.

(** The public [MakeDirectories(path, mode)]: the leaf call.  One unit of
    fuel per character of the path and one more is always enough
    (see [MakeDirectories_rec_total]). *)
Definition MakeDirectories (path : string) (mode : Z) (w : world)
  : option (bool * world) :=
  MakeDirectories_rec (S (String.length path)) path mode true w.

(** [UnlinkPath]. *)
Definition UnlinkPath (file_path : string) (w : world) : bool * world :=
  let '(r, w) := unlink file_path w in (r =? 0, w).

(** Modelled from the spec: [WriteTo] is defined in file.cc, which is not
    among the sources; it hands the whole buffer to the write function once
    and reports failure if the written byte count does not match the
    requested size. *)
Definition WriteTo (write_func : list Byte.byte -> world -> Z * world)
    (data : list Byte.byte) (w : world) : bool * world :=
  let '(r, w) := write_func data w in
  (r =? Z.of_nat (length data), w).

(** [WriteFile]. *)
Definition WriteFile (data : list Byte.byte) (filename : string) (w : world)
  : bool * world :=
  let '(_, w) := UnlinkPath filename w in   (* We don't care about the success of this. *)
  let '(fd, w) := open_creat_trunc filename 0x1ED w in   (* 0755 *)
  if fd =? -1 then (false, w)
  else
    let '(result, w) := WriteTo (write fd) data w in
    let saved_errno := w_errno w in
    let '(c, w) := close fd w in
    if negb (c =? 0) then (false, w)     (* Can fail on NFS. *)
    else (result, set_errno saved_errno w).   (* Caller should see errno from write(). *)

(** [pdie] ends the process. *)
Inductive exit_code := LOCAL_ENVIRONMENTAL_ERROR | INTERNAL_ERROR.

Inductive outcome (A : Type) :=
| Ret (a : A) (w : world)
| Died (code : exit_code) (msg : string) (w : world).
Arguments Ret {A} a w.
Arguments Died {A} code msg w.

Definition bind {A B : Type} (m : outcome A) (k : A -> world -> outcome B)
  : outcome B :=
  match m with
  | Ret a w => k a w
  | Died c msg w => Died c msg w
  end.

Definition world_of {A : Type} (m : outcome A) : world :=
  match m with Ret _ w => w | Died _ _ w => w end.

(** [class PosixFileMtime]. *)
Record PosixFileMtime := MkPosixFileMtime {
  near_future_ : Z;              (* 9 years in the future. *)
  distant_future_ : utimbuf      (* 10 years in the future. *)
}.

Definition GetNow (w : world) : outcome Z :=
  let '(result, w) := time w in
  if result =? -1 then Died INTERNAL_ERROR "time(NULL) failed" w
  else Ret result w.

(** [time_t] is a signed 64-bit integer. *)
Definition TIME_T_MIN : Z := - 2 ^ 63.
Definition TIME_T_MAX : Z := 2 ^ 63 - 1.

Definition fits_time_t (x : Z) : Prop := TIME_T_MIN <= x <= TIME_T_MAX.

(** A clock reading, as [time] returns it, to which ten years of 365 days can
    be added within [time_t]. *)
Definition ten_years_fit (now : Z) : Prop :=
  TIME_T_MIN <= now <= TIME_T_MAX - 10 * 31536000.

(** [a + b] on [time_t]: the two's complement sum.  A sum that does not fit
    is undefined behaviour in C; the properties below are stated for sums
    that fit. *)
Definition time_t_add (a b : Z) : Z := (a + b + 2 ^ 63) mod 2 ^ 64 - 2 ^ 63.
Arguments time_t_add : simpl never.

(** [GetNow() + 3600 * 24 * 365 * years]: the product is computed on
    [unsigned int], the sum on the 64-bit [time_t]. *)
Definition GetFuture (years : Z) (w : world) : outcome Z :=
  bind (GetNow w) (fun now w =>
  Ret (time_t_add now ((3600 * 24 * 365 * years) mod 2 ^ 32)) w).

(** The constructor: the members are initialised in declaration order, the
    two fields of [distant_future_] from left to right. *)
Definition new_PosixFileMtime (w : world) : outcome PosixFileMtime :=
  bind (GetFuture 9 w) (fun near w =>
  bind (GetFuture 10 w) (fun a w =>
  bind (GetFuture 10 w) (fun m w =>
  Ret (MkPosixFileMtime near (UtimBuf a m)) w))).

Definition Set_ (path : string) (mtime : utimbuf) (w : world) : bool * world :=
  let '(r, w) := utime path mtime w in (r =? 0, w).

(** [GetIfInDistantFuture]: [None] when it returns false and leaves
    [*result] alone, [Some b] when it returns true with [*result = b]. *)
Definition GetIfInDistantFuture (this : PosixFileMtime) (path : string)
    (w : world) : option bool * world :=
  match stat path w with
  | (None, w) => (None, w)
  | (Some buf, w) => (Some (near_future_ this <? st_mtime buf), w)
  end.

Definition SetToNow (this : PosixFileMtime) (path : string) (w : world)
  : outcome bool :=
  bind (GetNow w) (fun now w =>
  let times := UtimBuf now now in
  let '(r, w) := Set_ path times w in Ret r w).

Definition SetToDistantFuture (this : PosixFileMtime) (path : string)
    (w : world) : bool * world :=
  Set_ path (distant_future_ this) w.

(** [IsDirectory]. *)
Definition IsDirectory (path : string) (w : world) : bool * world :=
  match stat path w with
  | (None, w) => (false, w)
  | (Some buf, w) => (S_ISDIR (st_mode buf), w)
  end.

(** [IsAbsolute]. *)
Definition IsAbsolute (path : string) : bool :=
  negb (Str.is_empty path) && Ascii.eqb (Str.first_char path) "/".

(** Every file of the tree has its permission bits within 07777, and the
    umask is within 0777: what the kernel maintains. *)
Definition well_formed (w : world) : Prop :=
  Z.land (w_umask w) 0x1FF = w_umask w /\
  forall p ino, w_fs w !! p = Some ino -> Z.land (i_perm ino) 0xFFF = i_perm ino.

(** What a caller may rely on for a directory: [stat] finds a directory
    whose permission bits are [mode] without the bits of [mask], and [lstat]
    finds an entry that [owner] owns. *)
Definition trusted_directory (path : string) (mode mask owner : Z) (w : world)
  : Prop :=
  exists filestat linkstat,
    os_stat w path = inr filestat /\
    S_ISDIR (st_mode filestat) = true /\
    Z.land (st_mode filestat) 0x1FF
      = Z.land (Z.land mode (mode_not mask)) 0x1FF /\
    os_lstat w path = inr linkstat /\
    st_uid linkstat = owner.

End FilePosix.

(** ** src/main/tools/linux-sandbox-options.cc *)

Module LinuxSandboxOptions.

(** How a run of the tool can end.  [UsageError] is [Usage()] (diagnostic,
    usage banner, [exit(EXIT_FAILURE)]) with its format string and the
    arguments printed into it; [Die] is the [DIE] macro;
    [ExitCheckNamespaces] is [exit(CheckNamespacesSupported())];
    [Undefined] marks an execution to which C++ gives no meaning;
    [OutOfFuel] is the recursion bound of the model, not of the program. *)
Inductive result (A : Type) :=
| Ok (a : A)
| UsageError (fmt : string) (printed : list string)
| Die (fmt : string) (printed : list string)
| ExitCheckNamespaces
| Undefined (why : string)
| OutOfFuel.
Arguments Ok {A} a.
Arguments UsageError {A} fmt printed.
Arguments Die {A} fmt printed.
Arguments ExitCheckNamespaces {A}.
Arguments Undefined {A} why.
Arguments OutOfFuel {A}.

Definition bind {A B : Type} (m : result A) (k : A -> result B) : result B :=
  match m with
  | Ok a => k a
  | UsageError f p => UsageError f p
  | Die f p => Die f p
  | ExitCheckNamespaces => ExitCheckNamespaces
  | Undefined y => Undefined y
  | OutOfFuel => OutOfFuel
  end.

Notation "'let*' x ':=' m 'in' k" := (bind m (fun x => k))
  (at level 10, x name, m at level 100, k at level 200).

(** Modelled from the spec: [struct Options] is declared in
    linux-sandbox-options.h, which is not among the sources; the fields are
    those of the configuration's data model, under the names the parser
    assigns to.  A [NULL] pointer is [None]. *)
Record Options := MkOptions {
  sandbox_root_dir : option string;
  working_dir : option string;
  timeout_secs : Z;
  kill_delay_secs : Z;
  stdout_path : option string;
  stderr_path : option string;
  writable_files : list string;
  inaccessible_files : list string;
  tmpfs_dirs : list string;
  bind_mount_sources : list string;
  bind_mount_targets : list string;
  create_netns : bool;
  fake_root : bool;
  debug : bool;
  args : list string
}.

(** [struct Options opt;] at namespace scope is zero-initialised. *)
Definition opt_zero : Options :=
  MkOptions None None 0 0 None None [] [] [] [] [] false false false [].

Definition set_sandbox_root_dir v o :=
  MkOptions v (working_dir o) (timeout_secs o) (kill_delay_secs o)
    (stdout_path o) (stderr_path o) (writable_files o) (inaccessible_files o)
    (tmpfs_dirs o) (bind_mount_sources o) (bind_mount_targets o)
    (create_netns o) (fake_root o) (debug o) (args o).
Definition set_working_dir v o :=
  MkOptions (sandbox_root_dir o) v (timeout_secs o) (kill_delay_secs o)
    (stdout_path o) (stderr_path o) (writable_files o) (inaccessible_files o)
    (tmpfs_dirs o) (bind_mount_sources o) (bind_mount_targets o)
    (create_netns o) (fake_root o) (debug o) (args o).
Definition set_timeout_secs v o :=
  MkOptions (sandbox_root_dir o) (working_dir o) v (kill_delay_secs o)
    (stdout_path o) (stderr_path o) (writable_files o) (inaccessible_files o)
    (tmpfs_dirs o) (bind_mount_sources o) (bind_mount_targets o)
    (create_netns o) (fake_root o) (debug o) (args o).
Definition set_kill_delay_secs v o :=
  MkOptions (sandbox_root_dir o) (working_dir o) (timeout_secs o) v
    (stdout_path o) (stderr_path o) (writable_files o) (inaccessible_files o)
    (tmpfs_dirs o) (bind_mount_sources o) (bind_mount_targets o)
    (create_netns o) (fake_root o) (debug o) (args o).
Definition set_stdout_path v o :=
  MkOptions (sandbox_root_dir o) (working_dir o) (timeout_secs o) (kill_delay_secs o)
    v (stderr_path o) (writable_files o) (inaccessible_files o)
    (tmpfs_dirs o) (bind_mount_sources o) (bind_mount_targets o)
    (create_netns o) (fake_root o) (debug o) (args o).
Definition set_stderr_path v o :=
  MkOptions (sandbox_root_dir o) (working_dir o) (timeout_secs o) (kill_delay_secs o)
    (stdout_path o) v (writable_files o) (inaccessible_files o)
    (tmpfs_dirs o) (bind_mount_sources o) (bind_mount_targets o)
    (create_netns o) (fake_root o) (debug o) (args o).
Definition set_writable_files v o :=
  MkOptions (sandbox_root_dir o) (working_dir o) (timeout_secs o) (kill_delay_secs o)
    (stdout_path o) (stderr_path o) v (inaccessible_files o)
    (tmpfs_dirs o) (bind_mount_sources o) (bind_mount_targets o)
    (create_netns o) (fake_root o) (debug o) (args o).
Definition set_inaccessible_files v o :=
  MkOptions (sandbox_root_dir o) (working_dir o) (timeout_secs o) (kill_delay_secs o)
    (stdout_path o) (stderr_path o) (writable_files o) v
    (tmpfs_dirs o) (bind_mount_sources o) (bind_mount_targets o)
    (create_netns o) (fake_root o) (debug o) (args o).
Definition set_tmpfs_dirs v o :=
  MkOptions (sandbox_root_dir o) (working_dir o) (timeout_secs o) (kill_delay_secs o)
    (stdout_path o) (stderr_path o) (writable_files o) (inaccessible_files o)
    v (bind_mount_sources o) (bind_mount_targets o)
    (create_netns o) (fake_root o) (debug o) (args o).
Definition set_bind_mount_sources v o :=
  MkOptions (sandbox_root_dir o) (working_dir o) (timeout_secs o) (kill_delay_secs o)
    (stdout_path o) (stderr_path o) (writable_files o) (inaccessible_files o)
    (tmpfs_dirs o) v (bind_mount_targets o)
    (create_netns o) (fake_root o) (debug o) (args o).
Definition set_bind_mount_targets v o :=
  MkOptions (sandbox_root_dir o) (working_dir o) (timeout_secs o) (kill_delay_secs o)
    (stdout_path o) (stderr_path o) (writable_files o) (inaccessible_files o)
    (tmpfs_dirs o) (bind_mount_sources o) v
    (create_netns o) (fake_root o) (debug o) (args o).
Definition set_create_netns v o :=
  MkOptions (sandbox_root_dir o) (working_dir o) (timeout_secs o) (kill_delay_secs o)
    (stdout_path o) (stderr_path o) (writable_files o) (inaccessible_files o)
    (tmpfs_dirs o) (bind_mount_sources o) (bind_mount_targets o)
    v (fake_root o) (debug o) (args o).
Definition set_fake_root v o :=
  MkOptions (sandbox_root_dir o) (working_dir o) (timeout_secs o) (kill_delay_secs o)
    (stdout_path o) (stderr_path o) (writable_files o) (inaccessible_files o)
    (tmpfs_dirs o) (bind_mount_sources o) (bind_mount_targets o)
    (create_netns o) v (debug o) (args o).
Definition set_debug v o :=
  MkOptions (sandbox_root_dir o) (working_dir o) (timeout_secs o) (kill_delay_secs o)
    (stdout_path o) (stderr_path o) (writable_files o) (inaccessible_files o)
    (tmpfs_dirs o) (bind_mount_sources o) (bind_mount_targets o)
    (create_netns o) (fake_root o) v (args o).
Definition set_args v o :=
  MkOptions (sandbox_root_dir o) (working_dir o) (timeout_secs o) (kill_delay_secs o)
    (stdout_path o) (stderr_path o) (writable_files o) (inaccessible_files o)
    (tmpfs_dirs o) (bind_mount_sources o) (bind_mount_targets o)
    (create_netns o) (fake_root o) (debug o) v.

(** The bind mounts a configuration describes: sources paired with targets. *)
Definition bind_mounts (o : Options) : list (string * string) :=
  combine (bind_mount_sources o) (bind_mount_targets o).

(** *** getopt *)

Definition optstring : string := ":CS:W:T:t:l:L:w:i:e:M:m:NRD".

(** [Some true]: the letter takes an argument; [Some false]: it is a plain
    flag; [None]: it is not in the option string. *)
Fixpoint find_opt (c : ascii) (s : string) : option bool :=
  match s with
  | EmptyString => None
  | String a rest =>
      if Ascii.eqb a c then
        Some (match rest with String ":" _ => true | _ => false end)
      else find_opt c rest
  end.

Definition lookup_opt (c : ascii) : option bool :=
  if Ascii.eqb c ":" || Ascii.eqb c ";" then None else find_opt c optstring.

(** What one call of [getopt] returns: an option letter with [optarg], or
    ['?'] or [':'] with [optopt]. *)
Inductive getopt_ret :=
| Opt (c : ascii) (optarg : string)
| Unknown (optopt : ascii)
| Missing (optopt : ascii).

(** The letters of one argv element after its dash.  [next] is the
    following argv element, which an option letter at the end of the element
    takes as its argument; the flag returned says whether it did. *)
Fixpoint scan_cluster (chars : string) (next : option string)
  : list getopt_ret * bool :=
  match chars with
  | EmptyString => ([], false)
  | String c rest =>
      match lookup_opt c with
      | None =>
          let '(evs, used) := scan_cluster rest next in (Unknown c :: evs, used)
      | Some false =>
          let '(evs, used) := scan_cluster rest next in (Opt c "" :: evs, used)
      | Some true =>
          match rest with
          | String _ _ => ([Opt c rest], false)
          | EmptyString =>
              match next with
              | Some a => ([Opt c a], true)
              | None => ([Missing c], false)
              end
          end
      end
  end.

(** An argv element is an option element when it starts with a dash and is
    not the dash alone. *)
Definition is_option_element (tok : string) : bool :=
  match tok with
  | String "-" (String _ _) => true
  | _ => false
  end.

(** All the returns of [getopt] over the elements after argv[0], up to its
    -1, and what [argv + optind] then holds.  GNU [getopt] skips elements
    that are not options and moves them behind the options; a literal [--]
    ends the scan and is dropped. *)
Fixpoint getopt_scan (tokens : list string) (skipped : list string)
  : list getopt_ret * list string :=
  match tokens with
  | [] => ([], rev skipped)
  | tok :: rest =>
      if String.eqb tok "--" then ([], rev skipped ++ rest)
      else if is_option_element tok then
        let '(evs, used) :=
          scan_cluster (Str.substr_from tok 1) (head rest) in
        let '(evs', remaining) :=
          match rest with
          | _ :: rest' => if used then getopt_scan rest' skipped
                          else getopt_scan rest skipped
          | [] => getopt_scan rest skipped
          end in
        (evs ++ evs', remaining)
      else getopt_scan rest (tok :: skipped)
  end.

(** *** sscanf(optarg, "%d", &x) *)

Definition isspace (c : ascii) : bool :=
  let n := nat_of_ascii c in ((n =? 32) || ((9 <=? n) && (n <=? 13)))%nat.

Definition isdigit (c : ascii) : bool :=
  let n := nat_of_ascii c in ((48 <=? n) && (n <=? 57))%nat.

Definition digit_value (c : ascii) : Z := Z.of_nat (nat_of_ascii c) - 48.

Fixpoint skip_spaces (s : string) : string :=
  match s with
  | String c rest => if isspace c then skip_spaces rest else s
  | EmptyString => s
  end.

(** The value of the longest run of digits at the front of [s], after [acc]. *)
Fixpoint read_digits (s : string) (acc : Z) : Z :=
  match s with
  | String c rest =>
      if isdigit c then read_digits rest (10 * acc + digit_value c) else acc
  | EmptyString => acc
  end.

(** The number a [%d] directive reads: white space, an optional sign, then
    at least one digit; [None] when the input does not match (sscanf then
    returns 0 or EOF and stores nothing). *)
Definition scan_d (s : string) : option Z :=
  let s := skip_spaces s in
  let negative := Ascii.eqb (Str.first_char s) "-" in
  let s := if negative || Ascii.eqb (Str.first_char s) "+" then Str.tail s
           else s in
  if isdigit (Str.first_char s) then
    Some (if negative then - read_digits s 0 else read_digits s 0)
  else None.

Definition INT_MIN : Z := - 2 ^ 31.
Definition INT_MAX : Z := 2 ^ 31 - 1.
Definition fits_int (v : Z) : bool := (INT_MIN <=? v) && (v <=? INT_MAX).

(** *** ParseCommandLine *)

Definition ValidateIsAbsolutePath (path : string) (flag : ascii) : result unit :=
  if negb (Ascii.eqb (Str.first_char path) "/") then
    UsageError "The -%c option must be used with absolute paths only."
               [String flag EmptyString]
  else Ok tt.

(** [v.pop_back()]; on an empty vector the behaviour is undefined. *)
Definition pop_back (v : list string) : result (list string) :=
  match v with
  | [] => Undefined "pop_back on an empty vector"
  | _ => Ok (removelast v)
  end.

(** [sscanf(optarg, "%d", &field) != 1 || field < 0] guards [Usage]; a
    number that does not fit the [int] has no defined conversion. *)
Definition scan_nonnegative (optarg : string) (invalid : string) : result Z :=
  match scan_d optarg with
  | None => UsageError invalid [optarg]
  | Some v =>
      if negb (fits_int v) then
        Undefined "sscanf %d: the number cannot be represented in an int"
      else if v <? 0 then UsageError invalid [optarg]
      else Ok v
  end.

(** The local [bool source_specified] is declared without an initialiser:
    [None] until the loop assigns it. *)
Definition parser_state : Type := Options * option bool.

Local Notation "c 'is' k" := (Ascii.eqb c k) (at level 70, only parsing).

(** One turn of the [while] loop: the [switch] on what [getopt] returned.
    The diagnostic for ['?'] also prints [optind], which is not modelled. *)
Definition parse_option (ev : getopt_ret) (st : parser_state)
  : result parser_state :=
  let '(opt, source_specified) := st in
  match ev with
  | Unknown optopt =>
      UsageError "Unrecognized argument: -%c (%d)" [String optopt EmptyString]
  | Missing optopt =>
      UsageError "Flag -%c requires an argument" [String optopt EmptyString]
  | Opt c optarg =>
      let source_specified :=
        if negb (c is "M") && negb (c is "m") then Some false
        else source_specified in
      if c is "C" then
        (* Shortcut for the "does this system support sandboxing" check. *)
        ExitCheckNamespaces
      else if c is "S" then
        match sandbox_root_dir opt with
        | None =>
            let* _ := ValidateIsAbsolutePath optarg c in
            Ok (set_sandbox_root_dir (Some optarg) opt, source_specified)
        | Some _ =>
            UsageError "Multiple root directories (-S) specified, expected one." []
        end
      else if c is "W" then
        match working_dir opt with
        | None =>
            let* _ := ValidateIsAbsolutePath optarg c in
            Ok (set_working_dir (Some optarg) opt, source_specified)
        | Some _ =>
            UsageError "Multiple working directories (-W) specified, expected one." []
        end
      else if c is "T" then
        let* v := scan_nonnegative optarg "Invalid timeout (-T) value: %s" in
        Ok (set_timeout_secs v opt, source_specified)
      else if c is "t" then
        let* v := scan_nonnegative optarg "Invalid kill delay (-t) value: %s" in
        Ok (set_kill_delay_secs v opt, source_specified)
      else if c is "l" then
        match stdout_path opt with
        | None => Ok (set_stdout_path (Some optarg) opt, source_specified)
        | Some _ =>
            UsageError "Cannot redirect stdout to more than one destination." []
        end
      else if c is "L" then
        match stderr_path opt with
        | None => Ok (set_stderr_path (Some optarg) opt, source_specified)
        | Some _ =>
            UsageError "Cannot redirect stderr to more than one destination." []
        end
      else if c is "w" then
        let* _ := ValidateIsAbsolutePath optarg c in
        Ok (set_writable_files (writable_files opt ++ [optarg]) opt,
            source_specified)
      else if c is "i" then
        let* _ := ValidateIsAbsolutePath optarg c in
        Ok (set_inaccessible_files (inaccessible_files opt ++ [optarg]) opt,
            source_specified)
      else if c is "e" then
        let* _ := ValidateIsAbsolutePath optarg c in
        Ok (set_tmpfs_dirs (tmpfs_dirs opt ++ [optarg]) opt, source_specified)
      else if c is "M" then
        let* _ := ValidateIsAbsolutePath optarg c in
        (* Add the current source path to both source and target lists *)
        let opt :=
          set_bind_mount_sources (bind_mount_sources opt ++ [optarg]) opt in
        let opt :=
          set_bind_mount_targets (bind_mount_targets opt ++ [optarg]) opt in
        Ok (opt, Some true)
      else if c is "m" then
        let* _ := ValidateIsAbsolutePath optarg c in
        match source_specified with
        | None => Undefined "source_specified is read before it is assigned"
        | Some false =>
            UsageError "The -m option must be strictly preceded by an -M option." []
        | Some true =>
            let* targets := pop_back (bind_mount_targets opt) in
            Ok (set_bind_mount_targets (targets ++ [optarg]) opt, Some false)
        end
      else if c is "N" then Ok (set_create_netns true opt, source_specified)
      else if c is "R" then Ok (set_fake_root true opt, source_specified)
      else if c is "D" then Ok (set_debug true opt, source_specified)
      else Ok (opt, source_specified)
  end.

(** The [while] loop over the returns of [getopt]. *)
Fixpoint parse_loop (evs : list getopt_ret) (st : parser_state)
  : result parser_state :=
  match evs with
  | [] => Ok st
  | ev :: evs' => let* st' := parse_option ev st in parse_loop evs' st'
  end.

(** [ParseCommandLine], on the global [opt] passed in and handed back. *)
Definition ParseCommandLine (opt : Options) (argv : list string)
  : result Options :=
  let '(evs, remaining) := getopt_scan (tail argv) [] in
  let* st := parse_loop evs (opt, None) in
  let opt := fst st in
  match remaining with
  | [] => Ok opt
  | _ =>
      match args opt with
      | [] => Ok (set_args remaining opt)
      | _ => UsageError "Merging commands not supported." []
      end
  end.

(** *** Argument files *)

(** An argument file: its bytes, and whether reading it ends in an error
    ([f.bad()]) instead of at the end of the file. *)
Record arg_file := ArgFile { f_content : string; f_bad : bool }.

Definition newline : ascii := Ascii.ascii_of_nat 10.

(** The lines [std::getline] delivers: split at each newline; a final line
    without a newline counts, an empty remainder does not. *)
Fixpoint getlines (s : string) (line : string) : list string :=
  match s with
  | EmptyString => if Str.is_empty line then [] else [line]
  | String c rest =>
      if Ascii.eqb c newline then line :: getlines rest EmptyString
      else getlines rest (String.append line (String c EmptyString))
  end.

(** [strdup(line.c_str())]: the characters before the first NUL. *)
Fixpoint c_str (s : string) : string :=
  match s with
  | EmptyString => EmptyString
  | String c rest =>
      if Ascii.eqb c Ascii.zero then EmptyString else String c (c_str rest)
  end.

(** The [for] loop over the lines of an argument file, around the
    recursive call [expand]. *)
Fixpoint expand_lines (expand : list string -> string -> result (list string))
    (lines : list string) (expanded : list string) : result (list string) :=
  match lines with
  | [] => Ok expanded
  | line :: lines' =>
      if (0 <? String.length line)%nat then
        let* expanded := expand expanded (c_str line) in
        expand_lines expand lines' expanded
      else expand_lines expand lines' expanded
  end.

(** [ExpandArgument].  [fuel] bounds the nesting of argument files; the
    streams that the nesting keeps open are counted in
    [ExpandArgument_open]. *)
Fixpoint ExpandArgument (fuel : nat) (files : gmap string arg_file)
    (expanded : list string) (arg : string) : result (list string) :=
  if Ascii.eqb (Str.first_char arg) "@" then
    let filename := Str.substr_from arg 1 in      (* strip off the '@'. *)
    match files !! filename with
    | None => Die "opening argument file %s failed" [filename]
    | Some f =>
        match fuel with
        | O => OutOfFuel
        | S fuel' =>
            let* expanded :=
              expand_lines (ExpandArgument fuel' files)
                           (getlines (f_content f) EmptyString) expanded in
            if f_bad f then
              Die "error while reading from argument file %s" [filename]
            else Ok expanded
        end
    end
  else Ok (expanded ++ [arg]).

(** [ExpandArgument] with its streams counted.  The [ifstream] of an
    argument file stays open while the lines of the file are expanded, so
    each level of nesting holds one descriptor.  [avail] is the number of
    streams the process can still open: with none left the stream is not
    open, as for a file that cannot be read.  The recursion is then on
    [avail] and needs no other bound (the depth of the call stack is not
    modelled). *)
Fixpoint ExpandArgument_open (avail : nat) (files : gmap string arg_file)
    (expanded : list string) (arg : string) : result (list string) :=
  if Ascii.eqb (Str.first_char arg) "@" then
    let filename := Str.substr_from arg 1 in      (* strip off the '@'. *)
    match avail with
    | O => Die "opening argument file %s failed" [filename]
    | S avail' =>
        match files !! filename with
        | None => Die "opening argument file %s failed" [filename]
        | Some f =>
            let* expanded :=
              expand_lines (ExpandArgument_open avail' files)
                           (getlines (f_content f) EmptyString) expanded in
            if f_bad f then
              Die "error while reading from argument file %s" [filename]
            else Ok expanded
        end
    end
  else Ok (expanded ++ [arg]).

(** The [for] loop of [ExpandArguments]. *)
Fixpoint ExpandArguments_loop (fuel : nat) (files : gmap string arg_file)
    (argv : list string) (expanded : list string) : result (list string) :=
  match argv with
  | [] => Ok expanded
  | arg :: rest =>
      if negb (String.eqb arg "--") then
        let* expanded := ExpandArgument fuel files expanded arg in
        ExpandArguments_loop fuel files rest expanded
      else Ok (expanded ++ arg :: rest)
  end.

Definition ExpandArguments (fuel : nat) (files : gmap string arg_file)
    (argv : list string) : result (list string) :=
  ExpandArguments_loop fuel files argv [].

(** [ParseOptions]; [cwd] is what [getcwd(NULL, 0)] returns. *)
Definition ParseOptions (fuel : nat) (files : gmap string arg_file)
    (cwd : option string) (argv : list string) : result Options :=
  let* expanded := ExpandArguments fuel files argv in
  let* opt := ParseCommandLine opt_zero expanded in
  match args opt with
  | [] => UsageError "No command specified." []
  | _ =>
      let opt := set_tmpfs_dirs (tmpfs_dirs opt ++ ["/tmp"]) opt in
      match working_dir opt with
      | None => Ok (set_working_dir cwd opt)
      | Some _ => Ok opt
      end
  end.

(** *** The expansion as the specification words it *)

(** The results of a list of expansions, in order, up to the first that fails. *)
Fixpoint concat_results (rs : list (result (list string))) : result (list string) :=
  match rs with
  | [] => Ok []
  | r :: rs' =>
      let* a := r in
      let* b := concat_results rs' in
      Ok (a ++ b)
  end.

(** The lines of a file that take part in the expansion: the non-empty ones,
    each as the C string made of it. *)
Definition argument_lines (f : arg_file) : list string :=
  map c_str
      (List.filter (fun line => (0 <? String.length line)%nat)
              (getlines (f_content f) EmptyString)).

(** A token that begins with [@] is replaced by the non-empty lines of the
    file named after the [@], each line itself expanded; any other token
    stands for itself. *)
Fixpoint token_expansion (fuel : nat) (files : gmap string arg_file)
    (tok : string) : result (list string) :=
  if Ascii.eqb (Str.first_char tok) "@" then
    let filename := Str.substr_from tok 1 in
    match files !! filename with
    | None => Die "opening argument file %s failed" [filename]
    | Some f =>
        match fuel with
        | O => OutOfFuel
        | S fuel' =>
            let* e := concat_results
                        (map (token_expansion fuel' files) (argument_lines f)) in
            if f_bad f then
              Die "error while reading from argument file %s" [filename]
            else Ok e
        end
    end
  else Ok [tok].

(** The tokens before the first literal [--], and that token with all that
    follows it. *)
Fixpoint split_at_dashes (argv : list string) : list string * list string :=
  match argv with
  | [] => ([], [])
  | arg :: rest =>
      if String.eqb arg "--" then ([], argv)
      else let '(pre, post) := split_at_dashes rest in (arg :: pre, post)
  end.

(** Expansion stops at the first literal [--]; that token and everything
    after it is copied through. *)
Definition ExpandArguments_spec (fuel : nat) (files : gmap string arg_file)
    (argv : list string) : result (list string) :=
  let '(pre, post) := split_at_dashes argv in
  let* e := concat_results (map (token_expansion fuel files) pre) in
  Ok (e ++ post).

(** *** Bind mounts on the command line *)

(** The tokens that ask for one bind mount: [-M source], followed by
    [-m target] when a target is given. *)
Definition mount_tokens (m : string * option string) : list string :=
  match m with
  | (source, None) => ["-M"; source]
  | (source, Some target) => ["-M"; source; "-m"; target]
  end.

(** The pair such a mount stands for: the target defaults to the source. *)
Definition mount_pair (m : string * option string) : string * string :=
  match m with
  | (source, None) => (source, source)
  | (source, Some target) => (source, target)
  end.

(** What [getopt] returns over the tokens of one bind mount. *)
Definition mount_events (m : string * option string) : list getopt_ret :=
  match m with
  | (source, None) => [Opt "M" source]
  | (source, Some target) => [Opt "M" source; Opt "m" target]
  end.

Definition is_absolute (path : string) : bool :=
  Ascii.eqb (Str.first_char path) "/".

Definition mount_absolute (m : string * option string) : bool :=
  is_absolute (fst m)
  && match snd m with Some target => is_absolute target | None => true end.

(** *** Numbers at the front of a string *)

Fixpoint all_chars (p : ascii -> bool) (s : string) : bool :=
  match s with
  | EmptyString => true
  | String c rest => p c && all_chars p rest
  end.

(** The value of a string of decimal digits. *)
Fixpoint decimal_from (acc : Z) (digits : string) : Z :=
  match digits with
  | EmptyString => acc
  | String c rest => decimal_from (10 * acc + digit_value c) rest
  end.

Definition decimal (digits : string) : Z := decimal_from 0 digits.

(** [s] starts with the number [v]: white space, an optional sign, one or
    more digits that give [v], and then something that is not a digit. *)
Definition reads_number (s : string) (v : Z) : Prop :=
  exists spaces sign digits rest,
    s = String.append spaces (String.append sign (String.append digits rest)) /\
    all_chars isspace spaces = true /\
    digits <> EmptyString /\
    all_chars isdigit digits = true /\
    isdigit (Str.first_char rest) = false /\
    ((sign = "" \/ sign = "+") /\ v = decimal digits \/
     sign = "-" /\ v = - decimal digits).

(** *** Text files *)

(** A file made of lines, each ended by a newline. *)
Fixpoint join_lines (lines : list string) : string :=
  match lines with
  | [] => EmptyString
  | line :: lines' =>
      String.append line (String newline (join_lines lines'))
  end.

(** A line of text: no newline and no NUL in it. *)
Definition text_line (line : string) : bool :=
  all_chars (fun c => negb (Ascii.eqb c newline) && negb (Ascii.eqb c Ascii.zero))
            line.

(** A token that is neither an argument file nor the end of the options. *)
Definition plain_token (tok : string) : bool :=
  negb (Ascii.eqb (Str.first_char tok) "@") && negb (String.eqb tok "--").

(** The option letters whose argument must be an absolute path. *)
Definition path_options : list ascii :=
  ["S"; "W"; "w"; "i"; "e"; "M"; "m"]%char.

(** *** What an accepted option does to the parser state *)

(** The ways in which one turn of the loop can go on: which field changes,
    under which condition on the argument and on the state before. *)
Inductive option_step (optarg : string) (opt : Options)
  : option bool -> Options -> option bool -> Prop :=
| step_root ss :
    sandbox_root_dir opt = None -> is_absolute optarg = true ->
    option_step optarg opt ss (set_sandbox_root_dir (Some optarg) opt) (Some false)
| step_working_dir ss :
    working_dir opt = None -> is_absolute optarg = true ->
    option_step optarg opt ss (set_working_dir (Some optarg) opt) (Some false)
| step_timeout ss v :
    0 <= v <= INT_MAX ->
    option_step optarg opt ss (set_timeout_secs v opt) (Some false)
| step_kill_delay ss v :
    0 <= v <= INT_MAX ->
    option_step optarg opt ss (set_kill_delay_secs v opt) (Some false)
| step_stdout ss :
    stdout_path opt = None ->
    option_step optarg opt ss (set_stdout_path (Some optarg) opt) (Some false)
| step_stderr ss :
    stderr_path opt = None ->
    option_step optarg opt ss (set_stderr_path (Some optarg) opt) (Some false)
| step_writable ss :
    is_absolute optarg = true ->
    option_step optarg opt ss
      (set_writable_files (writable_files opt ++ [optarg]) opt) (Some false)
| step_inaccessible ss :
    is_absolute optarg = true ->
    option_step optarg opt ss
      (set_inaccessible_files (inaccessible_files opt ++ [optarg]) opt)
      (Some false)
| step_tmpfs ss :
    is_absolute optarg = true ->
    option_step optarg opt ss
      (set_tmpfs_dirs (tmpfs_dirs opt ++ [optarg]) opt) (Some false)
| step_source ss :
    is_absolute optarg = true ->
    option_step optarg opt ss
      (set_bind_mount_targets (bind_mount_targets opt ++ [optarg])
         (set_bind_mount_sources (bind_mount_sources opt ++ [optarg]) opt))
      (Some true)
| step_target :
    is_absolute optarg = true ->
    bind_mount_targets opt <> [] ->
    option_step optarg opt (Some true)
      (set_bind_mount_targets (removelast (bind_mount_targets opt) ++ [optarg]) opt)
      (Some false)
| step_netns ss :
    option_step optarg opt ss (set_create_netns true opt) (Some false)
| step_fake_root ss :
    option_step optarg opt ss (set_fake_root true opt) (Some false)
| step_debug ss :
    option_step optarg opt ss (set_debug true opt) (Some false)
| step_nothing ss :
    option_step optarg opt ss opt (Some false).

(** Every source has a target, and a pair that is still open exists. *)
Definition paired (st : parser_state) : Prop :=
  length (bind_mount_sources (fst st)) = length (bind_mount_targets (fst st)) /\
  (snd st = Some true -> bind_mount_targets (fst st) <> []).

Definition all_absolute (paths : list string) : Prop :=
  Forall (fun path => is_absolute path = true) paths.

(** Every path of the configuration is absolute; the two redirections are
    not among them. *)
Definition absolute_paths (opt : Options) : Prop :=
  (forall dir, sandbox_root_dir opt = Some dir -> is_absolute dir = true) /\
  (forall dir, working_dir opt = Some dir -> is_absolute dir = true) /\
  all_absolute (writable_files opt) /\
  all_absolute (inaccessible_files opt) /\
  all_absolute (tmpfs_dirs opt) /\
  all_absolute (bind_mount_sources opt) /\
  all_absolute (bind_mount_targets opt).

Definition durations_in_range (opt : Options) : Prop :=
  0 <= timeout_secs opt <= INT_MAX /\ 0 <= kill_delay_secs opt <= INT_MAX.

End LinuxSandboxOptions.

(** ** Concrete worlds *)

Module Examples.
Import Posix FilePosix.

Definition directory (uid perm : Z) : inode := Inode KDir uid perm 0 0 [].

Definition regular (uid perm : Z) (data : list Byte.byte) : inode :=
  Inode KReg uid perm 0 0 data.

(** User 1000 with a home directory, next to a directory of user 1001 and
    the files of root. *)
Definition tree : gmap string inode :=
  {[ "/" := directory 0 0x1ED;
     "/etc" := directory 0 0x1ED;
     "/etc/motd" := regular 0 0x1A4 [Byte.x68; Byte.x69];
     "/tmp" := directory 0 0x3FF;
     "/tmp/theirs" := directory 1001 0x1ED;
     "/home/me" := directory 1000 0x1ED;
     "/home/me/out" := regular 1000 0x1A4 [Byte.x6f; Byte.x6c; Byte.x64] ]}.

Definition t0 : Z := 1700000000.

Definition steady (w_faults : faults) : world :=
  World tree ∅ 3 0x12 0 0 [] 1000 (fun _ => t0) w_faults.

Definition calm : world := steady no_faults.

(** No descriptor left for [open]. *)
Definition exhausted : world := steady (Faults (Some EMFILE) None None None).

(** The disk is full at [write], and the server reports an error at [close]. *)
Definition nfs : world := steady (Faults None (Some ENOSPC) None (Some EIO)).

(** A clock that stands at [t0] while the marker is built and reads nine
    years and a second later from then on. *)
Definition long_run : world :=
  World tree ∅ 3 0x12 0 0 [] 1000
        (fun n => if (n <? 3)%nat then t0 else t0 + 9 * 31536000 + 1) no_faults.

(** A clock that is set back by a year and a day after the first of the
    three readings that build the marker. *)
Definition set_back : world :=
  World tree ∅ 3 0x12 0 0 [] 1000
        (fun n => if (n <? 1)%nat then t0 else t0 - 366 * 86400) no_faults.

(** The file system accepts two bytes for each [write]. *)
Definition tight : world := steady (Faults None None (Some 2%nat) None).

(** Two argument files; the first names the second on its third line. *)
Definition argument_files : gmap string LinuxSandboxOptions.arg_file :=
  {[ "opts" := LinuxSandboxOptions.ArgFile "-N

@more
-D
" false;
     "more" := LinuxSandboxOptions.ArgFile "-R" false ]}.

End Examples.

(** * Properties *)

(** ** Paths *)

Section PathFacts.
Import FilePosix.

Lemma rfind_lt c s i : Str.rfind c s = Some i -> (i < String.length s)%nat.
Proof.
  revert i. induction s as [|a s IH]; simpl; intros i H; [discriminate|].
  destruct (Str.rfind c s) as [j|].
  - injection H as <-. specialize (IH j eq_refl). lia.
  - destruct (Ascii.eqb a c); [injection H as <-; lia | discriminate].
Qed.

Lemma rfind_zero_first c s : Str.rfind c s = Some O -> Str.first_char s = c.
Proof.
  destruct s as [|a s]; simpl; [discriminate|].
  destruct (Str.rfind c s); [discriminate|].
  destruct (Ascii.eqb a c) eqn:E; [|discriminate].
  intros _. now apply Ascii.eqb_eq.
Qed.

Lemma length_prefix s n :
  (n <= String.length s)%nat -> String.length (Str.substr s 0 n) = n.
Proof.
  unfold Str.substr. revert n.
  induction s as [|a s IH]; intros [|n]; simpl; intros H; try lia.
  rewrite IH; lia.
Qed.

Lemma is_empty_length s : Str.is_empty s = false -> (0 < String.length s)%nat.
Proof. destruct s; simpl; [discriminate | lia]. Qed.

(** The parent of a path that is neither empty nor the root is shorter. *)
Lemma Dirname_shorter path :
  Str.is_empty path || IsRootDirectory path = false ->
  (String.length (Dirname path) < String.length path)%nat.
Proof.
  intros H. apply orb_false_elim in H as [Hne Hroot].
  pose proof (is_empty_length _ Hne) as Hlen.
  unfold Dirname, SplitPath.
  destruct (Str.rfind "/" path) as [[|pos]|] eqn:E; simpl.
  - rewrite length_prefix by lia.
    unfold IsRootDirectory in Hroot.
    rewrite (rfind_zero_first _ _ E), Ascii.eqb_refl, andb_true_r in Hroot.
    apply Nat.eqb_neq in Hroot. lia.
  - apply rfind_lt in E. rewrite length_prefix; lia.
  - exact Hlen.
Qed.

End PathFacts.

(** ** The directory materializer *)

Section DirectoryFacts.
Import Posix FilePosix.

(** Case analysis on whatever the goal currently branches on. *)
Ltac branch :=
  match goal with
  | |- context [match ?x with _ => _ end] => destruct x eqn:?
  | |- context [if ?b then _ else _] => destruct b eqn:?
  end.

Lemma os_stat_log c w path : os_stat (log c w) path = os_stat w path.
Proof. reflexivity. Qed.

Lemma os_lstat_log c w path : os_lstat (log c w) path = os_lstat w path.
Proof. reflexivity. Qed.

(** [umask(022)] followed by [umask] of what it returned restores the mask. *)
Lemma umask_probe_restore w :
  Z.land (w_umask w) 0x1FF = w_umask w ->
  let '(mask, w1) := umask 0x12 w in
  let '(_, w2) := umask mask w1 in
  mask = w_umask w /\ w_umask w2 = w_umask w /\ w_fs w2 = w_fs w /\
  w_trace w2 = w_trace w ++ [SysUmask 0x12; SysUmask (w_umask w)].
Proof.
  intros H. unfold umask. simpl. rewrite H, <- app_assoc. auto.
Qed.

Lemma chmod_umask path mode w : w_umask (snd (chmod path mode w)) = w_umask w.
Proof. unfold chmod. repeat branch; reflexivity. Qed.

Lemma mkdir_umask path mode w : w_umask (snd (mkdir path mode w)) = w_umask w.
Proof. unfold mkdir. repeat branch; reflexivity. Qed.

Lemma GetDirectoryStat_umask path mode check_perms w :
  Z.land (w_umask w) 0x1FF = w_umask w ->
  w_umask (snd (GetDirectoryStat path mode check_perms w)) = w_umask w.
Proof.
  intros H. unfold GetDirectoryStat, stat, lstat.
  rewrite os_stat_log.
  destruct (os_stat w path) as [e|filestat]; [reflexivity|].
  destruct (negb (S_ISDIR (st_mode filestat))); [reflexivity|].
  destruct check_perms; [|reflexivity].
  rewrite os_lstat_log.
  destruct (os_lstat (log (SysStat path) w) path) as [e|linkstat]; [reflexivity|].
  destruct (negb _); [reflexivity|].
  unfold umask; simpl. rewrite H.
  branch; [|reflexivity].
  match goal with |- context [chmod ?p ?m ?w0] =>
    pose proof (chmod_umask p m w0) as Hc; destruct (chmod p m w0) as [r w3] end.
  simpl in Hc. branch; simpl; rewrite Hc; reflexivity.
Qed.

Lemma MakeDirectories_rec_umask fuel : forall path mode childmost w r w',
  Z.land (w_umask w) 0x1FF = w_umask w ->
  MakeDirectories_rec fuel path mode childmost w = Some (r, w') ->
  w_umask w' = w_umask w.
Proof.
  induction fuel as [|fuel IH]; intros path mode childmost w r w' Hv; simpl;
    [discriminate|].
  destruct (Str.is_empty path || IsRootDirectory path).
  { intros [= <- <-]. reflexivity. }
  pose proof (GetDirectoryStat_umask path mode childmost w Hv) as H1.
  destruct (GetDirectoryStat path mode childmost w) as [ok w1]. simpl in H1.
  destruct ok; [intros [= <- <-]; exact H1|].
  destruct (w_errno w1 =? ENOENT); [|intros [= <- <-]; exact H1].
  assert (Hv1 : Z.land (w_umask w1) 0x1FF = w_umask w1) by (rewrite H1; exact Hv).
  destruct (MakeDirectories_rec fuel (Dirname path) mode false w1)
    as [[ok2 w2]|] eqn:E2; [|discriminate].
  apply IH in E2; [|exact Hv1].
  destruct ok2; [|intros [= <- <-]; congruence].
  pose proof (mkdir_umask path mode w2) as H3.
  destruct (mkdir path mode w2) as [r3 w3]. simpl in H3.
  assert (Hv3 : Z.land (w_umask w3) 0x1FF = w_umask w3) by congruence.
  destruct (r3 =? -1); [|intros [= <- <-]; congruence].
  destruct (w_errno w3 =? EEXIST); [|intros [= <- <-]; congruence].
  destruct childmost; [|intros [= <- <-]; congruence].
  pose proof (GetDirectoryStat_umask path mode true w3 Hv3) as H4.
  destruct (GetDirectoryStat path mode true w3) as [r4 w4]. simpl in H4.
  intros [= <- <-]. congruence.
Qed.

(** With more fuel than the path has characters the recursion returns. *)
Lemma MakeDirectories_rec_total fuel : forall path mode childmost w,
  (String.length path < fuel)%nat ->
  exists r w', MakeDirectories_rec fuel path mode childmost w = Some (r, w').
Proof.
  induction fuel as [|fuel IH]; intros path mode childmost w Hlen; [lia|].
  simpl.
  destruct (Str.is_empty path || IsRootDirectory path) eqn:Hroot; [eauto|].
  destruct (GetDirectoryStat path mode childmost w) as [ok w1].
  destruct ok; [eauto|].
  destruct (w_errno w1 =? ENOENT); [|eauto].
  apply Dirname_shorter in Hroot.
  destruct (IH (Dirname path) mode false w1) as (r2 & w2 & ->); [lia|].
  destruct r2; [|eauto].
  destruct (mkdir path mode w2) as [r3 w3].
  destruct (r3 =? -1); [|eauto].
  destruct (w_errno w3 =? EEXIST); [|eauto].
  destruct childmost; [|eauto].
  destruct (GetDirectoryStat path mode true w3); eauto.
Qed.

(** A result does not depend on how much fuel was left over. *)
Lemma MakeDirectories_rec_more fuel : forall path mode childmost w res,
  MakeDirectories_rec fuel path mode childmost w = Some res ->
  MakeDirectories_rec (S fuel) path mode childmost w = Some res.
Proof.
  induction fuel as [|fuel IH]; intros path mode childmost w res; [discriminate|].
  intros H. simpl in H. change (MakeDirectories_rec (S (S fuel)) path mode childmost w)
    with (if Str.is_empty path || IsRootDirectory path then
            Some (false, set_errno EACCES w)
          else
            let '(stat_succeeded, w) := GetDirectoryStat path mode childmost w in
            if stat_succeeded then Some (true, w)
            else if w_errno w =? ENOENT then
              match MakeDirectories_rec (S fuel) (Dirname path) mode false w with
              | None => None
              | Some (false, w) => Some (false, w)
              | Some (true, w) =>
                  let '(r, w) := mkdir path mode w in
                  if r =? -1 then
                    if w_errno w =? EEXIST then
                      if childmost then Some (GetDirectoryStat path mode childmost w)
                      else Some (true, w)
                    else Some (false, w)
                  else Some (true, w)
              end
            else Some (stat_succeeded, w)).
  destruct (Str.is_empty path || IsRootDirectory path); [exact H|].
  destruct (GetDirectoryStat path mode childmost w) as [ok w1].
  destruct ok; [exact H|].
  destruct (w_errno w1 =? ENOENT); [|exact H].
  destruct (MakeDirectories_rec fuel (Dirname path) mode false w1) as [res2|] eqn:E2;
    [|discriminate].
  rewrite (IH _ _ _ _ _ E2). exact H.
Qed.

Lemma MakeDirectories_rec_plus k : forall fuel path mode childmost w res,
  MakeDirectories_rec fuel path mode childmost w = Some res ->
  MakeDirectories_rec (fuel + k) path mode childmost w = Some res.
Proof.
  induction k as [|k IH]; intros fuel path mode childmost w res H.
  - now rewrite Nat.add_0_r.
  - rewrite Nat.add_succ_r. apply MakeDirectories_rec_more, IH, H.
Qed.

(** What the trust check does to a directory of somebody else. *)
Lemma GetDirectoryStat_foreign_owner path mode w filestat linkstat :
  os_stat w path = inr filestat ->
  S_ISDIR (st_mode filestat) = true ->
  os_lstat w path = inr linkstat ->
  st_uid linkstat <> geteuid w ->
  GetDirectoryStat path mode true w =
    (false, set_errno EACCES (log (SysLstat path) (log (SysStat path) w))).
Proof.
  intros Hstat Hdir Hlstat Huid.
  unfold GetDirectoryStat, stat, lstat.
  rewrite os_stat_log, Hstat, Hdir. simpl negb. cbv iota.
  rewrite !os_lstat_log, Hlstat.
  replace (st_uid linkstat =? geteuid _) with false; [reflexivity|].
  symmetry. apply Z.eqb_neq. exact Huid.
Qed.

(** C1: an existing directory whose link-stat owner is not the effective
    user makes [MakeDirectories] fail with [EACCES]; the file tree and the
    umask are as before, and the only system calls made are the [stat] and
    the [lstat] of the path: no [umask], no [chmod], no [mkdir]. *)
Theorem MakeDirectories_foreign_owner :
  forall path mode w filestat linkstat,
    os_stat w path = inr filestat ->
    S_ISDIR (st_mode filestat) = true ->
    os_lstat w path = inr linkstat ->
    st_uid linkstat <> geteuid w ->
    exists w',
      MakeDirectories path mode w = Some (false, w') /\
      w_errno w' = EACCES /\
      w_fs w' = w_fs w /\
      w_umask w' = w_umask w /\
      w_trace w' =
        w_trace w ++
          (if Str.is_empty path || IsRootDirectory path then []
           else [SysStat path; SysLstat path]).
Proof.
  intros path mode w filestat linkstat Hstat Hdir Hlstat Huid.
  unfold MakeDirectories. simpl MakeDirectories_rec.
  destruct (Str.is_empty path || IsRootDirectory path).
  - eexists. split; [reflexivity|]. simpl. rewrite app_nil_r. auto.
  - rewrite (GetDirectoryStat_foreign_owner _ _ _ _ _ Hstat Hdir Hlstat Huid).
    simpl. eexists. split; [reflexivity|]. simpl.
    rewrite <- app_assoc. auto.
Qed.

(** C9: the trust check leaves the umask as it found it, and so does every
    call of [MakeDirectories], which also returns. *)
Theorem umask_unchanged :
  forall path mode check_perms w,
    Z.land (w_umask w) 0x1FF = w_umask w ->
    w_umask (snd (GetDirectoryStat path mode check_perms w)) = w_umask w /\
    exists r w',
      MakeDirectories path mode w = Some (r, w') /\ w_umask w' = w_umask w.
Proof.
  intros path mode check_perms w Hv. split.
  - now apply GetDirectoryStat_umask.
  - destruct (MakeDirectories_rec_total (S (String.length path)) path mode true w)
      as (r & w' & E); [lia|].
    exists r, w'. split; [exact E|].
    eapply MakeDirectories_rec_umask; eauto.
Qed.

(** C10: [MakeDirectories] returns on every path.  One unit of fuel per
    character and one more is enough, and any extra fuel changes nothing;
    the empty path and the root are rejected at once, and for every other
    path the parent, the first component of [SplitPath], is shorter. *)
Theorem MakeDirectories_terminates :
  forall path mode childmost w k,
    (exists r w',
        MakeDirectories_rec (S (String.length path)) path mode childmost w
          = Some (r, w') /\
        MakeDirectories_rec (S (String.length path) + k) path mode childmost w
          = Some (r, w')) /\
    (if Str.is_empty path || IsRootDirectory path then
       MakeDirectories_rec 1 path mode childmost w
         = Some (false, set_errno EACCES w)
     else
       Dirname path = fst (SplitPath path) /\
       (String.length (Dirname path) < String.length path)%nat).
Proof.
  intros path mode childmost w k. split.
  - destruct (MakeDirectories_rec_total (S (String.length path)) path mode
                childmost w) as (r & w' & E); [lia|].
    exists r, w'. split; [exact E|].
    now apply MakeDirectories_rec_plus.
  - destruct (Str.is_empty path || IsRootDirectory path) eqn:E.
    + simpl. now rewrite E.
    + split; [reflexivity|]. now apply Dirname_shorter.
Qed.

(** In [Examples.calm], user 1000 asks for /tmp/theirs, which user 1001 owns. *)
Lemma MakeDirectories_foreign_owner_witness :
  exists w',
    MakeDirectories "/tmp/theirs" 0x1ED Examples.calm = Some (false, w') /\
    w_errno w' = EACCES /\
    w_fs w' = w_fs Examples.calm /\
    w_umask w' = w_umask Examples.calm /\
    w_trace w' = [SysStat "/tmp/theirs"; SysLstat "/tmp/theirs"].
Proof.
  apply (MakeDirectories_foreign_owner "/tmp/theirs" 0x1ED Examples.calm
           (stat_of (Examples.directory 1001 0x1ED))
           (stat_of (Examples.directory 1001 0x1ED))).
  - vm_compute. reflexivity.
  - vm_compute. reflexivity.
  - vm_compute. reflexivity.
  - vm_compute. discriminate.
Defined.

Lemma umask_unchanged_witness :
  w_umask (snd (GetDirectoryStat "/home/me" 0x1C0 true Examples.calm)) = 0x12 /\
  exists r w',
    MakeDirectories "/home/me" 0x1C0 Examples.calm = Some (r, w') /\
    w_umask w' = 0x12.
Proof.
  apply (umask_unchanged "/home/me" 0x1C0 true Examples.calm).
  vm_compute. reflexivity.
Defined.

End DirectoryFacts.

(** ** The file writer *)

Section WriteFileFacts.
Import Posix FilePosix.

Ltac branch :=
  match goal with
  | |- context [match ?x with _ => _ end] => destruct x eqn:?
  | |- context [if ?b then _ else _] => destruct b eqn:?
  end.

(** An [unlink] that succeeds has removed an entry that was there. *)
Lemma unlink_succeeded path w :
  fst (unlink path w) = 0 ->
  is_Some (w_fs w !! path) /\
  snd (unlink path w) = set_fs (delete path (w_fs w)) (log (SysUnlink path) w).
Proof.
  unfold unlink. simpl.
  destruct (w_fs w !! path) as [ino|]; [|discriminate].
  destruct (parent_error _ path); [discriminate|].
  destruct (i_kind ino); [discriminate| |]; simpl; eauto.
Qed.

(** A failed [open] has touched nothing but [errno]. *)
Lemma open_failed path mode w :
  fst (open_creat_trunc path mode w) = -1 ->
  w_fs (snd (open_creat_trunc path mode w)) = w_fs w /\
  w_trace (snd (open_creat_trunc path mode w)) = w_trace w ++ [SysOpen path].
Proof.
  unfold open_creat_trunc, alloc_fd. repeat branch; simpl; intros H; auto; lia.
Qed.

(** A successful [open] returns a descriptor of the table, and keeps the
    faults of the world. *)
Lemma open_succeeded path mode w fd w1 :
  open_creat_trunc path mode w = (fd, w1) ->
  fd <> -1 ->
  is_Some (w_fds w1 !! fd) /\ w_faults w1 = w_faults w.
Proof.
  unfold open_creat_trunc, alloc_fd.
  repeat branch; simpl; intros [= <- <-] Hfd; try contradiction; simpl;
    (split; [rewrite lookup_insert_eq; eauto | reflexivity]).
Qed.

Lemma write_keeps fd buf w :
  w_fds (snd (write fd buf w)) = w_fds w /\
  w_faults (snd (write fd buf w)) = w_faults w.
Proof. unfold write. repeat branch; simpl; auto. Qed.

Lemma close_faulty fd w e :
  is_Some (w_fds w !! fd) ->
  close_fault (w_faults w) = Some e ->
  fst (close fd w) = -1 /\ w_errno (snd (close fd w)) = e.
Proof.
  intros [p Hp] He. unfold close. simpl. rewrite Hp. simpl. rewrite He. auto.
Qed.

Lemma unlink_trace path w :
  w_trace (snd (unlink path w)) = w_trace w ++ [SysUnlink path].
Proof. unfold unlink. repeat branch; reflexivity. Qed.

Lemma open_trace path mode w :
  w_trace (snd (open_creat_trunc path mode w)) = w_trace w ++ [SysOpen path].
Proof. unfold open_creat_trunc, alloc_fd. repeat branch; reflexivity. Qed.

Lemma write_trace fd buf w :
  w_trace (snd (write fd buf w)) = w_trace w ++ [SysWrite fd (length buf)].
Proof. unfold write. repeat branch; reflexivity. Qed.

Lemma close_trace fd w :
  w_trace (snd (close fd w)) = w_trace w ++ [SysClose fd].
Proof. unfold close. repeat branch; reflexivity. Qed.

(** Every run of [WriteFile] starts with the [unlink] and then the [open]. *)
Lemma WriteFile_trace data filename w :
  exists rest,
    w_trace (snd (WriteFile data filename w)) =
      w_trace w ++ SysUnlink filename :: SysOpen filename :: rest.
Proof.
  unfold WriteFile, UnlinkPath, WriteTo.
  pose proof (unlink_trace filename w) as Hu.
  destruct (unlink filename w) as [u wu]; simpl in Hu.
  pose proof (open_trace filename 0x1ED wu) as Ho.
  destruct (open_creat_trunc filename 0x1ED wu) as [fd w1]; simpl in Ho.
  rewrite Hu, <- app_assoc in Ho. simpl in Ho.
  destruct (fd =? -1); simpl; [eauto|].
  pose proof (write_trace fd data w1) as Hw.
  destruct (write fd data w1) as [n w2]; simpl in Hw.
  pose proof (close_trace fd w2) as Hc.
  destruct (close fd w2) as [c w3]; simpl in Hc.
  rewrite Hw, Ho, <- !app_assoc in Hc. simpl in Hc.
  destruct (negb (c =? 0)); simpl; eauto.
Qed.

(** C8, as the code has it: [WriteFile] calls [unlink] on the destination
    and only then [open], whatever the [unlink] returned.  When the [unlink]
    succeeded and the [open] that follows returns -1, [WriteFile] returns
    false and the file that was there is gone: the tree is the old one
    without the destination. *)
Theorem WriteFile_unlinks_before_open :
  forall data filename w,
    (exists rest,
        w_trace (snd (WriteFile data filename w)) =
          w_trace w ++ SysUnlink filename :: SysOpen filename :: rest) /\
    (fst (UnlinkPath filename w) = true ->
     fst (open_creat_trunc filename 0x1ED (snd (UnlinkPath filename w))) = -1 ->
     is_Some (w_fs w !! filename) /\
     fst (WriteFile data filename w) = false /\
     w_fs (snd (WriteFile data filename w)) = delete filename (w_fs w) /\
     w_fs (snd (WriteFile data filename w)) !! filename = None /\
     w_trace (snd (WriteFile data filename w)) =
       w_trace w ++ [SysUnlink filename; SysOpen filename]).
Proof.
  intros data filename w. split; [apply WriteFile_trace|].
  unfold WriteFile, UnlinkPath.
  pose proof (unlink_succeeded filename w) as Hu.
  destruct (unlink filename w) as [u wu]. simpl in *.
  intros Hzero Hopen. apply Z.eqb_eq in Hzero.
  destruct (Hu Hzero) as [Hthere ->].
  pose proof (open_failed _ _ _ Hopen) as [Hfs Htr].
  destruct (open_creat_trunc filename 493 _) as [fd w1]. simpl in *.
  subst fd. simpl. rewrite Hfs, Htr, <- app_assoc.
  repeat split; [exact Hthere|]. apply lookup_delete_eq.
Qed.

(** In [Examples.exhausted] the old /home/me/out is lost although nothing
    new could be opened. *)
Lemma WriteFile_unlinks_before_open_witness :
  is_Some (w_fs Examples.exhausted !! "/home/me/out") /\
  fst (WriteFile [Byte.x6e; Byte.x65; Byte.x77] "/home/me/out" Examples.exhausted)
    = false /\
  w_fs (snd (WriteFile [Byte.x6e; Byte.x65; Byte.x77] "/home/me/out"
               Examples.exhausted)) !! "/home/me/out" = None.
Proof.
  destruct (WriteFile_unlinks_before_open [Byte.x6e; Byte.x65; Byte.x77]
              "/home/me/out" Examples.exhausted) as [_ H].
  destruct H as (H0 & H1 & _ & H3 & _).
  - vm_compute. reflexivity.
  - vm_compute. reflexivity.
  - split; [exact H0|]. split; assumption.
Defined.

(** C8 as the claim states it fails: in [Examples.calm] user 1000 may
    neither write to /etc nor to /etc/motd; the [unlink] and the [open] both
    fail with [EACCES], [WriteFile] returns false, and /etc/motd is there as
    before, with its content. *)
Lemma WriteFile_keeps_what_it_cannot_unlink :
  w_fs Examples.calm !! "/etc/motd"
    = Some (Examples.regular 0 0x1A4 [Byte.x68; Byte.x69]) /\
  fst (UnlinkPath "/etc/motd" Examples.calm) = false /\
  fst (WriteFile [Byte.x6e; Byte.x65; Byte.x77] "/etc/motd" Examples.calm)
    = false /\
  w_errno (snd (WriteFile [Byte.x6e; Byte.x65; Byte.x77] "/etc/motd"
                  Examples.calm)) = EACCES /\
  w_fs (snd (WriteFile [Byte.x6e; Byte.x65; Byte.x77] "/etc/motd"
               Examples.calm)) !! "/etc/motd"
    = Some (Examples.regular 0 0x1A4 [Byte.x68; Byte.x69]) /\
  w_trace (snd (WriteFile [Byte.x6e; Byte.x65; Byte.x77] "/etc/motd"
                  Examples.calm))
    = [SysUnlink "/etc/motd"; SysOpen "/etc/motd"].
Proof.
  split; [|split; [|split; [|split; [|split]]]]; vm_compute; reflexivity.
Qed.

(** C3: what [WriteFile] reports when [close] fails.  Whatever the write
    phase left in [errno], a failing [close] makes [WriteFile] return false
    with the [errno] of [close]. *)
Theorem WriteFile_close_failure_errno :
  forall data filename w fd w1 e,
    open_creat_trunc filename 0x1ED (snd (UnlinkPath filename w)) = (fd, w1) ->
    fd <> -1 ->
    close_fault (w_faults w1) = Some e ->
    fst (WriteFile data filename w) = false /\
    w_errno (snd (WriteFile data filename w)) = e.
Proof.
  intros data filename w fd w1 e Hopen Hfd He.
  pose proof (open_succeeded _ _ _ _ _ Hopen Hfd) as [Hin Hf].
  unfold WriteFile.
  destruct (UnlinkPath filename w) as [u wu]. simpl in Hopen. rewrite Hopen.
  apply Z.eqb_neq in Hfd. rewrite Hfd.
  unfold WriteTo.
  pose proof (write_keeps fd data w1) as [Hk1 Hk2].
  destruct (write fd data w1) as [n w2]. simpl in Hk1, Hk2.
  destruct (close_faulty fd w2 e) as [Hc1 Hc2]; [now rewrite Hk1 | congruence |].
  destruct (close fd w2) as [c w3]. simpl in Hc1, Hc2. subst c. simpl. auto.
Qed.

(** In [Examples.nfs] the write fails with [ENOSPC], the close with [EIO],
    and the caller sees [EIO]. *)
Lemma WriteFile_close_failure_errno_witness :
  (let opened :=
     open_creat_trunc "/home/me/new" 0x1ED
       (snd (UnlinkPath "/home/me/new" Examples.nfs)) in
   let written := WriteTo (write (fst opened)) [Byte.x41] (snd opened) in
   fst written = false /\ w_errno (snd written) = ENOSPC) /\
  fst (WriteFile [Byte.x41] "/home/me/new" Examples.nfs) = false /\
  w_errno (snd (WriteFile [Byte.x41] "/home/me/new" Examples.nfs)) = EIO.
Proof.
  split; [vm_compute; auto|].
  apply (WriteFile_close_failure_errno [Byte.x41] "/home/me/new" Examples.nfs 3
           (snd (open_creat_trunc "/home/me/new" 0x1ED
                   (snd (UnlinkPath "/home/me/new" Examples.nfs))))).
  - vm_compute. reflexivity.
  - discriminate.
  - vm_compute. reflexivity.
Defined.

End WriteFileFacts.

(** ** The mtime marker *)

Section MtimeFacts.
Import Posix FilePosix.

(** Where a path resolves to is a file of the tree that is not a link. *)
Lemma resolve_target fuel : forall fs path p ino,
  resolve fuel fs path = inr (p, ino) ->
  fs !! p = Some ino /\ (forall t, i_kind ino <> KLink t).
Proof.
  induction fuel as [|fuel IH]; intros fs path p ino; simpl;
    destruct (fs !! path) as [x|] eqn:E; try discriminate;
    destruct (i_kind x) eqn:K; try discriminate;
    try (intros [= <- <-]; split; [exact E | intros t; rewrite K; discriminate]).
  apply IH.
Qed.

(** Rewriting the file a path resolves to, without changing its kind, does
    not change where the path resolves to. *)
Lemma resolve_update fuel : forall fs path p ino ino',
  resolve fuel fs path = inr (p, ino) ->
  i_kind ino' = i_kind ino ->
  resolve fuel (<[p := ino']> fs) path = inr (p, ino').
Proof.
  induction fuel as [|fuel IH]; intros fs path p ino ino' H K.
  - pose proof (resolve_target _ _ _ _ _ H) as [Hp Hk]. simpl in *.
    destruct (decide (p = path)) as [->|Hne].
    + rewrite lookup_insert_eq, K. rewrite Hp in H.
      destruct (i_kind ino); congruence.
    + rewrite lookup_insert_ne by exact Hne.
      destruct (fs !! path) as [x|]; [|discriminate].
      destruct (i_kind x); congruence.
  - pose proof (resolve_target _ _ _ _ _ H) as [Hp Hk]. simpl in *.
    destruct (decide (p = path)) as [->|Hne].
    + rewrite lookup_insert_eq, K. rewrite Hp in H.
      destruct (i_kind ino) eqn:Ki; congruence.
    + rewrite lookup_insert_ne by exact Hne.
      destruct (fs !! path) as [x|]; [|discriminate].
      destruct (i_kind x); try congruence.
      eapply IH; eauto.
Qed.

(** After a successful [utime], [stat] succeeds and reports the new mtime. *)
Lemma stat_after_Set path times w w' :
  Set_ path times w = (true, w') ->
  exists buf, os_stat w' path = inr buf /\ st_mtime buf = modtime times.
Proof.
  unfold Set_, utime, os_stat.
  generalize max_links as fuel. intros fuel. simpl.
  destruct (resolve fuel (w_fs w) path) as [e|[p ino]] eqn:R;
    [intros [=]|].
  destruct ((i_uid ino =? w_euid w) || (w_euid w =? 0)); [|intros [=]].
  intros [= <-]. simpl.
  erewrite resolve_update; [|exact R|reflexivity].
  simpl. eauto.
Qed.

Lemma time_t_add_fits a b : fits_time_t (a + b) -> time_t_add a b = a + b.
Proof.
  unfold fits_time_t, TIME_T_MIN, TIME_T_MAX, time_t_add. intros H.
  rewrite Z.mod_small; lia.
Qed.

(** What the constructor puts into the marker, when ten years can be added
    to its first and third reading of the clock. *)
Lemma new_PosixFileMtime_fields w this w1 :
  new_PosixFileMtime w = Ret this w1 ->
  fits_time_t (w_clock w (w_ticks w) + 9 * 31536000) ->
  fits_time_t (w_clock w (S (S (w_ticks w))) + 10 * 31536000) ->
  near_future_ this = w_clock w (w_ticks w) + 9 * 31536000 /\
  modtime (distant_future_ this) = w_clock w (S (S (w_ticks w))) + 10 * 31536000.
Proof.
  unfold new_PosixFileMtime, GetFuture, GetNow, bind, time. simpl.
  destruct (w_clock w (w_ticks w) =? -1); simpl; [discriminate|].
  destruct (w_clock w (S (w_ticks w)) =? -1); simpl; [discriminate|].
  destruct (w_clock w (S (S (w_ticks w))) =? -1); simpl; [discriminate|].
  intros [= <- _] H9 H10. cbn [near_future_ distant_future_ modtime].
  change (Z.pos 283824000 mod 2 ^ 32) with (9 * 31536000).
  change (Z.pos 315360000 mod 2 ^ 32) with (10 * 31536000).
  now rewrite !time_t_add_fits.
Qed.

Lemma GetIfInDistantFuture_stat this path w buf :
  os_stat w path = inr buf ->
  fst (GetIfInDistantFuture this path w) = Some (near_future_ this <? st_mtime buf).
Proof.
  intros H. unfold GetIfInDistantFuture, stat. rewrite os_stat_log, H. reflexivity.
Qed.

(** What [SetToNow] hands to [utime]. *)
Lemma SetToNow_Set this path w w' :
  SetToNow this path w = Ret true w' ->
  Set_ path (UtimBuf (w_clock w (w_ticks w)) (w_clock w (w_ticks w)))
       (tick (log SysTime w)) = (true, w').
Proof.
  unfold SetToNow, GetNow, bind, time.
  destruct (w_clock w (w_ticks w) =? -1); [discriminate|].
  destruct (Set_ path _ _) as [r w2]. now intros [= -> ->].
Qed.

(** C4, as the code has it.  The marker is built from three readings of the
    clock, to each of which ten years can be added within [time_t]
    ([ten_years_fit]).  A path
    set by [SetToDistantFuture] answers true to [GetIfInDistantFuture]
    exactly when the third reading is later than the first less a year of
    365 days, that is unless the clock was set back by a year or more while
    the marker was built.  A path set by [SetToNow] answers false exactly
    when the clock reading it is given is not later than [near_future_],
    nine years after the first reading.  For two paths that meet these
    conditions the mtimes are on the two sides of [near_future_]. *)
Theorem mtime_bands :
  forall w0 this w1,
    let first := w_clock w0 (w_ticks w0) in
    let second := w_clock w0 (S (w_ticks w0)) in
    let third := w_clock w0 (S (S (w_ticks w0))) in
    new_PosixFileMtime w0 = Ret this w1 ->
    ten_years_fit first -> ten_years_fit second -> ten_years_fit third ->
    near_future_ this = first + 9 * 31536000 /\
    (forall path w w',
        SetToDistantFuture this path w = (true, w') ->
        fst (GetIfInDistantFuture this path w')
        = Some (first - 31536000 <? third)) /\
    (forall path w w',
        SetToNow this path w = Ret true w' ->
        fst (GetIfInDistantFuture this path w')
        = Some (near_future_ this <? w_clock w (w_ticks w))) /\
    (forall p w w' q v v',
        first - 31536000 < third ->
        w_clock w (w_ticks w) <= near_future_ this ->
        SetToNow this p w = Ret true w' ->
        SetToDistantFuture this q v = (true, v') ->
        exists now_buf future_buf,
          os_stat w' p = inr now_buf /\
          os_stat v' q = inr future_buf /\
          st_mtime now_buf <= near_future_ this < st_mtime future_buf).
Proof.
  intros w0 this w1 first second third Hnew Hfirst _ Hthird.
  apply new_PosixFileMtime_fields in Hnew as [Hnear Hfar];
    [|unfold ten_years_fit, fits_time_t, TIME_T_MIN, TIME_T_MAX in *;
      fold first; lia
     |unfold ten_years_fit, fits_time_t, TIME_T_MIN, TIME_T_MAX in *;
      fold third; lia].
  fold first in Hnear. fold third in Hfar.
  assert (Hfuture : forall path w w',
             SetToDistantFuture this path w = (true, w') ->
             exists buf, os_stat w' path = inr buf /\
                         st_mtime buf = third + 10 * 31536000).
  { intros path w w' H. apply stat_after_Set in H as (buf & Hs & Hm).
    exists buf. split; [exact Hs | now rewrite Hm]. }
  assert (Hnow : forall path w w',
             SetToNow this path w = Ret true w' ->
             exists buf, os_stat w' path = inr buf /\
                         st_mtime buf = w_clock w (w_ticks w)).
  { intros path w w' H. apply SetToNow_Set, stat_after_Set in H as (buf & Hs & Hm).
    exists buf. split; [exact Hs | now rewrite Hm]. }
  split; [exact Hnear|]. split; [|split].
  - intros path w w' H. destruct (Hfuture _ _ _ H) as (buf & Hs & Hm).
    rewrite (GetIfInDistantFuture_stat _ _ _ _ Hs), Hm, Hnear. f_equal.
    destruct (Z.ltb_spec (first - 31536000) third);
      [apply Z.ltb_lt | apply Z.ltb_ge]; lia.
  - intros path w w' H. destruct (Hnow _ _ _ H) as (buf & Hs & Hm).
    now rewrite (GetIfInDistantFuture_stat _ _ _ _ Hs), Hm.
  - intros p w w' q v v' Hstep Hle H1 H2.
    destruct (Hnow _ _ _ H1) as (b1 & Hs1 & Hm1).
    destruct (Hfuture _ _ _ H2) as (b2 & Hs2 & Hm2).
    exists b1, b2. split; [exact Hs1|]. split; [exact Hs2|]. lia.
Qed.

(** In [Examples.calm], where the clock stands at [t0], the marker is built,
    /home/me/out is set to the distant future and then /home/me to now: the
    first answers true, the second false, and their mtimes are on the two
    sides of the threshold. *)
Lemma mtime_bands_witness :
  let this := MkPosixFileMtime 1983824000 (UtimBuf 2015360000 2015360000) in
  let built := world_of (new_PosixFileMtime Examples.calm) in
  let marked := snd (SetToDistantFuture this "/home/me/out" built) in
  let touched := world_of (SetToNow this "/home/me" marked) in
  near_future_ this = Examples.t0 + 9 * 31536000 /\
  fst (GetIfInDistantFuture this "/home/me/out" marked) = Some true /\
  fst (GetIfInDistantFuture this "/home/me" touched) = Some false /\
  exists now_buf future_buf,
    os_stat touched "/home/me" = inr now_buf /\
    os_stat marked "/home/me/out" = inr future_buf /\
    st_mtime now_buf <= near_future_ this < st_mtime future_buf.
Proof.
  intros this built marked touched.
  assert (Hnew : new_PosixFileMtime Examples.calm = Ret this built)
    by (vm_compute; reflexivity).
  assert (Hfits : ten_years_fit Examples.t0)
    by (vm_compute; split; discriminate).
  destruct (mtime_bands Examples.calm this built Hnew Hfits Hfits Hfits)
    as (Hnear & Hfar & Hnow & Hbands).
  split; [exact Hnear|]. split; [|split].
  - apply (Hfar "/home/me/out" built). vm_compute. reflexivity.
  - apply (Hnow "/home/me" marked). vm_compute. reflexivity.
  - apply (Hbands "/home/me" marked touched "/home/me/out" built marked).
    + vm_compute. reflexivity.
    + vm_compute. discriminate.
    + vm_compute. reflexivity.
    + vm_compute. reflexivity.
Defined.

(** C4 as the claim states it fails: in [Examples.long_run] the marker is
    built at [t0], and [SetToNow] is called when the clock reads nine years
    and one second more; the path it marks answers true to
    [GetIfInDistantFuture]. *)
Lemma SetToNow_nine_years_later :
  let this := MkPosixFileMtime 1983824000 (UtimBuf 2015360000 2015360000) in
  (forall i j, (i <= j)%nat ->
     w_clock Examples.long_run i <= w_clock Examples.long_run j) /\
  exists w1 w2 buf,
    new_PosixFileMtime Examples.long_run = Ret this w1 /\
    SetToNow this "/home/me/out" w1 = Ret true w2 /\
    os_stat w2 "/home/me/out" = inr buf /\
    st_mtime buf = 1983824001 /\
    fst (GetIfInDistantFuture this "/home/me/out" w2) = Some true.
Proof.
  split.
  - intros i j Hij. cbv [Examples.long_run w_clock Examples.t0].
    destruct (Nat.ltb_spec i 3), (Nat.ltb_spec j 3); lia.
  - exists (world_of (new_PosixFileMtime Examples.long_run)).
    exists (world_of (SetToNow (MkPosixFileMtime 1983824000
                                  (UtimBuf 2015360000 2015360000))
                        "/home/me/out"
                        (world_of (new_PosixFileMtime Examples.long_run)))).
    exists (StatBuf 0x81A4 1000 1983824001 1983824001).
    split; [|split; [|split; [|split]]]; vm_compute; reflexivity.
Qed.

(** The other condition at work: in [Examples.set_back] the clock is set
    back by a year and a day after the first reading of the construction, and
    a path set by [SetToDistantFuture] answers false. *)
Lemma SetToDistantFuture_after_clock_set_back :
  exists this w1 w2,
    new_PosixFileMtime Examples.set_back = Ret this w1 /\
    SetToDistantFuture this "/home/me/out" w1 = (true, w2) /\
    fst (GetIfInDistantFuture this "/home/me/out" w2) = Some false.
Proof.
  exists (MkPosixFileMtime 1983824000 (UtimBuf 1983737600 1983737600)).
  exists (world_of (new_PosixFileMtime Examples.set_back)).
  exists (snd (SetToDistantFuture
                 (MkPosixFileMtime 1983824000 (UtimBuf 1983737600 1983737600))
                 "/home/me/out"
                 (world_of (new_PosixFileMtime Examples.set_back)))).
  split; [|split]; vm_compute; reflexivity.
Qed.

End MtimeFacts.

(** ** Argument expansion *)

Section ExpansionFacts.
Import LinuxSandboxOptions.

Variable files : gmap string arg_file.

(** The loop over the lines, given what the recursive call does. *)
Lemma expand_lines_spec expand (spec : string -> result (list string)) :
  (forall expanded arg,
      expand expanded arg = (let* e := spec arg in Ok (expanded ++ e))) ->
  forall lines expanded,
    expand_lines expand lines expanded =
      (let* e := concat_results
                   (map spec
                        (map c_str
                             (List.filter
                                (fun line => (0 <? String.length line)%nat)
                                lines))) in
       Ok (expanded ++ e)).
Proof.
  intros H. induction lines as [|line lines IH]; intros expanded; simpl.
  - now rewrite app_nil_r.
  - destruct (0 <? String.length line)%nat; simpl; [|apply IH].
    rewrite H. destruct (spec (c_str line)) as [a| | | | |]; simpl; try reflexivity.
    rewrite IH. destruct (concat_results _); simpl; try reflexivity.
    now rewrite app_assoc.
Qed.

(** [ExpandArgument] appends the expansion of its token. *)
Lemma ExpandArgument_spec fuel : forall expanded arg,
  ExpandArgument fuel files expanded arg =
    (let* e := token_expansion fuel files arg in Ok (expanded ++ e)).
Proof.
  induction fuel as [|fuel IH]; intros expanded arg; simpl;
    destruct (Ascii.eqb (Str.first_char arg) "@"); try reflexivity;
    destruct (files !! Str.substr_from arg 1) as [f|]; try reflexivity.
  rewrite (expand_lines_spec _ _ IH). unfold argument_lines.
  destruct (concat_results _); simpl; try reflexivity.
  destruct (f_bad f); reflexivity.
Qed.

Lemma ExpandArguments_loop_spec fuel : forall argv expanded,
  ExpandArguments_loop fuel files argv expanded =
    (let* e := ExpandArguments_spec fuel files argv in Ok (expanded ++ e)).
Proof.
  unfold ExpandArguments_spec.
  induction argv as [|arg rest IH]; intros expanded; simpl.
  - now rewrite app_nil_r.
  - destruct (String.eqb arg "--"); simpl; [reflexivity|].
    rewrite ExpandArgument_spec.
    revert IH. destruct (split_at_dashes rest) as [pre post]. intros IH. simpl.
    destruct (token_expansion fuel files arg); simpl; try reflexivity.
    rewrite IH.
    destruct (concat_results _); simpl; try reflexivity.
    now rewrite <- !app_assoc.
Qed.

Lemma split_at_dashes_app pre post :
  ~ In "--" pre -> split_at_dashes (pre ++ "--" :: post) = (pre, "--" :: post).
Proof.
  induction pre as [|tok pre IH]; intros Hnot; [reflexivity|].
  simpl. destruct (String.eqb_spec tok "--") as [->|_].
  - exfalso. apply Hnot. now left.
  - rewrite IH; [reflexivity|]. intros Hin. apply Hnot. now right.
Qed.

(** Expansions that agree wherever the first did not run out of fuel. *)
Lemma concat_results_more (f g : string -> result (list string)) :
  (forall tok r, f tok = r -> r <> OutOfFuel -> g tok = r) ->
  forall toks q,
    concat_results (map f toks) = q -> q <> OutOfFuel ->
    concat_results (map g toks) = q.
Proof.
  intros Hfg. induction toks as [|tok toks IH]; intros q Hq Hne; [exact Hq|].
  cbn [map concat_results] in *.
  destruct (f tok) as [a| | | | |] eqn:Et; simpl in Hq;
    try (rewrite (Hfg _ _ Et); [exact Hq | discriminate]); [|congruence].
  rewrite (Hfg _ _ Et) by discriminate. simpl.
  destruct (concat_results (map f toks)) eqn:Ep; simpl in Hq;
    try (rewrite (IH _ eq_refl); [exact Hq | discriminate]).
  congruence.
Qed.

(** More fuel does not change a result that did not run out of it. *)
Lemma token_expansion_more fuel : forall tok r,
  token_expansion fuel files tok = r -> r <> OutOfFuel ->
  token_expansion (S fuel) files tok = r.
Proof.
  induction fuel as [|fuel IH]; intros tok r.
  - simpl. destruct (Ascii.eqb _ _); [|now intros <-].
    destruct (files !! _); intros <-; [congruence | reflexivity].
  - intros H Hr. remember (S fuel) as n eqn:En. simpl. rewrite En in H. simpl in H.
    destruct (Ascii.eqb _ _); [|exact H].
    destruct (files !! _) as [f|]; [|exact H].
    pose proof (concat_results_more _ _ IH (argument_lines f)) as Hlines.
    destruct (concat_results (map (token_expansion fuel files) (argument_lines f)))
      eqn:E; simpl in H;
      try (rewrite (Hlines _ eq_refl); [exact H | discriminate]).
    congruence.
Qed.

(** C7: the expansion is the one the specification describes: the tokens
    before the first literal [--] are replaced by their expansions, an
    [@]-token by the expanded non-empty lines of its file, and the first
    [--] with every token after it is copied through as it is. *)
Theorem ExpandArguments_stops_at_dashes :
  forall fuel argv,
    ExpandArguments fuel files argv = ExpandArguments_spec fuel files argv /\
    (forall pre post,
        argv = pre ++ "--" :: post ->
        ~ In "--" pre ->
        ExpandArguments fuel files argv =
          (let* e := concat_results (map (token_expansion fuel files) pre) in
           Ok (e ++ "--" :: post))).
Proof.
  intros fuel argv.
  assert (H : ExpandArguments fuel files argv = ExpandArguments_spec fuel files argv).
  { unfold ExpandArguments. rewrite ExpandArguments_loop_spec.
    destruct (ExpandArguments_spec fuel files argv); reflexivity. }
  split; [exact H|].
  intros pre post -> Hpre. rewrite H. unfold ExpandArguments_spec.
  now rewrite split_at_dashes_app.
Qed.

(** A result that did not run out of fuel is the result for any more fuel. *)
Lemma ExpandArguments_more fuel argv r :
  ExpandArguments fuel files argv = r -> r <> OutOfFuel ->
  ExpandArguments (S fuel) files argv = r.
Proof.
  destruct (ExpandArguments_stops_at_dashes fuel argv) as [-> _].
  destruct (ExpandArguments_stops_at_dashes (S fuel) argv) as [-> _].
  unfold ExpandArguments_spec. destruct (split_at_dashes argv) as [pre post].
  pose proof (concat_results_more _ _ (token_expansion_more fuel) pre) as Hpre.
  intros H Hr.
  destruct (concat_results (map (token_expansion fuel files) pre)) eqn:E;
    simpl in H; try (rewrite (Hpre _ eq_refl); [exact H | discriminate]).
  congruence.
Qed.

End ExpansionFacts.

(** With [Examples.argument_files], [@opts] before the [--] is expanded, through
    [@more], and [@opts] after it is not. *)
Lemma ExpandArguments_stops_at_dashes_witness :
  LinuxSandboxOptions.ExpandArguments 2 Examples.argument_files
    ["linux-sandbox"; "@opts"; "-M"; "/a"; "--"; "/bin/cat"; "@opts"] =
  LinuxSandboxOptions.Ok
    ["linux-sandbox"; "-N"; "-R"; "-D"; "-M"; "/a"; "--"; "/bin/cat"; "@opts"].
Proof.
  destruct (ExpandArguments_stops_at_dashes Examples.argument_files 2
              ["linux-sandbox"; "@opts"; "-M"; "/a"; "--"; "/bin/cat"; "@opts"])
    as [_ H].
  rewrite (H ["linux-sandbox"; "@opts"; "-M"; "/a"] ["/bin/cat"; "@opts"] eq_refl).
  - vm_compute. reflexivity.
  - simpl. intros [H1|[H1|[H1|[H1|[]]]]]; discriminate H1.
Defined.

(** ** The option parser *)

Section ParserFacts.
Import LinuxSandboxOptions.

(** [getopt] over a flag that takes the next token as its argument. *)
Lemma getopt_scan_M source rest skipped :
  getopt_scan ("-M" :: source :: rest) skipped =
    (Opt "M" source :: fst (getopt_scan rest skipped),
     snd (getopt_scan rest skipped)).
Proof. cbn. destruct (getopt_scan rest skipped); reflexivity. Qed.

Lemma getopt_scan_m target rest skipped :
  getopt_scan ("-m" :: target :: rest) skipped =
    (Opt "m" target :: fst (getopt_scan rest skipped),
     snd (getopt_scan rest skipped)).
Proof. cbn. destruct (getopt_scan rest skipped); reflexivity. Qed.

Lemma getopt_scan_mounts mounts : forall rest skipped,
  getopt_scan (concat (map mount_tokens mounts) ++ rest) skipped =
    (concat (map mount_events mounts) ++ fst (getopt_scan rest skipped),
     snd (getopt_scan rest skipped)).
Proof.
  induction mounts as [|[source [target|]] mounts IH]; intros rest skipped.
  - cbn. now destruct (getopt_scan rest skipped).
  - cbn [map concat mount_tokens mount_events app].
    rewrite getopt_scan_M, getopt_scan_m, IH. reflexivity.
  - cbn [map concat mount_tokens mount_events app].
    rewrite getopt_scan_M, IH. reflexivity.
Qed.

(** [-M source] opens a pair whose target is the source. *)
Lemma parse_option_M opt source_specified source :
  is_absolute source = true ->
  parse_option (Opt "M" source) (opt, source_specified) =
    Ok (set_bind_mount_targets (bind_mount_targets opt ++ [source])
          (set_bind_mount_sources (bind_mount_sources opt ++ [source]) opt),
        Some true).
Proof.
  unfold is_absolute. intros H. cbn. unfold ValidateIsAbsolutePath.
  rewrite H. reflexivity.
Qed.

(** [-m target] right after it replaces the last target and nothing else. *)
Lemma parse_option_m opt earlier last target :
  bind_mount_targets opt = earlier ++ [last] ->
  is_absolute target = true ->
  parse_option (Opt "m" target) (opt, Some true) =
    Ok (set_bind_mount_targets (earlier ++ [target]) opt, Some false).
Proof.
  unfold is_absolute. intros Ht H. cbn. unfold ValidateIsAbsolutePath.
  rewrite H, Ht. cbn. unfold pop_back.
  destruct (earlier ++ [last]) eqn:E.
  - now destruct earlier.
  - rewrite <- E, removelast_last. reflexivity.
Qed.

(** [-m] without an open pair. *)
Lemma parse_option_m_closed opt target :
  is_absolute target = true ->
  parse_option (Opt "m" target) (opt, Some false) =
    UsageError "The -m option must be strictly preceded by an -M option." [].
Proof.
  unfold is_absolute. intros H. cbn. unfold ValidateIsAbsolutePath.
  rewrite H. reflexivity.
Qed.

(** [-m] as the first option the loop sees. *)
Lemma parse_option_m_first opt target :
  is_absolute target = true ->
  parse_option (Opt "m" target) (opt, None) =
    Undefined "source_specified is read before it is assigned".
Proof.
  unfold is_absolute. intros H. cbn. unfold ValidateIsAbsolutePath.
  rewrite H. reflexivity.
Qed.

(** The loop over the options of a list of mounts, from any state. *)
Lemma parse_loop_mounts mounts : forall opt source_specified,
  forallb mount_absolute mounts = true ->
  exists opt' source_specified',
    parse_loop (concat (map mount_events mounts)) (opt, source_specified) =
      Ok (opt', source_specified') /\
    bind_mount_sources opt' =
      bind_mount_sources opt ++ map fst (map mount_pair mounts) /\
    bind_mount_targets opt' =
      bind_mount_targets opt ++ map snd (map mount_pair mounts) /\
    args opt' = args opt.
Proof.
  induction mounts as [|[source [target|]] mounts IH];
    intros opt source_specified Habs.
  - exists opt, source_specified. cbn. rewrite !app_nil_r. auto.
  - cbn [forallb mount_absolute fst snd] in Habs.
    apply andb_prop in Habs as [Hm Habs]. apply andb_prop in Hm as [Hs Ht].
    cbn [map concat mount_events app parse_loop].
    rewrite (parse_option_M _ _ _ Hs). cbn [bind].
    erewrite parse_option_m; [|reflexivity|exact Ht]. cbn [bind].
    edestruct IH as (opt' & ss' & -> & Hsrc & Htgt & Hargs); [exact Habs|].
    exists opt', ss'. split; [reflexivity|].
    rewrite Hsrc, Htgt, Hargs. cbn. rewrite <- !app_assoc. auto.
  - cbn [forallb mount_absolute fst snd] in Habs.
    apply andb_prop in Habs as [Hm Habs]. apply andb_prop in Hm as [Hs _].
    cbn [map concat mount_events app parse_loop].
    rewrite (parse_option_M _ _ _ Hs). cbn [bind].
    edestruct IH as (opt' & ss' & -> & Hsrc & Htgt & Hargs); [exact Habs|].
    exists opt', ss'. split; [reflexivity|].
    rewrite Hsrc, Htgt, Hargs. cbn. rewrite <- !app_assoc. auto.
Qed.

Lemma combine_pairs (pairs : list (string * string)) :
  combine (map fst pairs) (map snd pairs) = pairs.
Proof.
  induction pairs as [|[a b] pairs IH]; [reflexivity|].
  simpl. now rewrite IH.
Qed.

(** C2: [-M source] adds the pair (source, source) at the end; [-m target]
    right after it replaces the target of that last pair and nothing else;
    so a command line of mounts, each [-M source] with or without
    [-m target], with or without a command after [--], parses to the mounts
    it names, in order, and [-M /a -m /b -M /c] to [(/a,/b), (/c,/c)]. *)
Theorem bind_mount_pairing :
  (forall opt source_specified source,
      is_absolute source = true ->
      exists opt',
        parse_option (Opt "M" source) (opt, source_specified)
          = Ok (opt', Some true) /\
        bind_mount_sources opt' = bind_mount_sources opt ++ [source] /\
        bind_mount_targets opt' = bind_mount_targets opt ++ [source]) /\
  (forall opt earlier last target,
      bind_mount_targets opt = earlier ++ [last] ->
      is_absolute target = true ->
      exists opt',
        parse_option (Opt "m" target) (opt, Some true)
          = Ok (opt', Some false) /\
        bind_mount_sources opt' = bind_mount_sources opt /\
        bind_mount_targets opt' = earlier ++ [target]) /\
  (forall prog mounts,
      forallb mount_absolute mounts = true ->
      exists opt,
        ParseCommandLine opt_zero (prog :: concat (map mount_tokens mounts))
          = Ok opt /\
        bind_mounts opt = map mount_pair mounts) /\
  (forall prog mounts command,
      forallb mount_absolute mounts = true ->
      exists opt,
        ParseCommandLine opt_zero
          (prog :: concat (map mount_tokens mounts) ++ "--" :: command)
          = Ok opt /\
        bind_mounts opt = map mount_pair mounts /\
        args opt = command) /\
  (exists opt,
      ParseCommandLine opt_zero
        ["linux-sandbox"; "-M"; "/a"; "-m"; "/b"; "-M"; "/c"] = Ok opt /\
      bind_mounts opt = [("/a", "/b"); ("/c", "/c")]).
Proof.
  split; [|split; [|split; [|split]]].
  - intros opt ss source H. rewrite (parse_option_M _ _ _ H).
    eexists. split; [reflexivity|]. split; reflexivity.
  - intros opt earlier last target Ht H. rewrite (parse_option_m _ _ _ _ Ht H).
    eexists. split; [reflexivity|]. split; reflexivity.
  - intros prog mounts Habs. unfold ParseCommandLine. cbn [tail].
    rewrite <- (app_nil_r (concat (map mount_tokens mounts))).
    rewrite getopt_scan_mounts. cbn [getopt_scan rev]. rewrite app_nil_r.
    destruct (parse_loop_mounts mounts opt_zero None Habs)
      as (opt' & ss' & -> & Hsrc & Htgt & _).
    cbn. exists opt'. split; [reflexivity|].
    unfold bind_mounts. rewrite Hsrc, Htgt. apply combine_pairs.
  - intros prog mounts command Habs. unfold ParseCommandLine. cbn [tail].
    rewrite getopt_scan_mounts. cbn [getopt_scan rev String.eqb]. rewrite app_nil_r.
    destruct (parse_loop_mounts mounts opt_zero None Habs)
      as (opt' & ss' & -> & Hsrc & Htgt & Hargs).
    cbn [bind fst app]. cbn in Hsrc, Htgt, Hargs.
    destruct command as [|c command].
    + exists opt'. split; [reflexivity|]. split; [|exact Hargs].
      unfold bind_mounts. rewrite Hsrc, Htgt. apply combine_pairs.
    + rewrite Hargs. eexists. split; [reflexivity|]. split; [|reflexivity].
      unfold bind_mounts. cbn. rewrite Hsrc, Htgt. apply combine_pairs.
  - eexists. split; reflexivity.
Qed.

(** The mounts of the specification's example, with a command. *)
Lemma bind_mount_pairing_witness :
  exists opt,
    ParseCommandLine opt_zero
      ["linux-sandbox"; "-M"; "/a"; "-m"; "/b"; "-M"; "/c"; "--"; "/bin/true"]
      = Ok opt /\
    bind_mounts opt = [("/a", "/b"); ("/c", "/c")] /\
    args opt = ["/bin/true"].
Proof.
  destruct bind_mount_pairing as (_ & _ & _ & H & _).
  apply (H "linux-sandbox" [("/a", Some "/b"); ("/c", None)] ["/bin/true"]).
  reflexivity.
Defined.

(** C5, at the input where the code fails it: when [-m] is the first option
    [getopt] returns, the loop reads [source_specified] before anything was
    assigned to it, so the run has no defined outcome; it is not the
    [UsageError] that the same [-m] gets after any option other than [-M]. *)
Theorem target_flag_first_is_undefined :
  forall opt prog target rest,
    is_absolute target = true ->
    ParseCommandLine opt (prog :: "-m" :: target :: rest) =
      Undefined "source_specified is read before it is assigned" /\
    ParseCommandLine opt (prog :: "-N" :: "-m" :: target :: rest) =
      UsageError "The -m option must be strictly preceded by an -M option." [].
Proof.
  intros opt prog target rest H. unfold ParseCommandLine. cbn [tail]. split.
  - rewrite getopt_scan_m. cbn [parse_loop].
    rewrite (parse_option_m_first _ _ H). reflexivity.
  - change (getopt_scan ("-N" :: "-m" :: target :: rest) [])
      with (let '(evs, remaining) := getopt_scan ("-m" :: target :: rest) [] in
            (Opt "N" "" :: evs, remaining)).
    rewrite getopt_scan_m. cbn [parse_loop].
    change (parse_option (Opt "N" "") (opt, None))
      with (@Ok parser_state (set_create_netns true opt, Some false)).
    cbn [bind parse_loop]. rewrite (parse_option_m_closed _ _ H). reflexivity.
Qed.

Lemma target_flag_first_is_undefined_witness :
  ParseCommandLine opt_zero ["linux-sandbox"; "-m"; "/x"; "--"; "/bin/true"] =
    Undefined "source_specified is read before it is assigned" /\
  ParseCommandLine opt_zero
    ["linux-sandbox"; "-N"; "-m"; "/x"; "--"; "/bin/true"] =
    UsageError "The -m option must be strictly preceded by an -M option." [].
Proof.
  apply (target_flag_first_is_undefined opt_zero "linux-sandbox" "/x"
           ["--"; "/bin/true"]).
  reflexivity.
Defined.

End ParserFacts.

(** ** Numeric options *)

Section NumberFacts.
Import LinuxSandboxOptions.

Lemma digit_not_space c : isdigit c = true -> isspace c = false.
Proof.
  unfold isdigit, isspace. intros H.
  apply andb_prop in H as [H1 H2].
  apply Nat.leb_le in H1. apply Nat.leb_le in H2.
  apply orb_false_intro.
  - apply Nat.eqb_neq. lia.
  - apply andb_false_intro2. apply Nat.leb_gt. lia.
Qed.

Lemma digit_not_sign c :
  isdigit c = true -> Ascii.eqb c "-" = false /\ Ascii.eqb c "+" = false.
Proof.
  intros H. split.
  - destruct (Ascii.eqb_spec c "-") as [->|]; [discriminate H | reflexivity].
  - destruct (Ascii.eqb_spec c "+") as [->|]; [discriminate H | reflexivity].
Qed.

Lemma skip_spaces_app spaces x :
  all_chars isspace spaces = true ->
  isspace (Str.first_char x) = false ->
  skip_spaces (spaces +:+ x) = x.
Proof.
  intros Hs Hx. induction spaces as [|c spaces IH]; simpl in *.
  - destruct x as [|c x]; [reflexivity|]. simpl in *. now rewrite Hx.
  - apply andb_prop in Hs as [-> Hs]. now apply IH.
Qed.

Lemma skip_spaces_split s :
  exists spaces,
    s = spaces +:+ skip_spaces s /\
    all_chars isspace spaces = true /\
    isspace (Str.first_char (skip_spaces s)) = false.
Proof.
  induction s as [|c s (spaces & Hs & Ha & Hf)]; simpl.
  - exists "". auto.
  - destruct (isspace c) eqn:E.
    + exists (String c spaces). split; [|split].
      * change (String c s = String c (spaces +:+ skip_spaces s)). now f_equal.
      * simpl. now rewrite E.
      * exact Hf.
    + exists "". simpl. auto.
Qed.

Lemma read_digits_app digits rest : forall acc,
  all_chars isdigit digits = true ->
  isdigit (Str.first_char rest) = false ->
  read_digits (digits +:+ rest) acc = decimal_from acc digits.
Proof.
  induction digits as [|c digits IH]; intros acc Hd Hr; simpl in *.
  - destruct rest as [|c rest]; [reflexivity|]. simpl in *. now rewrite Hr.
  - apply andb_prop in Hd as [-> Hd]. now apply IH.
Qed.

Lemma digits_split s :
  exists digits rest,
    s = digits +:+ rest /\
    all_chars isdigit digits = true /\
    isdigit (Str.first_char rest) = false.
Proof.
  induction s as [|c s (digits & rest & Hs & Hd & Hr)].
  - exists "", "". auto.
  - destruct (isdigit c) eqn:E.
    + exists (String c digits), rest. split; [|split].
      * change (String c s = String c (digits +:+ rest)). now f_equal.
      * simpl. now rewrite E.
      * exact Hr.
    + exists "", (String c s). simpl. auto.
Qed.

(** What [scan_d] computes is the number at the front of the string. *)
Lemma scan_d_reads s v : scan_d s = Some v -> reads_number s v.
Proof.
  unfold scan_d, reads_number.
  destruct (skip_spaces_split s) as (spaces & Hs & Hsp & Hfirst).
  set (s1 := skip_spaces s) in *.
  destruct (digits_split
              (if Ascii.eqb (Str.first_char s1) "-" || Ascii.eqb (Str.first_char s1) "+"
               then Str.tail s1 else s1)) as (digits & rest & Hd & Hall & Hrest).
  rewrite Hd.
  destruct (isdigit (Str.first_char (digits +:+ rest))) eqn:Edig; [|discriminate].
  assert (Hne : digits <> "").
  { intros ->. change (isdigit (Str.first_char rest) = true) in Edig.
    congruence. }
  rewrite (read_digits_app _ _ _ Hall Hrest).
  destruct (Ascii.eqb_spec (Str.first_char s1) "-") as [Hminus|Hminus].
  - intros [= <-]. simpl in Hd.
    exists spaces, "-", digits, rest.
    repeat split; auto.
    rewrite Hs. f_equal. destruct s1 as [|c s1']; [discriminate Hminus|].
    simpl in *. now subst.
  - simpl orb in *. intros [= <-].
    destruct (Ascii.eqb_spec (Str.first_char s1) "+") as [Hplus|Hplus].
    + exists spaces, "+", digits, rest.
      repeat split; auto.
      rewrite Hs. f_equal. destruct s1 as [|c s1']; [discriminate Hplus|].
      simpl in *. now subst.
    + exists spaces, "", digits, rest.
      repeat split; auto.
      rewrite Hs. f_equal. exact Hd.
Qed.

Lemma first_char_digits digits rest :
  digits <> "" -> all_chars isdigit digits = true ->
  isdigit (Str.first_char (digits +:+ rest)) = true.
Proof.
  destruct digits as [|c digits]; [congruence|]. simpl.
  intros _ H. now apply andb_prop in H as [H _].
Qed.

Lemma reads_scan_d s v : reads_number s v -> scan_d s = Some v.
Proof.
  intros (spaces & sign & digits & rest & -> & Hsp & Hne & Hall & Hrest & Hv).
  pose proof (first_char_digits digits rest Hne Hall) as Hfirst.
  unfold scan_d. cbv zeta.
  destruct Hv as [[[-> | ->] ->] | [-> ->]].
  - change ("" +:+ digits +:+ rest) with (digits +:+ rest).
    rewrite skip_spaces_app; [|exact Hsp|now apply digit_not_space].
    destruct (digit_not_sign _ Hfirst) as [-> ->]. simpl orb. cbv iota.
    rewrite Hfirst. now rewrite read_digits_app.
  - rewrite skip_spaces_app; [|exact Hsp|reflexivity].
    change ("+" +:+ digits +:+ rest) with (String "+" (digits +:+ rest)).
    cbn [Str.first_char Str.tail].
    change (Ascii.eqb "+" "-") with false. change (Ascii.eqb "+" "+") with true.
    cbn [orb]. rewrite Hfirst. now rewrite read_digits_app.
  - rewrite skip_spaces_app; [|exact Hsp|reflexivity].
    change ("-" +:+ digits +:+ rest) with (String "-" (digits +:+ rest)).
    cbn [Str.first_char Str.tail].
    change (Ascii.eqb "-" "-") with true.
    cbn [orb]. rewrite Hfirst. now rewrite read_digits_app.
Qed.

(** The sign, the digits and the value are determined by the string. *)
Lemma reads_number_unique s v v' :
  reads_number s v -> reads_number s v' -> v = v'.
Proof.
  intros H H'. apply reads_scan_d in H, H'. congruence.
Qed.

Lemma scan_nonnegative_rejects s invalid :
  scan_nonnegative s invalid = UsageError invalid [s] <->
  (forall v, ~ reads_number s v) \/
  (exists v, reads_number s v /\ INT_MIN <= v < 0).
Proof.
  unfold scan_nonnegative.
  destruct (scan_d s) as [v|] eqn:E.
  - pose proof (scan_d_reads _ _ E) as Hv.
    assert (Huniq : forall v', reads_number s v' -> v' = v)
      by (intros v' Hv'; exact (reads_number_unique _ _ _ Hv' Hv)).
    destruct (fits_int v) eqn:F; cbn [negb].
    + destruct (Z.ltb_spec v 0) as [Hneg|Hpos].
      * split; [intros _|reflexivity]. right. exists v. split; [exact Hv|].
        unfold fits_int in F. apply andb_prop in F as [F _].
        apply Z.leb_le in F. lia.
      * split; [discriminate|].
        intros [Hno | (v' & Hv' & Hr)]; [exfalso; exact (Hno v Hv)|].
        rewrite (Huniq _ Hv') in Hr. lia.
    + split; [discriminate|].
      intros [Hno | (v' & Hv' & Hr)]; [exfalso; exact (Hno v Hv)|].
      rewrite (Huniq _ Hv') in Hr.
      unfold fits_int in F. apply andb_false_iff in F as [F|F];
        apply Z.leb_gt in F; unfold INT_MIN, INT_MAX in *; lia.
  - split; [|reflexivity]. intros _. left. intros v Hv.
    apply reads_scan_d in Hv. congruence.
Qed.

Lemma scan_nonnegative_accepts s invalid v :
  reads_number s v -> 0 <= v <= INT_MAX -> scan_nonnegative s invalid = Ok v.
Proof.
  intros Hv Hrange. unfold scan_nonnegative, fits_int.
  rewrite (reads_scan_d _ _ Hv).
  destruct (Z.leb_spec INT_MIN v), (Z.leb_spec v INT_MAX), (Z.ltb_spec v 0);
    cbn [andb negb]; try reflexivity; unfold INT_MIN, INT_MAX in *; lia.
Qed.

(** C6, as the code has it: the argument of [-T] (and of [-t]) is rejected
    with a [UsageError] exactly when it does not start, after white space and
    an optional sign, with a decimal digit, or when the number read there is
    negative (and fits an [int]); a string that starts with a number from 0
    to [INT_MAX] is accepted with that number, whatever follows the digits. *)
Theorem numeric_option_rejected :
  forall opt source_specified s,
    (parse_option (Opt "T" s) (opt, source_specified)
       = UsageError "Invalid timeout (-T) value: %s" [s] <->
     (forall v, ~ reads_number s v) \/
     (exists v, reads_number s v /\ INT_MIN <= v < 0)) /\
    (parse_option (Opt "t" s) (opt, source_specified)
       = UsageError "Invalid kill delay (-t) value: %s" [s] <->
     (forall v, ~ reads_number s v) \/
     (exists v, reads_number s v /\ INT_MIN <= v < 0)) /\
    (forall v,
        reads_number s v -> 0 <= v <= INT_MAX ->
        parse_option (Opt "T" s) (opt, source_specified)
          = Ok (set_timeout_secs v opt, Some false) /\
        parse_option (Opt "t" s) (opt, source_specified)
          = Ok (set_kill_delay_secs v opt, Some false)) /\
    (forall prog,
        ParseCommandLine opt [prog; "-T"; s] =
          (let* st := parse_option (Opt "T" s) (opt, None) in Ok (fst st)) /\
        ParseCommandLine opt [prog; "-t"; s] =
          (let* st := parse_option (Opt "t" s) (opt, None) in Ok (fst st))).
Proof.
  intros opt ss s.
  change (parse_option (Opt "T" s) (opt, ss))
    with (let* v := scan_nonnegative s "Invalid timeout (-T) value: %s" in
          @Ok parser_state (set_timeout_secs v opt, Some false)).
  change (parse_option (Opt "t" s) (opt, ss))
    with (let* v := scan_nonnegative s "Invalid kill delay (-t) value: %s" in
          @Ok parser_state (set_kill_delay_secs v opt, Some false)).
  split; [|split; [|split]].
  - rewrite <- (scan_nonnegative_rejects s "Invalid timeout (-T) value: %s").
    destruct (scan_nonnegative s _); cbn [bind]; split; congruence.
  - rewrite <- (scan_nonnegative_rejects s "Invalid kill delay (-t) value: %s").
    destruct (scan_nonnegative s _); cbn [bind]; split; congruence.
  - intros v Hv Hrange.
    rewrite !(scan_nonnegative_accepts _ _ _ Hv Hrange). split; reflexivity.
  - intros prog. unfold ParseCommandLine. cbn [tail].
    change (getopt_scan ["-T"; s] []) with ([Opt "T" s], @nil string).
    change (getopt_scan ["-t"; s] []) with ([Opt "t" s], @nil string).
    cbn [parse_loop].
    split; destruct (parse_option _ _) as [[o b]| | | | |]; reflexivity.
Qed.

(** [-T " +30s"]: a number with white space and a sign before it and a
    letter after it is taken as 30. *)
Lemma numeric_option_rejected_witness :
  parse_option (Opt "T" " +30s") (opt_zero, None)
    = Ok (set_timeout_secs 30 opt_zero, Some false) /\
  parse_option (Opt "t" " +30s") (opt_zero, None)
    = Ok (set_kill_delay_secs 30 opt_zero, Some false).
Proof.
  destruct (numeric_option_rejected opt_zero None " +30s") as (_ & _ & H & _).
  apply (H 30).
  - exists " ", "+", "30", "s".
    split; [reflexivity|]. split; [reflexivity|]. split; [discriminate|].
    split; [reflexivity|]. split; [reflexivity|]. left. split; [now right|reflexivity].
  - unfold INT_MAX. lia.
Defined.

(** C6 as the claim states it fails: 12abc is not a decimal integer, and
    [-T 12abc] is accepted as a timeout of 12 seconds, [-t 12abc] as a kill
    delay of 12 seconds. *)
Lemma timeout_with_trailing_text_accepted :
  all_chars isdigit "12abc" = false /\
  ParseCommandLine opt_zero ["linux-sandbox"; "-T"; "12abc"; "--"; "/bin/true"]
    = Ok (set_args ["/bin/true"] (set_timeout_secs 12 opt_zero)) /\
  ParseCommandLine opt_zero ["linux-sandbox"; "-t"; "12abc"; "--"; "/bin/true"]
    = Ok (set_args ["/bin/true"] (set_kill_delay_secs 12 opt_zero)).
Proof. split; [|split]; reflexivity. Qed.

End NumberFacts.

(** * Further properties *)

(** ** SplitPath *)

Section SplitPathFacts.
Import FilePosix.

Lemma substring_all s : String.substring 0 (String.length s) s = s.
Proof. induction s as [|a s IH]; simpl; [reflexivity | now rewrite IH]. Qed.

(** A string with an occurrence of [c] is cut by [rfind] into the text
    before the last one and a rest without [c]. *)
Lemma rfind_cut c s : forall i,
  Str.rfind c s = Some i ->
  s = Str.substr s 0 i +:+ String c (Str.substr_from s (S i)) /\
  Str.rfind c (Str.substr_from s (S i)) = None.
Proof.
  unfold Str.substr, Str.substr_from.
  induction s as [|a s IH]; intros i; simpl; [discriminate|].
  destruct (Str.rfind c s) as [j|] eqn:E.
  - intros [= <-]. destruct (IH j eq_refl) as [Hs Hr].
    cbn [String.substring String.length Nat.sub].
    split; [|exact Hr].
    change (String a s =
            String a (String.substring 0 j s +:+
                      String c (String.substring (S j) (String.length s - S j) s))).
    f_equal. exact Hs.
  - destruct (Ascii.eqb_spec a c) as [->|]; [|discriminate].
    intros [= <-].
    cbn [String.substring String.length Nat.sub].
    rewrite Nat.sub_0_r, substring_all. auto.
Qed.

(** [rfind] finds nothing exactly in a string without the character. *)
Lemma rfind_none c s : Str.rfind c s = None <-> Str.contains c s = false.
Proof.
  induction s as [|a s IH]; simpl; [tauto|].
  destruct (Str.rfind c s) as [i|].
  - destruct (Str.contains c s); [|destruct IH as [_ IH]; now specialize (IH eq_refl)].
    rewrite orb_true_r. split; discriminate.
  - destruct IH as [IH _]. rewrite (IH eq_refl), orb_false_r.
    destruct (Ascii.eqb a c); split; auto; discriminate.
Qed.

Lemma rfind_zero_tail c s : Str.rfind c s = Some O -> Str.rfind c (Str.tail s) = None.
Proof.
  destruct s as [|a s]; simpl; [discriminate|].
  now destruct (Str.rfind c s).
Qed.

(** X1: [SplitPath] cuts a path at its last slash and loses nothing.  A path
    without a slash is all base name, with an empty directory part.  A path
    whose only slash is its first character has the root as directory part
    and the rest as base name.  A path with a slash after its first
    character has a directory part that is not empty and a base name
    without a slash, and is the two with a slash between them. *)
Theorem SplitPath_rejoin :
  forall path,
    let dir := fst (SplitPath path) in
    let base := snd (SplitPath path) in
    (Str.contains "/" path = false -> dir = "" /\ base = path) /\
    (forall rest,
        path = String "/" rest -> Str.contains "/" rest = false ->
        dir = "/" /\ base = rest) /\
    (Str.contains "/" (Str.tail path) = true ->
     dir <> "" /\ Str.contains "/" base = false /\
     path = dir +:+ "/" +:+ base).
Proof.
  intros path. unfold SplitPath.
  destruct (Str.rfind "/" path) as [[|pos]|] eqn:E; cbn [fst snd].
  - split; [|split].
    + intros H. apply rfind_none in H. congruence.
    + intros rest -> Hrest.
      unfold Str.substr, Str.substr_from.
      cbn [String.substring String.length Nat.sub].
      rewrite Nat.sub_0_r, substring_all.
      now replace (String.substring 0 0 rest) with "" by (now destruct rest).
    + intros H. apply rfind_zero_tail, rfind_none in E. congruence.
  - split; [|split].
    + intros H. apply rfind_none in H. congruence.
    + intros rest -> Hrest. apply rfind_none in Hrest.
      simpl in E. rewrite Hrest in E. discriminate.
    + intros _. destruct (rfind_cut _ _ _ E) as [Hs Hr].
      replace (S pos + 1)%nat with (S (S pos)) by lia.
      split; [|split; [now apply rfind_none | exact Hs]].
      intros Hd. apply rfind_lt in E.
      pose proof (length_prefix path (S pos)) as Hlen.
      rewrite Hd in Hlen. simpl in Hlen. lia.
  - split; [|split].
    + auto.
    + intros rest -> _. simpl in E. now destruct (Str.rfind "/" rest).
    + intros H. apply rfind_none in E.
      destruct path as [|a path]; [discriminate H|].
      simpl in E, H. rewrite H, orb_true_r in E. discriminate.
Qed.

(** BUILD, /bin and /usr/lib. *)
Lemma SplitPath_rejoin_witness :
  (fst (SplitPath "BUILD") = "" /\ snd (SplitPath "BUILD") = "BUILD") /\
  (fst (SplitPath "/bin") = "/" /\ snd (SplitPath "/bin") = "bin") /\
  (fst (SplitPath "/usr/lib") <> "" /\
   Str.contains "/" (snd (SplitPath "/usr/lib")) = false /\
   "/usr/lib" = fst (SplitPath "/usr/lib") +:+ "/" +:+ snd (SplitPath "/usr/lib")).
Proof.
  split; [|split].
  - apply (proj1 (SplitPath_rejoin "BUILD")). reflexivity.
  - apply (proj1 (proj2 (SplitPath_rejoin "/bin")) "bin"); reflexivity.
  - apply (proj2 (proj2 (SplitPath_rejoin "/usr/lib"))). reflexivity.
Defined.

(** X2: the base name that [SplitPath] returns has no slash in it, so splitting
    it again finds no directory part. *)
Theorem SplitPath_base_has_no_slash :
  forall path,
    Str.rfind "/" (snd (SplitPath path)) = None /\
    SplitPath (snd (SplitPath path)) = ("", snd (SplitPath path)).
Proof.
  intros path.
  assert (H : Str.rfind "/" (snd (SplitPath path)) = None).
  { unfold SplitPath.
    destruct (Str.rfind "/" path) as [[|pos]|] eqn:E; cbn [snd].
    - exact (proj2 (rfind_cut _ _ _ E)).
    - replace (S pos + 1)%nat with (S (S pos)) by lia.
      exact (proj2 (rfind_cut _ _ _ E)).
    - exact E. }
  split; [exact H|]. unfold SplitPath at 1. now rewrite H.
Qed.

End SplitPathFacts.

(** ** What the directory materializer leaves behind *)

Section MaterializerFacts.
Import Posix FilePosix.

#[local] Opaque max_links.

Lemma land_twice x m : Z.land (Z.land x m) m = Z.land x m.
Proof. now rewrite <- Z.land_assoc, Z.land_diag. Qed.

Lemma kind_of_mode ino :
  Z.land (i_perm ino) 0xFFF = i_perm ino ->
  Z.land (st_mode (stat_of ino)) S_IFMT = kind_bits (i_kind ino).
Proof.
  intros H. unfold stat_of, st_mode. rewrite Z.land_lor_distr_l, <- H.
  rewrite <- Z.land_assoc.
  change (Z.land 0xFFF S_IFMT) with 0. rewrite Z.land_0_r, Z.lor_0_r.
  now destruct (i_kind ino).
Qed.

Lemma S_ISDIR_kind ino :
  Z.land (i_perm ino) 0xFFF = i_perm ino ->
  S_ISDIR (st_mode (stat_of ino)) = true -> i_kind ino = KDir.
Proof.
  intros H. unfold S_ISDIR. rewrite (kind_of_mode _ H).
  destruct (i_kind ino); [reflexivity | discriminate | discriminate].
Qed.

Lemma low_bits_of_mode ino :
  Z.land (st_mode (stat_of ino)) 0x1FF = Z.land (i_perm ino) 0x1FF.
Proof.
  unfold stat_of, st_mode. rewrite Z.land_lor_distr_l.
  now destruct (i_kind ino).
Qed.

Lemma resolve_nonlink fuel fs path ino :
  fs !! path = Some ino -> (forall t, i_kind ino <> KLink t) ->
  resolve fuel fs path = inr (path, ino).
Proof.
  intros H Hk. destruct fuel; simpl; rewrite H;
    destruct (i_kind ino) eqn:K; try reflexivity; now destruct (Hk target).
Qed.

Lemma well_formed_insert w p ino :
  well_formed w ->
  Z.land (i_perm ino) 0xFFF = i_perm ino ->
  well_formed (set_fs (<[p := ino]> (w_fs w)) w).
Proof.
  intros [Hu Hp] Hi. split; [exact Hu|]. simpl. intros q x.
  destruct (decide (p = q)) as [->|Hne].
  - rewrite lookup_insert_eq. now intros [= <-].
  - rewrite lookup_insert_ne by exact Hne. apply Hp.
Qed.

(** [chmod] keeps the world well formed and does not touch umask or euid. *)
Lemma chmod_keeps path mode w :
  well_formed w ->
  well_formed (snd (chmod path mode w)) /\
  w_euid (snd (chmod path mode w)) = w_euid w /\
  w_umask (snd (chmod path mode w)) = w_umask w.
Proof.
  intros Hw. unfold chmod. simpl.
  destruct (resolve max_links (w_fs w) path) as [e|[p ino]]; [now auto|].
  destruct ((i_uid ino =? w_euid w) || (w_euid w =? 0)); [|now auto].
  split; [|now auto].
  apply (well_formed_insert (log (SysChmod path mode) w)); [exact Hw|].
  simpl. rewrite <- Z.land_assoc. reflexivity.
Qed.

Lemma parent_setgid_bit w path :
  exists x, parent_setgid w path = Z.land x 0x400.
Proof.
  unfold parent_setgid. destruct (parent_of path); [|now exists 0].
  destruct (resolve max_links (w_fs w) s) as [e|[p ino]]; [now exists 0|].
  now exists (i_perm ino).
Qed.

(** The bits of a new directory are permission bits, and the lower nine of
    them are those of [mode] without the umask. *)
Lemma mkdir_perm_bits w path mode :
  Z.land (mkdir_perm w path mode) 0xFFF = mkdir_perm w path mode.
Proof.
  unfold mkdir_perm. destruct (parent_setgid_bit w path) as [x ->].
  rewrite Z.land_lor_distr_l, <- !Z.land_assoc. reflexivity.
Qed.

Lemma mkdir_perm_low w path mode :
  Z.land (mkdir_perm w path mode) 0x1FF
  = Z.land (Z.land mode (mode_not (w_umask w))) 0x1FF.
Proof.
  unfold mkdir_perm. destruct (parent_setgid_bit w path) as [x ->].
  rewrite Z.land_lor_distr_l, <- !Z.land_assoc.
  change (Z.land 0x400 0x1FF) with 0. change (Z.land 0x3FF 0x1FF) with 0x1FF.
  now rewrite Z.land_0_r, Z.lor_0_r.
Qed.

Lemma mkdir_keeps path mode w :
  well_formed w ->
  well_formed (snd (mkdir path mode w)) /\
  w_euid (snd (mkdir path mode w)) = w_euid w /\
  w_umask (snd (mkdir path mode w)) = w_umask w.
Proof.
  intros Hw. unfold mkdir. simpl.
  destruct (w_fs w !! path); [now auto|].
  destruct (parent_error _ path); [now auto|].
  split; [|now auto].
  apply (well_formed_insert (log (SysMkdir path mode) w)); [exact Hw|].
  cbn [i_perm]. apply mkdir_perm_bits.
Qed.

Lemma GetDirectoryStat_keeps path mode check_perms w :
  well_formed w ->
  well_formed (snd (GetDirectoryStat path mode check_perms w)) /\
  w_euid (snd (GetDirectoryStat path mode check_perms w)) = w_euid w /\
  w_umask (snd (GetDirectoryStat path mode check_perms w)) = w_umask w.
Proof.
  intros Hw. pose proof Hw as [Hu Hp].
  unfold GetDirectoryStat, stat, lstat.
  rewrite os_stat_log.
  destruct (os_stat w path) as [e|filestat]; [now auto|].
  destruct (negb (S_ISDIR (st_mode filestat))); [now auto|].
  destruct check_perms; [|now auto].
  rewrite os_lstat_log.
  destruct (os_lstat (log (SysStat path) w) path) as [e|linkstat]; [now auto|].
  destruct (negb _); [now auto|].
  unfold umask; simpl. rewrite Hu.
  match goal with |- context [negb ?b] => destruct (negb b) end;
    [|simpl; split; [split; [exact Hu | exact Hp] | auto]].
  match goal with |- context [chmod ?p ?m ?w0] =>
    assert (Hw0 : well_formed w0) by (split; [exact Hu | exact Hp]);
    pose proof (chmod_keeps p m w0 Hw0) as (H1 & H2 & H3);
    destruct (chmod p m w0) as [r w3] end.
  simpl in H1, H2, H3. destruct (r =? -1); simpl; auto.
Qed.

Lemma MakeDirectories_rec_keeps fuel : forall path mode childmost w r w',
  well_formed w ->
  MakeDirectories_rec fuel path mode childmost w = Some (r, w') ->
  well_formed w' /\ w_euid w' = w_euid w /\ w_umask w' = w_umask w.
Proof.
  induction fuel as [|fuel IH]; intros path mode childmost w r w' Hw; simpl;
    [discriminate|].
  destruct (Str.is_empty path || IsRootDirectory path).
  { intros [= <- <-]. destruct Hw. repeat split; auto. }
  pose proof (GetDirectoryStat_keeps path mode childmost w Hw) as (H1 & H2 & H3).
  destruct (GetDirectoryStat path mode childmost w) as [ok w1]. simpl in H1, H2, H3.
  destruct ok; [intros [= <- <-]; auto|].
  destruct (w_errno w1 =? ENOENT); [|intros [= <- <-]; auto].
  destruct (MakeDirectories_rec fuel (Dirname path) mode false w1)
    as [[ok2 w2]|] eqn:E2; [|discriminate].
  apply IH in E2 as (K1 & K2 & K3); [|exact H1].
  destruct ok2; [|intros [= <- <-]; repeat split; try congruence; apply K1].
  pose proof (mkdir_keeps path mode w2 K1) as (M1 & M2 & M3).
  destruct (mkdir path mode w2) as [r3 w3]. simpl in M1, M2, M3.
  assert (well_formed w3 /\ w_euid w3 = w_euid w /\ w_umask w3 = w_umask w)
    as Hthree by (repeat split; try congruence; apply M1).
  destruct (r3 =? -1); [|intros [= <- <-]; exact Hthree].
  destruct (w_errno w3 =? EEXIST); [|intros [= <- <-]; exact Hthree].
  destruct childmost; [|intros [= <- <-]; exact Hthree].
  pose proof (GetDirectoryStat_keeps path mode true w3 M1) as (G1 & G2 & G3).
  destruct (GetDirectoryStat path mode true w3) as [r4 w4]. simpl in G1, G2, G3.
  intros [= <- <-]. repeat split; try congruence; apply G1.
Qed.

(** A trust check that passes leaves a trusted directory. *)
Lemma GetDirectoryStat_trusted path mode w w' :
  well_formed w ->
  GetDirectoryStat path mode true w = (true, w') ->
  trusted_directory path mode (w_umask w) (w_euid w) w'.
Proof.
  intros [Hu Hp]. unfold GetDirectoryStat, stat, lstat.
  rewrite os_stat_log.
  destruct (os_stat w path) as [e|filestat] eqn:Hs; [intros [=]|].
  destruct (S_ISDIR (st_mode filestat)) eqn:Hdir; [|intros [=]].
  cbn [negb]. rewrite os_lstat_log, os_lstat_log.
  destruct (os_lstat w path) as [e|linkstat] eqn:Hl; [intros [=]|].
  destruct (st_uid linkstat =? geteuid _) eqn:Huid; [|intros [=]].
  apply Z.eqb_eq in Huid. cbn [negb].
  unfold umask. cbn [fst snd w_umask log set_umask]. rewrite Hu.
  destruct (Z.land (st_mode filestat) 511 =? Z.land mode (mode_not (w_umask w)))
    eqn:Hmode; cbn [negb].
  - intros [= <-]. apply Z.eqb_eq in Hmode.
    exists filestat, linkstat. repeat split; try assumption.
    rewrite <- Hmode. symmetry. apply land_twice.
  - unfold os_stat in Hs.
    destruct (resolve max_links (w_fs w) path) as [e|[p ino]] eqn:R;
      [discriminate|]. injection Hs as <-.
    unfold os_lstat in Hl.
    destruct (w_fs w !! path) as [lino|] eqn:L; [|discriminate].
    injection Hl as <-.
    destruct (resolve_target _ _ _ _ _ R) as [Hino Hnolink].
    unfold chmod. cbn [w_fs log set_umask w_euid]. rewrite R.
    destruct ((i_uid ino =? w_euid w) || (w_euid w =? 0)); [|intros [=]].
    cbn. intros [= <-].
    pose proof (S_ISDIR_kind _ (Hp _ _ Hino) Hdir) as Hkind.
    assert (Hl' : exists lino',
               <[p := Inode (i_kind ino) (i_uid ino)
                        (Z.land (Z.land mode (mode_not (w_umask w))) 0xFFF)
                        (i_atime ino) (i_mtime ino) (i_data ino)]> (w_fs w) !! path
                 = Some lino' /\ i_uid lino' = i_uid lino).
    { destruct (decide (p = path)) as [->|Hne].
      - rewrite lookup_insert_eq. eexists. split; [reflexivity|].
        cbn. rewrite Hino in L. now injection L as <-.
      - rewrite lookup_insert_ne by exact Hne. eauto. }
    destruct Hl' as (lino' & Hl' & Hluid).
    exists (stat_of (Inode (i_kind ino) (i_uid ino)
                       (Z.land (Z.land mode (mode_not (w_umask w))) 0xFFF)
                       (i_atime ino) (i_mtime ino) (i_data ino))),
           (stat_of lino').
    unfold os_stat, os_lstat. cbn [w_fs set_fs].
    erewrite resolve_update; [|exact R|reflexivity]. rewrite Hl'.
    split; [reflexivity|]. split.
    { unfold S_ISDIR. rewrite kind_of_mode.
      - cbn [i_kind]. now rewrite Hkind.
      - cbn [i_perm]. now rewrite <- Z.land_assoc. }
    split.
    { rewrite low_bits_of_mode. cbn [i_perm].
      now rewrite <- Z.land_assoc. }
    split; [reflexivity|]. unfold geteuid in Huid.
    cbn [st_uid stat_of w_euid log] in *. congruence.
Qed.

(** A directory that [mkdir] has made is trusted. *)
Lemma mkdir_trusted path mode w w' :
  mkdir path mode w = (0, w') ->
  trusted_directory path mode (w_umask w) (w_euid w) w'.
Proof.
  unfold mkdir. cbn [w_fs log].
  destruct (w_fs w !! path); [intros [=]|].
  destruct (parent_error _ path); [intros [=]|].
  intros [= <-].
  eexists (stat_of _), (stat_of _). unfold os_stat, os_lstat. cbn [w_fs set_fs].
  erewrite resolve_nonlink;
    [|apply lookup_insert_eq|intros t; discriminate].
  rewrite lookup_insert_eq.
  split; [reflexivity|]. split.
  { unfold S_ISDIR. rewrite kind_of_mode; [reflexivity|].
    cbn [i_perm]. apply mkdir_perm_bits. }
  split; [|split; reflexivity].
  rewrite low_bits_of_mode. cbn [i_perm].
  rewrite (mkdir_perm_low (log (SysMkdir path mode) w)). reflexivity.
Qed.

Lemma mkdir_returns path mode w :
  fst (mkdir path mode w) = 0 \/ fst (mkdir path mode w) = -1.
Proof.
  unfold mkdir.
  destruct (w_fs _ !! path); [now right|].
  destruct (parent_error _ path); [now right | now left].
Qed.

Lemma MakeDirectories_trusted path mode w w' :
  well_formed w ->
  MakeDirectories path mode w = Some (true, w') ->
  trusted_directory path mode (w_umask w) (w_euid w) w'.
Proof.
  intros Hw. unfold MakeDirectories. cbn [MakeDirectories_rec].
  destruct (Str.is_empty path || IsRootDirectory path); [intros [=]|].
  pose proof (GetDirectoryStat_keeps path mode true w Hw) as (H1 & H2 & H3).
  pose proof (GetDirectoryStat_trusted path mode w) as Hg.
  destruct (GetDirectoryStat path mode true w) as [ok w1]. simpl in H1, H2, H3.
  destruct ok; [intros [= <-]; now apply Hg|].
  destruct (w_errno w1 =? ENOENT); [|intros [=]].
  destruct (MakeDirectories_rec _ (Dirname path) mode false w1)
    as [[ok2 w2]|] eqn:E2; [|discriminate].
  apply MakeDirectories_rec_keeps in E2 as (K1 & K2 & K3); [|exact H1].
  destruct ok2; [|intros [=]].
  pose proof (mkdir_keeps path mode w2 K1) as (M1 & M2 & M3).
  pose proof (mkdir_trusted path mode w2) as Hm.
  pose proof (mkdir_returns path mode w2) as Hr.
  destruct (mkdir path mode w2) as [r3 w3]. simpl in M1, M2, M3, Hr.
  destruct Hr as [-> | ->].
  - intros [= <-]. specialize (Hm _ eq_refl).
    now rewrite K2, K3, H2, H3 in Hm.
  - cbn [Z.eqb Pos.eqb].
    destruct (w_errno w3 =? EEXIST); [|intros [=]].
    intros [= Hg3]. apply GetDirectoryStat_trusted in Hg3; [|exact M1].
    now rewrite M2, M3, K2, K3, H2, H3 in Hg3.
Qed.

(** X3: when [MakeDirectories] returns true, the path is a directory for
    [stat] (and for [IsDirectory]), its permission bits are the requested
    mode without the bits of the umask, and the entry at the path belongs to
    the effective user, whether the directory was there before or has just
    been made. *)
Theorem MakeDirectories_success_is_trusted :
  forall path mode w w',
    well_formed w ->
    MakeDirectories path mode w = Some (true, w') ->
    trusted_directory path mode (w_umask w) (w_euid w) w' /\
    fst (IsDirectory path w') = true.
Proof.
  intros path mode w w' Hw H.
  pose proof (MakeDirectories_trusted _ _ _ _ Hw H) as Ht.
  split; [exact Ht|].
  destruct Ht as (filestat & _ & Hs & Hdir & _).
  unfold IsDirectory, stat. rewrite os_stat_log, Hs. exact Hdir.
Qed.

(** The trust check on a directory that is already as it should be changes
    nothing in the tree. *)
Lemma GetDirectoryStat_on_trusted path mode w :
  well_formed w ->
  Z.land mode 0x1FF = mode ->
  trusted_directory path mode (w_umask w) (w_euid w) w ->
  exists w',
    GetDirectoryStat path mode true w = (true, w') /\
    w_fs w' = w_fs w /\
    w_trace w' =
      w_trace w ++ [SysStat path; SysLstat path; SysUmask 0x12;
                    SysUmask (w_umask w)].
Proof.
  intros [Hu Hp] Hmode (filestat & linkstat & Hs & Hdir & Hbits & Hl & Huid).
  unfold GetDirectoryStat, stat, lstat.
  rewrite os_stat_log, Hs, Hdir. cbn [negb].
  rewrite !os_lstat_log, Hl.
  unfold geteuid. cbn [w_euid log]. rewrite Huid, Z.eqb_refl. cbn [negb].
  unfold umask. cbn [fst snd w_umask log set_umask]. rewrite Hu.
  replace (Z.land (st_mode filestat) 511 =? Z.land mode (mode_not (w_umask w)))
    with true.
  - cbn [negb]. eexists. split; [reflexivity|]. split; [reflexivity|].
    cbn. now rewrite <- !app_assoc.
  - symmetry. apply Z.eqb_eq. rewrite Hbits.
    rewrite <- Z.land_assoc, (Z.land_comm (mode_not _)), Z.land_assoc.
    now rewrite Hmode.
Qed.

(** X4: [MakeDirectories] is idempotent.  After a call that returned true,
    the same call (with a mode within 0777) returns true again and leaves
    the tree as it is: it only looks ([stat], [lstat]) and probes the umask. *)
Theorem MakeDirectories_twice :
  forall path mode w w1,
    well_formed w ->
    Z.land mode 0x1FF = mode ->
    MakeDirectories path mode w = Some (true, w1) ->
    exists w2,
      MakeDirectories path mode w1 = Some (true, w2) /\
      w_fs w2 = w_fs w1 /\
      w_trace w2 =
        w_trace w1 ++ [SysStat path; SysLstat path; SysUmask 0x12;
                       SysUmask (w_umask w)].
Proof.
  intros path mode w w1 Hw Hmode H.
  pose proof (MakeDirectories_trusted _ _ _ _ Hw H) as Ht.
  pose proof (MakeDirectories_rec_keeps _ _ _ _ _ _ _ Hw H) as (K1 & K2 & K3).
  rewrite <- K2, <- K3 in Ht.
  destruct (GetDirectoryStat_on_trusted path mode w1 K1 Hmode Ht)
    as (w2 & Hg & Hfs & Htr).
  exists w2. rewrite <- K3. split; [|auto].
  revert H. unfold MakeDirectories. cbn [MakeDirectories_rec].
  destruct (Str.is_empty path || IsRootDirectory path); [intros [=]|].
  intros _. now rewrite Hg.
Qed.

Lemma resolve_missing fuel fs path :
  fs !! path = None -> resolve fuel fs path = inl ENOENT.
Proof. intros H. destruct fuel; simpl; now rewrite H. Qed.

(** X5: a path that does not exist and whose parent is the root or empty (a
    new directory directly under /, or a relative name without a slash) is
    never created: [MakeDirectories] returns false with [EACCES] and leaves
    the tree alone. *)
Theorem MakeDirectories_without_parent :
  forall path mode w,
    os_stat w path = inl ENOENT ->
    Str.is_empty (Dirname path) || IsRootDirectory (Dirname path) = true ->
    exists w',
      MakeDirectories path mode w = Some (false, w') /\
      w_errno w' = EACCES /\
      w_fs w' = w_fs w /\
      (forall c, In c (w_trace w') -> In c (w_trace w) \/ c = SysStat path).
Proof.
  intros path mode w Hs Hparent.
  unfold MakeDirectories.
  destruct (Str.is_empty path || IsRootDirectory path) eqn:Hroot.
  - cbn [MakeDirectories_rec]. rewrite Hroot.
    eexists. split; [reflexivity|]. cbn. auto.
  - apply orb_false_elim in Hroot as [Hne Hroot'].
    pose proof (is_empty_length _ Hne) as Hlen.
    destruct (String.length path) as [|n] eqn:Elen; [lia|].
    cbn [MakeDirectories_rec]. rewrite Hne, Hroot'. cbn [orb].
    unfold GetDirectoryStat, stat. rewrite os_stat_log, Hs.
    cbn [w_errno set_errno]. rewrite Z.eqb_refl, Hparent.
    eexists. split; [reflexivity|]. cbn.
    repeat split. intros c Hc. apply in_app_or in Hc as [Hc|[<-|[]]]; auto.
Qed.

(** X6: something that is not a directory in the place of the leaf makes
    [MakeDirectories] fail with [ENOTDIR] after one [stat]; nothing is
    created, removed or changed. *)
Theorem MakeDirectories_not_a_directory :
  forall path mode w filestat,
    Str.is_empty path || IsRootDirectory path = false ->
    os_stat w path = inr filestat ->
    S_ISDIR (st_mode filestat) = false ->
    exists w',
      MakeDirectories path mode w = Some (false, w') /\
      w_errno w' = ENOTDIR /\
      w_fs w' = w_fs w /\
      w_trace w' = w_trace w ++ [SysStat path].
Proof.
  intros path mode w filestat Hroot Hs Hdir.
  unfold MakeDirectories. cbn [MakeDirectories_rec]. rewrite Hroot.
  unfold GetDirectoryStat, stat. rewrite os_stat_log, Hs, Hdir.
  cbn. eexists. split; [reflexivity|]. auto.
Qed.

Lemma parent_error_frame w w' path :
  w_fs w' = w_fs w -> w_euid w' = w_euid w ->
  parent_error w' path = parent_error w path.
Proof.
  intros Hfs He. unfold parent_error, may_write. now rewrite Hfs, He.
Qed.

Lemma parent_of_Dirname path :
  Str.is_empty (Dirname path) || IsRootDirectory (Dirname path) = false ->
  parent_of path = Some (Dirname path).
Proof.
  unfold parent_of, Dirname, SplitPath.
  destruct (Str.rfind "/" path) as [[|pos]|] eqn:E; cbn [fst].
  - destruct path as [|a path]; [discriminate E|].
    pose proof (rfind_zero_first _ _ E) as Ha. simpl in Ha. subst a.
    unfold Str.substr. cbn [String.substring].
    replace (String.substring 0 0 path) with "" by (now destruct path).
    discriminate.
  - reflexivity.
  - discriminate.
Qed.

Lemma setgid_of_mode ino :
  Z.land (st_mode (stat_of ino)) 0x400 = Z.land (i_perm ino) 0x400.
Proof.
  unfold stat_of, st_mode. rewrite Z.land_lor_distr_l.
  now destruct (i_kind ino).
Qed.

(** The set-group-ID bit that a new entry inherits, read off the [stat] of
    its parent. *)
Lemma parent_setgid_stat w path parentstat :
  Str.is_empty (Dirname path) || IsRootDirectory (Dirname path) = false ->
  os_stat w (Dirname path) = inr parentstat ->
  parent_setgid w path = Z.land (st_mode parentstat) 0x400.
Proof.
  intros Hp. unfold parent_setgid, os_stat. rewrite (parent_of_Dirname _ Hp).
  destruct (resolve max_links (w_fs w) (Dirname path)) as [e|[p ino]];
    [discriminate|].
  intros [= <-]. symmetry. apply setgid_of_mode.
Qed.

(** X7: a leaf that [mkdir] can make under an existing directory is made
    with that one [mkdir], after a [stat] of the leaf and one of the parent.
    The tree gains one entry at the path and is otherwise as before: an
    empty directory of the effective user, whose permission bits are those
    of [mode] without the umask bits, within 01777 (the sticky bit is kept),
    with the set-group-ID bit of the parent if that has one.  Only [stat] is
    run on the parent, so who owns the parent and what its mode is plays no
    part beyond what [mkdir] itself needs, and the new leaf is not looked at
    again. *)
Theorem MakeDirectories_creates_leaf :
  forall path mode w parentstat,
    Str.is_empty path || IsRootDirectory path = false ->
    Str.is_empty (Dirname path) || IsRootDirectory (Dirname path) = false ->
    os_stat w (Dirname path) = inr parentstat ->
    S_ISDIR (st_mode parentstat) = true ->
    fst (mkdir path mode w) = 0 ->
    exists w' made,
      MakeDirectories path mode w = Some (true, w') /\
      w_fs w' = <[path := made]> (w_fs w) /\
      i_kind made = KDir /\
      i_uid made = w_euid w /\
      i_data made = [] /\
      i_perm made =
        Z.lor (Z.land (Z.land mode (mode_not (w_umask w))) 0x3FF)
              (Z.land (st_mode parentstat) 0x400) /\
      w_trace w' =
        w_trace w ++ [SysStat path; SysStat (Dirname path); SysMkdir path mode].
Proof.
  intros path mode w parentstat Hroot Hproot Hps Hpdir Hmkdir.
  assert (Hnone : w_fs w !! path = None).
  { revert Hmkdir. unfold mkdir. cbn [w_fs log].
    destruct (w_fs w !! path); [discriminate | reflexivity]. }
  assert (Hperr : parent_error w path = None).
  { revert Hmkdir. unfold mkdir. cbn [w_fs log]. rewrite Hnone.
    erewrite (parent_error_frame w); [|reflexivity|reflexivity].
    destruct (parent_error w path); [discriminate | reflexivity]. }
  pose proof Hroot as Hroot'.
  apply orb_false_elim in Hroot' as [Hne _]. apply is_empty_length in Hne.
  unfold MakeDirectories.
  destruct (String.length path) as [|n] eqn:Elen; [lia|].
  cbn [MakeDirectories_rec]. rewrite Hroot.
  unfold GetDirectoryStat at 1, stat at 1. rewrite os_stat_log.
  unfold os_stat at 1. rewrite (resolve_missing _ _ _ Hnone).
  cbn [w_errno set_errno]. rewrite Z.eqb_refl, Hproot.
  unfold GetDirectoryStat, stat.
  match goal with |- context [os_stat ?w0 (Dirname path)] =>
    change (os_stat w0 (Dirname path)) with (os_stat w (Dirname path)) end.
  rewrite Hps, Hpdir. cbn [negb].
  unfold mkdir. cbn [w_fs log set_errno]. rewrite Hnone.
  erewrite (parent_error_frame w); [|reflexivity|reflexivity]. rewrite Hperr.
  cbn [Z.eqb]. eexists _, _. split; [reflexivity|].
  split; [reflexivity|]. cbn [i_kind i_uid i_data i_perm].
  split; [reflexivity|]. split; [reflexivity|]. split; [reflexivity|].
  split; [|cbn; now rewrite <- ?app_assoc].
  unfold mkdir_perm. f_equal.
  rewrite <- (parent_setgid_stat w path parentstat Hproot Hps).
  reflexivity.
Qed.

#[local] Transparent max_links.

Lemma calm_well_formed : well_formed Examples.calm.
Proof.
  split; [reflexivity|].
  assert (H : map_Forall (fun _ ino => Z.land (i_perm ino) 0xFFF = i_perm ino)
                         Examples.tree).
  { unfold Examples.tree.
    repeat (apply map_Forall_insert_2; [reflexivity|]).
    apply map_Forall_empty. }
  exact H.
Qed.

(** In [Examples.calm], user 1000 asks for /tmp/mine under root's /tmp. *)
Lemma MakeDirectories_success_is_trusted_witness :
  let w' := match MakeDirectories "/tmp/mine" 0x1ED Examples.calm with
            | Some (_, w) => w
            | None => Examples.calm
            end in
  trusted_directory "/tmp/mine" 0x1ED 0x12 1000 w' /\
  fst (IsDirectory "/tmp/mine" w') = true.
Proof.
  apply (MakeDirectories_success_is_trusted "/tmp/mine" 0x1ED Examples.calm).
  - apply calm_well_formed.
  - vm_compute. reflexivity.
Defined.

Lemma MakeDirectories_twice_witness :
  let w1 := match MakeDirectories "/tmp/mine" 0x1ED Examples.calm with
            | Some (_, w) => w
            | None => Examples.calm
            end in
  exists w2,
    MakeDirectories "/tmp/mine" 0x1ED w1 = Some (true, w2) /\
    w_fs w2 = w_fs w1 /\
    w_trace w2 =
      w_trace w1 ++ [SysStat "/tmp/mine"; SysLstat "/tmp/mine"; SysUmask 0x12;
                     SysUmask 0x12].
Proof.
  apply (MakeDirectories_twice "/tmp/mine" 0x1ED Examples.calm).
  - apply calm_well_formed.
  - reflexivity.
  - vm_compute. reflexivity.
Defined.

(** /srv is not there, and its parent is the root. *)
Lemma MakeDirectories_without_parent_witness :
  exists w',
    MakeDirectories "/srv" 0x1ED Examples.calm = Some (false, w') /\
    w_errno w' = EACCES /\
    w_fs w' = w_fs Examples.calm /\
    (forall c, In c (w_trace w') ->
               In c (w_trace Examples.calm) \/ c = SysStat "/srv").
Proof.
  apply (MakeDirectories_without_parent "/srv" 0x1ED Examples.calm).
  - vm_compute. reflexivity.
  - vm_compute. reflexivity.
Defined.

(** /etc/motd is a regular file. *)
Lemma MakeDirectories_not_a_directory_witness :
  exists w',
    MakeDirectories "/etc/motd" 0x1ED Examples.calm = Some (false, w') /\
    w_errno w' = ENOTDIR /\
    w_fs w' = w_fs Examples.calm /\
    w_trace w' = [SysStat "/etc/motd"].
Proof.
  apply (MakeDirectories_not_a_directory "/etc/motd" 0x1ED Examples.calm
           (stat_of (Examples.regular 0 0x1A4 [Byte.x68; Byte.x69]))).
  - vm_compute. reflexivity.
  - vm_compute. reflexivity.
  - vm_compute. reflexivity.
Defined.

(** In [Examples.calm], user 1000 asks for /tmp/mine with mode 01777 under
    root's /tmp, umask 022: the new directory has mode 01755. *)
Lemma MakeDirectories_creates_leaf_witness :
  exists w' made,
    MakeDirectories "/tmp/mine" 0x3FF Examples.calm = Some (true, w') /\
    w_fs w' = <["/tmp/mine" := made]> Examples.tree /\
    i_kind made = KDir /\
    i_uid made = 1000 /\
    i_data made = [] /\
    i_perm made = 0x3ED /\
    w_trace w' = [SysStat "/tmp/mine"; SysStat "/tmp"; SysMkdir "/tmp/mine" 0x3FF].
Proof.
  apply (MakeDirectories_creates_leaf "/tmp/mine" 0x3FF Examples.calm
           (stat_of (Examples.directory 0 0x3FF))).
  - vm_compute. reflexivity.
  - vm_compute. reflexivity.
  - vm_compute. reflexivity.
  - vm_compute. reflexivity.
  - vm_compute. reflexivity.
Defined.

End MaterializerFacts.

(** ** What a successful write leaves behind *)

Section WriteFileSuccess.
Import Posix FilePosix.

#[local] Opaque max_links.

(** A successful [open] hands out a descriptor for an empty regular file,
    the one the path now resolves to. *)
Lemma open_result path mode w fd w1 :
  open_creat_trunc path mode w = (fd, w1) ->
  fd <> -1 ->
  exists p ino,
    w_fds w1 !! fd = Some p /\
    w_fs w1 !! p = Some ino /\
    i_kind ino = KReg /\
    i_data ino = [] /\
    resolve max_links (w_fs w1) path = inr (p, ino).
Proof.
  unfold open_creat_trunc, alloc_fd. cbn [w_faults w_fs log].
  destruct (open_fault (w_faults w)); [intros [= <- _]; contradiction|].
  destruct (w_fs w !! path) as [old|] eqn:L.
  - destruct (resolve max_links (w_fs w) path) as [e|[p ino]] eqn:R;
      [intros [= <- _]; contradiction|].
    destruct (resolve_target _ _ _ _ _ R) as [Hino Hnolink].
    destruct (i_kind ino) eqn:K;
      [intros [= <- _]; contradiction | | now destruct (Hnolink target)].
    destruct (may_write _ ino); [|intros [= <- _]; contradiction].
    intros [= <- <-] _. exists p. eexists. cbn.
    rewrite !lookup_insert_eq.
    split; [reflexivity|]. split; [reflexivity|]. split; [reflexivity|].
    split; [reflexivity|].
    eapply resolve_update; [exact R | now rewrite K].
  - destruct (parent_error _ path); [intros [= <- _]; contradiction|].
    intros [= <- <-] _. exists path. eexists. cbn.
    rewrite !lookup_insert_eq.
    split; [reflexivity|]. split; [reflexivity|]. split; [reflexivity|].
    split; [reflexivity|].
    apply resolve_nonlink; [apply lookup_insert_eq | intros t; discriminate].
Qed.

(** A [write] that accepts the whole buffer appends it to the file. *)
Lemma write_result fd data w p ino :
  w_fds w !! fd = Some p ->
  w_fs w !! p = Some ino ->
  (fst (write fd data w) =? Z.of_nat (length data)) = true ->
  w_fs (snd (write fd data w)) =
    <[p := Inode (i_kind ino) (i_uid ino) (i_perm ino) (i_atime ino)
                 (i_mtime ino) (i_data ino ++ data)]> (w_fs w).
Proof.
  intros Hfd Hino. unfold write. cbn [w_fds w_fs w_faults log].
  rewrite Hfd. destruct (write_fault (w_faults w)).
  - cbn [fst]. intros H. apply Z.eqb_eq in H. lia.
  - rewrite Hino. cbn [fst snd w_fs set_fs]. intros H. apply Z.eqb_eq in H.
    apply Nat2Z.inj in H. rewrite H, firstn_all. reflexivity.
Qed.

Lemma close_fs fd w : w_fs (snd (close fd w)) = w_fs w.
Proof.
  unfold close. cbn [w_fds log].
  destruct (w_fds w !! fd); [|reflexivity].
  now destruct (close_fault _).
Qed.

(** X8: when [WriteFile] returns true, the destination resolves to a regular
    file whose content is exactly the buffer, whatever was there before, and
    the calls made were [unlink], [open], one [write] of the whole buffer
    and [close], in this order. *)
Theorem WriteFile_success_content :
  forall data filename w w',
    WriteFile data filename w = (true, w') ->
    exists p ino fd,
      resolve max_links (w_fs w') filename = inr (p, ino) /\
      i_kind ino = KReg /\
      i_data ino = data /\
      w_trace w' =
        w_trace w ++ [SysUnlink filename; SysOpen filename;
                      SysWrite fd (length data); SysClose fd].
Proof.
  intros data filename w w'. unfold WriteFile, UnlinkPath, WriteTo.
  pose proof (unlink_trace filename w) as Tu.
  destruct (unlink filename w) as [u wu]. cbn [snd] in Tu.
  pose proof (open_trace filename 0x1ED wu) as To.
  pose proof (open_result filename 0x1ED wu) as Ho.
  destruct (open_creat_trunc filename 0x1ED wu) as [fd w1]. cbn [snd] in To.
  destruct (Z.eqb_spec fd (-1)) as [|Hfd]; [intros [=]|].
  destruct (Ho _ _ eq_refl Hfd) as (p & ino & Hp & Hino & Hk & Hd & Hr).
  pose proof (write_trace fd data w1) as Tw.
  pose proof (write_result fd data w1 p ino Hp Hino) as Hw.
  destruct (write fd data w1) as [r w2]. cbn [fst snd] in Tw, Hw.
  pose proof (close_trace fd w2) as Tc.
  pose proof (close_fs fd w2) as Hc.
  destruct (close fd w2) as [c w3]. cbn [snd] in Tc, Hc.
  destruct (negb (c =? 0)); [intros [=]|].
  intros [= Hres <-]. specialize (Hw Hres).
  exists p. eexists. exists fd. cbn [w_fs w_trace set_errno].
  rewrite Hc, Hw.
  split; [eapply resolve_update; [exact Hr | reflexivity]|].
  split; [exact Hk|]. split; [cbn; now rewrite Hd|].
  rewrite Tc, Tw, To, Tu, <- !app_assoc. reflexivity.
Qed.

(** X9: a short write.  When [write] accepts fewer bytes than the buffer
    holds, [WriteFile] returns false, the destination is left holding only
    the bytes that were accepted, and, since [write] did not fail, [errno] is
    still what the ignored [unlink] left there. *)
Theorem WriteFile_short_write :
  forall data filename w fd w1 k,
    open_creat_trunc filename 0x1ED (snd (UnlinkPath filename w)) = (fd, w1) ->
    fd <> -1 ->
    write_fault (w_faults w1) = None ->
    write_limit (w_faults w1) = Some k ->
    (k < length data)%nat ->
    close_fault (w_faults w1) = None ->
    fst (WriteFile data filename w) = false /\
    w_errno (snd (WriteFile data filename w)) =
      w_errno (snd (UnlinkPath filename w)) /\
    exists p ino,
      resolve max_links (w_fs (snd (WriteFile data filename w))) filename
        = inr (p, ino) /\
      i_data ino = firstn k data.
Proof.
  intros data filename w fd w1 k Hopen Hfd Hwf Hlim Hk Hcf.
  destruct (open_result _ _ _ _ _ Hopen Hfd) as (p & ino & Hp & Hino & Hkind & Hd & Hr).
  assert (He : w_errno w1 = w_errno (snd (UnlinkPath filename w))).
  { revert Hopen Hfd. unfold open_creat_trunc, alloc_fd.
    repeat match goal with
           | |- context [match ?x with _ => _ end] => destruct x
           end; intros [= <- <-]; try contradiction; reflexivity. }
  unfold WriteFile. destruct (UnlinkPath filename w) as [u wu].
  cbn [snd] in *. rewrite Hopen.
  apply Z.eqb_neq in Hfd. rewrite Hfd.
  unfold WriteTo, write. cbn [w_fds w_fs w_faults log].
  rewrite Hp, Hwf, Hlim, Hino. rewrite Nat.min_l by lia.
  unfold close. cbn [w_fds w_faults log set_fs set_fds w_errno].
  rewrite Hp, Hcf. cbn [negb Z.eqb fst snd w_errno w_fs set_errno set_fs set_fds log].
  split; [apply Z.eqb_neq; lia|]. split; [exact He|].
  exists p. eexists. split.
  - eapply resolve_update; [exact Hr | reflexivity].
  - cbn. now rewrite Hd.
Qed.

#[local] Transparent max_links.

(** In [Examples.tight] four bytes are to replace /home/me/out; two arrive. *)
Lemma WriteFile_short_write_witness :
  fst (WriteFile [Byte.x6e; Byte.x65; Byte.x77; Byte.x21] "/home/me/out"
         Examples.tight) = false /\
  w_errno (snd (WriteFile [Byte.x6e; Byte.x65; Byte.x77; Byte.x21]
                  "/home/me/out" Examples.tight)) =
    w_errno (snd (UnlinkPath "/home/me/out" Examples.tight)) /\
  exists p ino,
    resolve max_links
      (w_fs (snd (WriteFile [Byte.x6e; Byte.x65; Byte.x77; Byte.x21]
                    "/home/me/out" Examples.tight))) "/home/me/out"
      = inr (p, ino) /\
    i_data ino = [Byte.x6e; Byte.x65].
Proof.
  apply (WriteFile_short_write [Byte.x6e; Byte.x65; Byte.x77; Byte.x21]
           "/home/me/out" Examples.tight 3
           (snd (open_creat_trunc "/home/me/out" 0x1ED
                   (snd (UnlinkPath "/home/me/out" Examples.tight)))) 2%nat).
  - vm_compute. reflexivity.
  - discriminate.
  - reflexivity.
  - reflexivity.
  - simpl. lia.
  - reflexivity.
Defined.

(** Replacing /home/me/out, which held three other bytes. *)
Lemma WriteFile_success_content_witness :
  exists p ino fd,
    resolve max_links
      (w_fs (snd (WriteFile [Byte.x6e; Byte.x65; Byte.x77; Byte.x21]
                    "/home/me/out" Examples.calm))) "/home/me/out"
      = inr (p, ino) /\
    i_kind ino = KReg /\
    i_data ino = [Byte.x6e; Byte.x65; Byte.x77; Byte.x21] /\
    w_trace (snd (WriteFile [Byte.x6e; Byte.x65; Byte.x77; Byte.x21]
                    "/home/me/out" Examples.calm))
      = [SysUnlink "/home/me/out"; SysOpen "/home/me/out"; SysWrite fd 4;
         SysClose fd].
Proof.
  apply (WriteFile_success_content [Byte.x6e; Byte.x65; Byte.x77; Byte.x21]
           "/home/me/out" Examples.calm).
  vm_compute. reflexivity.
Defined.

End WriteFileSuccess.

(** ** The clock of the mtime marker *)

Section ClockFacts.
Import Posix FilePosix.

(** X10: when the sum fits [time_t], [GetFuture] adds whole years of 365
    days exactly for up to 136 years; from 137 years on the product no
    longer fits the [unsigned int] it is computed in and the result falls
    short. *)
Theorem GetFuture_exact_up_to_136_years :
  forall years w,
    let now := w_clock w (w_ticks w) in
    now <> -1 ->
    0 <= years < 2 ^ 32 ->
    fits_time_t (now + (31536000 * years) mod 2 ^ 32) ->
    exists future,
      GetFuture years w = Ret future (tick (log SysTime w)) /\
      (years <= 136 -> future = now + 31536000 * years) /\
      (137 <= years -> future < now + 31536000 * years).
Proof.
  intros years w now Hclock Hyears Hfits.
  unfold GetFuture, GetNow, bind, time. fold now.
  apply Z.eqb_neq in Hclock. rewrite Hclock.
  eexists. split; [reflexivity|].
  change (3600 * 24 * 365 * years) with (31536000 * years).
  rewrite (time_t_add_fits _ _ Hfits).
  split; intros H.
  - rewrite Z.mod_small; [reflexivity|]. lia.
  - pose proof (Z.mod_pos_bound (31536000 * years) (2 ^ 32) eq_refl). lia.
Qed.

(** Ten years from [t0], and 137 years from [t0]. *)
Lemma GetFuture_exact_up_to_136_years_witness :
  (exists future,
      GetFuture 10 Examples.calm = Ret future (tick (log SysTime Examples.calm)) /\
      (10 <= 136 -> future = Examples.t0 + 31536000 * 10) /\
      (137 <= 10 -> future < Examples.t0 + 31536000 * 10)) /\
  (exists future,
      GetFuture 137 Examples.calm = Ret future (tick (log SysTime Examples.calm)) /\
      (137 <= 136 -> future = Examples.t0 + 31536000 * 137) /\
      (137 <= 137 -> future < Examples.t0 + 31536000 * 137)).
Proof.
  split.
  - apply (GetFuture_exact_up_to_136_years 10 Examples.calm).
    + discriminate.
    + lia.
    + vm_compute. split; discriminate.
  - apply (GetFuture_exact_up_to_136_years 137 Examples.calm).
    + discriminate.
    + lia.
    + vm_compute. split; discriminate.
Defined.

(** X11: building the marker reads the clock three times, and dies with
    [INTERNAL_ERROR] exactly when one of the three readings is -1. *)
Theorem new_PosixFileMtime_dies_iff :
  forall w,
    (exists w', new_PosixFileMtime w
                = Died INTERNAL_ERROR "time(NULL) failed" w') <->
    (w_clock w (w_ticks w) = -1 \/
     w_clock w (S (w_ticks w)) = -1 \/
     w_clock w (S (S (w_ticks w))) = -1).
Proof.
  intros w. unfold new_PosixFileMtime, GetFuture, GetNow, bind, time. simpl.
  destruct (Z.eqb_spec (w_clock w (w_ticks w)) (-1)) as [H1|H1]; simpl.
  { split; eauto. }
  destruct (Z.eqb_spec (w_clock w (S (w_ticks w))) (-1)) as [H2|H2]; simpl.
  { split; eauto. }
  destruct (Z.eqb_spec (w_clock w (S (S (w_ticks w)))) (-1)) as [H3|H3]; simpl.
  { split; eauto. }
  split; [intros [w' [=]] | intros [?|[?|?]]; contradiction].
Qed.

End ClockFacts.

(** ** Invariants of the option parser *)

Section ParserInvariants.
Import LinuxSandboxOptions.

Lemma validate_ok optarg c (A : Type) (k : result A) r :
  (let* _ := ValidateIsAbsolutePath optarg c in k) = Ok r ->
  is_absolute optarg = true /\ k = Ok r.
Proof.
  unfold ValidateIsAbsolutePath, is_absolute.
  destruct (Ascii.eqb (Str.first_char optarg) "/"); cbn; [auto | discriminate].
Qed.

Lemma scan_nonnegative_ok s invalid v :
  scan_nonnegative s invalid = Ok v -> 0 <= v <= INT_MAX.
Proof.
  unfold scan_nonnegative, fits_int.
  destruct (scan_d s) as [x|]; [|discriminate].
  destruct (Z.leb_spec INT_MIN x), (Z.leb_spec x INT_MAX), (Z.ltb_spec x 0);
    cbn [andb negb]; try discriminate.
  intros [= <-]. lia.
Qed.

Lemma pop_back_ok v popped :
  pop_back v = Ok popped -> v <> [] /\ popped = removelast v.
Proof.
  unfold pop_back. destruct v; [discriminate|].
  intros [= <-]. split; [discriminate | reflexivity].
Qed.

(** Whatever option is accepted, the state changes in one of the ways of
    [option_step]. *)
Lemma parse_option_step c optarg opt ss opt' ss' :
  parse_option (Opt c optarg) (opt, ss) = Ok (opt', ss') ->
  option_step optarg opt ss opt' ss'.
Proof.
  unfold parse_option.
  destruct (Ascii.eqb_spec c "M") as [->|HM].
  { cbn. intros H. apply validate_ok in H as [Ha [= <- <-]]. now constructor. }
  destruct (Ascii.eqb_spec c "m") as [->|Hm].
  { cbn. intros H. apply validate_ok in H as [Ha H].
    destruct ss as [[|]|]; try discriminate.
    destruct (pop_back (bind_mount_targets opt)) as [popped| | | | |] eqn:E;
      try discriminate.
    apply pop_back_ok in E as [Hne ->].
    cbn in H. injection H as <- <-. now constructor. }
  cbn [negb andb].
  repeat match goal with
         | |- context [Ascii.eqb c ?k] => destruct (Ascii.eqb c k); cbv iota
         end;
    try discriminate;
    try (intros [= <- <-]; now constructor);
    try (intros H; apply validate_ok in H as [Ha H];
         injection H as <- <-; now constructor).
  - destruct (sandbox_root_dir opt) eqn:E; [discriminate|].
    intros H. apply validate_ok in H as [Ha [= <- <-]]. now constructor.
  - destruct (working_dir opt) eqn:E; [discriminate|].
    intros H. apply validate_ok in H as [Ha [= <- <-]]. now constructor.
  - destruct (scan_nonnegative optarg _) eqn:E; try discriminate.
    intros [= <- <-]. constructor. eapply scan_nonnegative_ok, E.
  - destruct (scan_nonnegative optarg _) eqn:E; try discriminate.
    intros [= <- <-]. constructor. eapply scan_nonnegative_ok, E.
  - destruct (stdout_path opt) eqn:E; [discriminate|].
    intros [= <- <-]. now constructor.
  - destruct (stderr_path opt) eqn:E; [discriminate|].
    intros [= <- <-]. now constructor.
Qed.

(** A property that every accepted option keeps holds after the loop. *)
Lemma parse_loop_invariant (I : parser_state -> Prop) :
  (forall optarg opt ss opt' ss',
      I (opt, ss) -> option_step optarg opt ss opt' ss' -> I (opt', ss')) ->
  forall evs st st',
    I st -> parse_loop evs st = Ok st' -> I st'.
Proof.
  intros Hstep. induction evs as [|ev evs IH]; intros st st' Hst; cbn.
  - now intros [= <-].
  - destruct (parse_option ev st) as [[opt1 ss1]| | | | |] eqn:E; try discriminate.
    cbn. apply IH. destruct st as [opt ss].
    destruct ev as [c optarg| |]; try discriminate.
    eapply Hstep; [exact Hst|]. eapply parse_option_step, E.
Qed.

(** What [ParseCommandLine] returns is what the loop ends with, with the
    command put in. *)
Lemma ParseCommandLine_loop opt argv opt' :
  ParseCommandLine opt argv = Ok opt' ->
  exists evs st',
    parse_loop evs (opt, None) = Ok st' /\
    (opt' = fst st' \/ exists command, opt' = set_args command (fst st')).
Proof.
  unfold ParseCommandLine.
  destruct (getopt_scan (tail argv) []) as [evs remaining].
  destruct (parse_loop evs (opt, None)) as [st'| | | | |] eqn:E; try discriminate.
  cbn. intros H. exists evs, st'. split; [exact E|]. revert H.
  destruct remaining; [intros [= <-]; now left|].
  destruct (args (fst st')); [|discriminate].
  intros [= <-]. right. eauto.
Qed.

Lemma length_replace_last (l : list string) x :
  l <> [] -> length (removelast l ++ [x]) = length l.
Proof.
  intros H. rewrite (app_removelast_last x H) at 2.
  now rewrite !length_app.
Qed.

Lemma Forall_removelast (P : string -> Prop) l :
  Forall P l -> Forall P (removelast l).
Proof.
  induction 1 as [|a l Ha Hl IH]; [constructor|].
  destruct l; [constructor|]. cbn in *. now constructor.
Qed.

Lemma paired_step optarg opt ss opt' ss' :
  paired (opt, ss) -> option_step optarg opt ss opt' ss' -> paired (opt', ss').
Proof.
  unfold paired. cbn [fst snd]. intros [Hlen Hopen] Hstep.
  destruct Hstep; cbn; try (split; [exact Hlen | discriminate]).
  - rewrite !length_app, Hlen. split; [reflexivity|]. intros _. now destruct (bind_mount_targets opt).
  - rewrite length_replace_last by assumption. split; [exact Hlen | discriminate].
Qed.

(** X12: every source has exactly one target.  Whatever the command line,
    a configuration that [ParseCommandLine] returns has as many bind-mount
    targets as sources (if it started so), and so the pairs of [bind_mounts]
    lose none of them. *)
Theorem bind_mounts_stay_paired :
  forall opt argv opt',
    length (bind_mount_sources opt) = length (bind_mount_targets opt) ->
    ParseCommandLine opt argv = Ok opt' ->
    length (bind_mount_sources opt') = length (bind_mount_targets opt') /\
    map fst (bind_mounts opt') = bind_mount_sources opt' /\
    map snd (bind_mounts opt') = bind_mount_targets opt'.
Proof.
  intros opt argv opt' Hlen H.
  assert (Hlen' : length (bind_mount_sources opt')
                  = length (bind_mount_targets opt')).
  { apply ParseCommandLine_loop in H as (evs & st' & Hloop & Hopt).
    pose proof (parse_loop_invariant paired paired_step evs (opt, None) st') as Hinv.
    destruct Hinv as [Hp _]; [split; [exact Hlen | discriminate] | exact Hloop |].
    destruct Hopt as [-> | [command ->]]; exact Hp. }
  split; [exact Hlen'|]. unfold bind_mounts.
  revert Hlen'. generalize (bind_mount_targets opt').
  induction (bind_mount_sources opt') as [|a l IH]; intros [|b t]; cbn;
    try discriminate; auto.
  intros [= Hl]. destruct (IH t Hl) as [-> ->]. auto.
Qed.

Lemma bind_mounts_stay_paired_witness :
  let opt' :=
    match ParseCommandLine opt_zero
            ["linux-sandbox"; "-M"; "/a"; "-N"; "-M"; "/b"; "-m"; "/c"; "--";
             "/bin/true"]
    with Ok o => o | _ => opt_zero end in
  length (bind_mount_sources opt') = length (bind_mount_targets opt') /\
  map fst (bind_mounts opt') = bind_mount_sources opt' /\
  map snd (bind_mounts opt') = bind_mount_targets opt'.
Proof.
  apply (bind_mounts_stay_paired opt_zero
           ["linux-sandbox"; "-M"; "/a"; "-N"; "-M"; "/b"; "-m"; "/c"; "--";
            "/bin/true"]).
  - reflexivity.
  - vm_compute. reflexivity.
Defined.

Lemma absolute_step optarg opt ss opt' ss' :
  absolute_paths opt -> option_step optarg opt ss opt' ss' -> absolute_paths opt'.
Proof.
  unfold absolute_paths, all_absolute.
  intros (H1 & H2 & H3 & H4 & H5 & H6 & H7) Hstep.
  destruct Hstep; cbn; repeat split; try assumption;
    try (intros dir [= <-]; assumption);
    try (apply Forall_app; split; [assumption | now constructor]).
  apply Forall_app. split; [now apply Forall_removelast | now constructor].
Qed.

(** X13: every path-valued field that [ParseCommandLine] fills in (root,
    working directory, writable, inaccessible and tmpfs paths, bind-mount
    sources and targets) holds absolute paths only, whatever the command
    line; the two redirections, [-l] and [-L], are not checked. *)
Theorem parsed_paths_are_absolute :
  forall opt argv opt',
    absolute_paths opt ->
    ParseCommandLine opt argv = Ok opt' ->
    absolute_paths opt'.
Proof.
  intros opt argv opt' Habs H.
  apply ParseCommandLine_loop in H as (evs & st' & Hloop & Hopt).
  pose proof (parse_loop_invariant (fun st => absolute_paths (fst st))
                (fun optarg opt ss opt' ss' => absolute_step optarg opt ss opt' ss')
                evs (opt, None) st' Habs Hloop) as Hinv.
  destruct Hopt as [-> | [command ->]]; exact Hinv.
Qed.

Lemma opt_zero_absolute : absolute_paths opt_zero.
Proof.
  unfold absolute_paths, all_absolute. cbn.
  repeat split; try constructor; discriminate.
Qed.

Lemma parsed_paths_are_absolute_witness :
  absolute_paths
    match ParseCommandLine opt_zero
            ["linux-sandbox"; "-W"; "/work"; "-w"; "/out"; "-e"; "/scratch";
             "-l"; "log.txt"; "--"; "/bin/true"]
    with Ok o => o | _ => opt_zero end.
Proof.
  apply (parsed_paths_are_absolute opt_zero
           ["linux-sandbox"; "-W"; "/work"; "-w"; "/out"; "-e"; "/scratch";
            "-l"; "log.txt"; "--"; "/bin/true"]).
  - apply opt_zero_absolute.
  - vm_compute. reflexivity.
Defined.

Lemma durations_step optarg opt ss opt' ss' :
  durations_in_range opt -> option_step optarg opt ss opt' ss' ->
  durations_in_range opt'.
Proof.
  unfold durations_in_range. intros [H1 H2] Hstep.
  destruct Hstep; cbn; split; assumption.
Qed.

(** X14: the timeout and the kill delay of a configuration that
    [ParseCommandLine] returns are between 0 and [INT_MAX], whatever the
    command line and however often [-T] and [-t] occur in it. *)
Theorem parsed_durations_in_range :
  forall opt argv opt',
    durations_in_range opt ->
    ParseCommandLine opt argv = Ok opt' ->
    durations_in_range opt'.
Proof.
  intros opt argv opt' Hd H.
  apply ParseCommandLine_loop in H as (evs & st' & Hloop & Hopt).
  pose proof (parse_loop_invariant (fun st => durations_in_range (fst st))
                (fun optarg opt ss opt' ss' => durations_step optarg opt ss opt' ss')
                evs (opt, None) st' Hd Hloop) as Hinv.
  destruct Hopt as [-> | [command ->]]; exact Hinv.
Qed.

Lemma parsed_durations_in_range_witness :
  durations_in_range
    match ParseCommandLine opt_zero
            ["linux-sandbox"; "-T"; "60"; "-t"; "5x"; "-T"; "+7"; "--";
             "/bin/true"]
    with Ok o => o | _ => opt_zero end.
Proof.
  apply (parsed_durations_in_range opt_zero
           ["linux-sandbox"; "-T"; "60"; "-t"; "5x"; "-T"; "+7"; "--";
            "/bin/true"]).
  - unfold durations_in_range, INT_MAX. cbn. lia.
  - vm_compute. reflexivity.
Defined.

Lemma validate_undefined optarg c (A : Type) (k : result A) why :
  (let* _ := ValidateIsAbsolutePath optarg c in k) = Undefined why ->
  k = Undefined why.
Proof.
  unfold ValidateIsAbsolutePath.
  destruct (negb _); cbn; [discriminate | auto].
Qed.

Lemma scan_nonnegative_undefined s invalid why :
  scan_nonnegative s invalid = Undefined why ->
  why = "sscanf %d: the number cannot be represented in an int".
Proof.
  unfold scan_nonnegative.
  destruct (scan_d s) as [v|]; [|discriminate].
  destruct (negb (fits_int v)); [now intros [= <-]|].
  destruct (v <? 0); discriminate.
Qed.

(** The three places where one turn of the loop leaves defined behaviour. *)
Lemma parse_option_undefined ev opt ss why :
  parse_option ev (opt, ss) = Undefined why ->
  (ss = None /\ why = "source_specified is read before it is assigned" /\
   exists target, ev = Opt "m" target) \/
  (ss = Some true /\ bind_mount_targets opt = [] /\
   why = "pop_back on an empty vector") \/
  why = "sscanf %d: the number cannot be represented in an int".
Proof.
  destruct ev as [c optarg| |]; [|discriminate|discriminate].
  unfold parse_option.
  destruct (Ascii.eqb_spec c "M") as [->|HM].
  { cbn. intros H. apply validate_undefined in H. discriminate. }
  destruct (Ascii.eqb_spec c "m") as [->|Hm].
  { cbn. intros H. apply validate_undefined in H.
    destruct ss as [[|]|].
    - unfold pop_back in H. destruct (bind_mount_targets opt); [|discriminate].
      injection H as <-. right; left. auto.
    - discriminate.
    - injection H as <-. left. eauto. }
  cbn [negb andb].
  repeat match goal with
         | |- context [Ascii.eqb c ?k] => destruct (Ascii.eqb c k); cbv iota
         end;
    try discriminate;
    try (intros H; apply validate_undefined in H; discriminate).
  - destruct (sandbox_root_dir opt); [discriminate|].
    intros H. apply validate_undefined in H. discriminate.
  - destruct (working_dir opt); [discriminate|].
    intros H. apply validate_undefined in H. discriminate.
  - destruct (scan_nonnegative optarg _) eqn:E; try discriminate.
    intros [= <-]. right; right. eapply scan_nonnegative_undefined, E.
  - destruct (scan_nonnegative optarg _) eqn:E; try discriminate.
    intros [= <-]. right; right. eapply scan_nonnegative_undefined, E.
  - destruct (stdout_path opt); discriminate.
  - destruct (stderr_path opt); discriminate.
Qed.

Lemma option_step_assigned optarg opt ss opt' ss' :
  option_step optarg opt ss opt' ss' -> ss' <> None.
Proof. destruct 1; discriminate. Qed.

Lemma parse_loop_undefined evs : forall st why,
  paired st -> snd st <> None ->
  parse_loop evs st = Undefined why ->
  why = "sscanf %d: the number cannot be represented in an int".
Proof.
  induction evs as [|ev evs IH]; intros [opt ss] why Hp Hss; cbn [parse_loop];
    [discriminate|].
  destruct (parse_option ev (opt, ss)) as [[opt1 ss1]| | | | |] eqn:E;
    try discriminate; cbn [bind].
  - destruct ev as [c optarg| |]; try discriminate.
    apply parse_option_step in E. apply IH.
    + eapply paired_step; eauto.
    + cbn. eapply option_step_assigned; eauto.
  - intros [= <-].
    apply parse_option_undefined in E as [(Hnone & _) | [(Htrue & Hempty & _) | E]].
    + now destruct Hss.
    + destruct Hp as [_ Hp]. now destruct (Hp Htrue).
    + exact E.
Qed.

(** X15: where [ParseCommandLine] can leave defined behaviour.  Starting
    with as many targets as sources, [pop_back] is never called on an empty
    vector; the uninitialised [source_specified] is read only when [-m] is
    the first option that [getopt] returns; the one other case is a number
    for [-T] or [-t] that does not fit an [int]. *)
Theorem undefined_behaviour_is_confined :
  forall opt argv why,
    length (bind_mount_sources opt) = length (bind_mount_targets opt) ->
    ParseCommandLine opt argv = Undefined why ->
    why = "sscanf %d: the number cannot be represented in an int" \/
    (why = "source_specified is read before it is assigned" /\
     exists target evs,
       fst (getopt_scan (tail argv) []) = Opt "m" target :: evs).
Proof.
  intros opt argv why Hlen. unfold ParseCommandLine.
  destruct (getopt_scan (tail argv) []) as [evs remaining]. cbn [fst].
  destruct evs as [|ev evs].
  { cbn. destruct remaining; [discriminate|]. destruct (args opt); discriminate. }
  cbn [parse_loop].
  destruct (parse_option ev (opt, None)) as [[opt1 ss1]| | | | |] eqn:E;
    try discriminate; cbn [bind].
  - destruct ev as [c optarg| |]; try discriminate.
    apply parse_option_step in E.
    destruct (parse_loop evs (opt1, ss1)) as [st'| | | | |] eqn:L;
      try discriminate; cbn [bind].
    + destruct remaining; [discriminate|]. destruct (args (fst st')); discriminate.
    + intros [= <-]. left. eapply parse_loop_undefined; [| |exact L].
      * eapply paired_step; [|exact E]. split; [exact Hlen | discriminate].
      * cbn. eapply option_step_assigned, E.
  - intros [= <-].
    apply parse_option_undefined in E
      as [(_ & -> & target & ->) | [(Htrue & _) | E]].
    + right. eauto.
    + discriminate.
    + now left.
Qed.

Lemma undefined_behaviour_is_confined_witness :
  "sscanf %d: the number cannot be represented in an int"
    = "sscanf %d: the number cannot be represented in an int" \/
  ("sscanf %d: the number cannot be represented in an int"
     = "source_specified is read before it is assigned" /\
   exists target evs,
     fst (getopt_scan (tail ["linux-sandbox"; "-N"; "-T"; "99999999999"]) [])
       = Opt "m" target :: evs).
Proof.
  apply (undefined_behaviour_is_confined opt_zero
           ["linux-sandbox"; "-N"; "-T"; "99999999999"]).
  - reflexivity.
  - reflexivity.
Defined.

End ParserInvariants.

(** ** Diagnostics of the option parser *)

Section ParserDiagnostics.
Import LinuxSandboxOptions.

(** [getopt] over [-c argument] for a letter that takes an argument. *)
Lemma getopt_scan_arg c optarg rest skipped :
  lookup_opt c = Some true ->
  getopt_scan (String "-" (String c "") :: optarg :: rest) skipped =
    (Opt c optarg :: fst (getopt_scan rest skipped),
     snd (getopt_scan rest skipped)).
Proof.
  intros Hc.
  assert (Hdash : Ascii.eqb c "-" = false).
  { destruct (Ascii.eqb_spec c "-") as [->|]; [discriminate Hc | reflexivity]. }
  cbn [getopt_scan]. change (String.eqb (String "-" (String c "")) "--")
    with (Ascii.eqb c "-" && true). rewrite Hdash.
  cbn [andb is_option_element].
  change (Str.substr_from (String "-" (String c "")) 1) with (String c "").
  cbn [scan_cluster head]. rewrite Hc.
  destruct (getopt_scan rest skipped). reflexivity.
Qed.

(** X16: a path that is not absolute is never accepted by [-S], [-W], [-w],
    [-i], [-e], [-M] or [-m], in whatever state the parser is: the turn ends
    in a [UsageError] (for a second [-S] or [-W] it is the one about the
    repetition), and on a fresh command line it is the one about absolute
    paths, naming the flag. *)
Theorem relative_path_is_rejected :
  forall c optarg,
    In c path_options ->
    is_absolute optarg = false ->
    (forall opt ss,
        exists fmt printed,
          parse_option (Opt c optarg) (opt, ss) = UsageError fmt printed) /\
    (forall prog rest,
        ParseCommandLine opt_zero
          (prog :: String "-" (String c "") :: optarg :: rest) =
        UsageError "The -%c option must be used with absolute paths only."
                   [String c ""]).
Proof.
  intros c optarg Hc Habs. unfold is_absolute in Habs.
  assert (Hturn : forall opt ss,
             (sandbox_root_dir opt = None -> working_dir opt = None ->
              parse_option (Opt c optarg) (opt, ss) =
                UsageError "The -%c option must be used with absolute paths only."
                           [String c ""]) /\
             exists fmt printed,
               parse_option (Opt c optarg) (opt, ss) = UsageError fmt printed).
  { intros opt ss.
    cbn in Hc. destruct Hc as [<-|[<-|[<-|[<-|[<-|[<-|[<-|[]]]]]]]]; cbn;
      unfold ValidateIsAbsolutePath; rewrite ?Habs; cbn;
      try (split; [reflexivity | eauto]).
    - destruct (sandbox_root_dir opt); split; eauto; discriminate.
    - destruct (working_dir opt); split; eauto; discriminate. }
  split; [intros opt ss; apply Hturn|].
  intros prog rest. unfold ParseCommandLine. cbn [tail].
  rewrite getopt_scan_arg.
  - cbn [parse_loop]. destruct (Hturn opt_zero None) as [-> _]; reflexivity.
  - cbn in Hc. destruct Hc as [<-|[<-|[<-|[<-|[<-|[<-|[<-|[]]]]]]]]; reflexivity.
Qed.

Lemma relative_path_is_rejected_witness :
  (forall opt ss,
      exists fmt printed,
        parse_option (Opt "w" "out/gen") (opt, ss) = UsageError fmt printed) /\
  (forall prog rest,
      ParseCommandLine opt_zero (prog :: "-w" :: "out/gen" :: rest) =
      UsageError "The -%c option must be used with absolute paths only." ["w"]).
Proof.
  apply (relative_path_is_rejected "w" "out/gen").
  - cbn. auto.
  - reflexivity.
Defined.

(** X17: each of [-S], [-W], [-l] and [-L] may be given once.  The second
    one is a [UsageError] whatever its argument is and whatever follows; for
    [-S] and [-W] the repetition is reported even when the second path is
    not absolute. *)
Theorem single_valued_options_once :
  forall prog first second rest,
    (is_absolute first = true ->
     ParseCommandLine opt_zero
       (prog :: "-S" :: first :: "-S" :: second :: rest) =
     UsageError "Multiple root directories (-S) specified, expected one." []) /\
    (is_absolute first = true ->
     ParseCommandLine opt_zero
       (prog :: "-W" :: first :: "-W" :: second :: rest) =
     UsageError "Multiple working directories (-W) specified, expected one." []) /\
    ParseCommandLine opt_zero
      (prog :: "-l" :: first :: "-l" :: second :: rest) =
    UsageError "Cannot redirect stdout to more than one destination." [] /\
    ParseCommandLine opt_zero
      (prog :: "-L" :: first :: "-L" :: second :: rest) =
    UsageError "Cannot redirect stderr to more than one destination." [].
Proof.
  intros prog first second rest. unfold ParseCommandLine, is_absolute.
  cbn [tail].
  repeat split; try intros Habs;
    rewrite !getopt_scan_arg by reflexivity; cbn [parse_loop fst];
    cbn; unfold ValidateIsAbsolutePath; rewrite ?Habs; reflexivity.
Qed.

Lemma single_valued_options_once_witness :
  ParseCommandLine opt_zero
    ["linux-sandbox"; "-S"; "/a"; "-S"; "b"; "--"; "/bin/true"] =
  UsageError "Multiple root directories (-S) specified, expected one." [].
Proof.
  destruct (single_valued_options_once "linux-sandbox" "/a" "b"
              ["--"; "/bin/true"]) as [H _].
  apply H. reflexivity.
Defined.

(** X18: [-C] ends the run with the status of the namespace probe as soon
    as the loop reaches it: as the first option nothing after it is looked
    at, not even to report what is wrong with it. *)
Theorem capability_check_short_circuits :
  forall opt prog rest,
    ParseCommandLine opt (prog :: "-C" :: rest) = ExitCheckNamespaces.
Proof.
  intros opt prog rest. unfold ParseCommandLine. cbn [tail].
  change (getopt_scan ("-C" :: rest) [])
    with (let '(evs, used) := scan_cluster "C" (head rest) in
          let '(evs', remaining) :=
            match rest with
            | _ :: rest' => if used then getopt_scan rest' []
                            else getopt_scan rest []
            | [] => getopt_scan rest []
            end in
          (evs ++ evs', remaining)).
  cbn [scan_cluster]. change (lookup_opt "C") with (Some false). cbn iota beta.
  destruct rest as [|tok rest]; cbn [app];
    destruct (getopt_scan _ []); reflexivity.
Qed.

(** X19: an option letter that is not known, and a known one whose argument
    is missing at the end of the command line, are [UsageError]s that name
    the letter. *)
Theorem unknown_or_incomplete_option :
  forall opt prog c,
    (lookup_opt c = Some true ->
     ParseCommandLine opt [prog; String "-" (String c "")] =
     UsageError "Flag -%c requires an argument" [String c ""]) /\
    (lookup_opt c = None -> c <> "-"%char ->
     forall rest,
       ParseCommandLine opt (prog :: String "-" (String c "") :: rest) =
       UsageError "Unrecognized argument: -%c (%d)" [String c ""]).
Proof.
  intros opt prog c. unfold ParseCommandLine. cbn [tail]. split.
  - intros Hc.
    assert (Hdash : Ascii.eqb c "-" = false).
    { destruct (Ascii.eqb_spec c "-") as [->|]; [discriminate Hc | reflexivity]. }
    cbn [getopt_scan]. change (String.eqb (String "-" (String c "")) "--")
      with (Ascii.eqb c "-" && true). rewrite Hdash.
    cbn [andb is_option_element].
    change (Str.substr_from (String "-" (String c "")) 1) with (String c "").
    cbn [scan_cluster head]. rewrite Hc. reflexivity.
  - intros Hc Hdash rest. apply Ascii.eqb_neq in Hdash.
    cbn [getopt_scan]. change (String.eqb (String "-" (String c "")) "--")
      with (Ascii.eqb c "-" && true). rewrite Hdash.
    cbn [andb is_option_element].
    change (Str.substr_from (String "-" (String c "")) 1) with (String c "").
    cbn [scan_cluster head]. rewrite Hc. cbn [scan_cluster].
    destruct rest as [|tok rest]; cbn [app];
      destruct (getopt_scan _ []); reflexivity.
Qed.

Lemma unknown_or_incomplete_option_witness :
  ParseCommandLine opt_zero ["linux-sandbox"; "-W"] =
    UsageError "Flag -%c requires an argument" ["W"] /\
  ParseCommandLine opt_zero ["linux-sandbox"; "-x"; "--"; "/bin/true"] =
    UsageError "Unrecognized argument: -%c (%d)" ["x"].
Proof.
  destruct (unknown_or_incomplete_option opt_zero "linux-sandbox" "W") as [H1 _].
  destruct (unknown_or_incomplete_option opt_zero "linux-sandbox" "x") as [_ H2].
  split; [apply H1; reflexivity | apply H2; [reflexivity | discriminate]].
Defined.

End ParserDiagnostics.

(** ** From the command line to the configuration *)

Section ParseOptionsFacts.
Import LinuxSandboxOptions.

(** A token that is not an argument file is appended as it is. *)
Lemma ExpandArgument_plain fuel files expanded arg :
  Ascii.eqb (Str.first_char arg) "@" = false ->
  ExpandArgument fuel files expanded arg = Ok (expanded ++ [arg]).
Proof. intros H. destruct fuel; cbn; now rewrite H. Qed.

Lemma ExpandArguments_loop_plain fuel files : forall argv expanded,
  forallb (fun tok => negb (Ascii.eqb (Str.first_char tok) "@")) argv = true ->
  ExpandArguments_loop fuel files argv expanded = Ok (expanded ++ argv).
Proof.
  induction argv as [|arg rest IH]; intros expanded H; cbn.
  - now rewrite app_nil_r.
  - cbn in H. apply andb_prop in H as [Harg Hrest].
    apply negb_true_iff in Harg.
    destruct (String.eqb arg "--"); cbn; [reflexivity|].
    rewrite (ExpandArgument_plain _ _ _ _ Harg). cbn.
    rewrite (IH _ Hrest), <- app_assoc. reflexivity.
Qed.

(** X20: a command line in which no token begins with [@] is its own
    expansion: no file is opened, and no nesting bound is needed. *)
Theorem ExpandArguments_without_files :
  forall fuel files argv,
    forallb (fun tok => negb (Ascii.eqb (Str.first_char tok) "@")) argv = true ->
    ExpandArguments fuel files argv = Ok argv.
Proof.
  intros fuel files argv H. unfold ExpandArguments.
  now rewrite ExpandArguments_loop_plain.
Qed.

Lemma ExpandArguments_without_files_witness :
  ExpandArguments 0 ∅ ["linux-sandbox"; "-D"; "--"; "/bin/echo"; "a@b"] =
  Ok ["linux-sandbox"; "-D"; "--"; "/bin/echo"; "a@b"].
Proof.
  apply (ExpandArguments_without_files 0 ∅
           ["linux-sandbox"; "-D"; "--"; "/bin/echo"; "a@b"]).
  reflexivity.
Defined.

Lemma substr_from_tail c s : Str.substr_from (String c s) 1 = s.
Proof.
  unfold Str.substr_from. cbn [String.length Nat.sub String.substring].
  rewrite Nat.sub_0_r. induction s as [|a s IH]; cbn; [reflexivity|].
  now rewrite IH.
Qed.

Lemma ExpandArgument_unopened fuel files expanded name :
  files !! name = None ->
  ExpandArgument fuel files expanded (String "@" name) =
    Die "opening argument file %s failed" [name].
Proof.
  intros Hname.
  assert (H : ExpandArgument fuel files expanded (String "@" name) =
              match files !! Str.substr_from (String "@" name) 1 with
              | None => Die "opening argument file %s failed"
                            [Str.substr_from (String "@" name) 1]
              | Some f =>
                  match fuel with
                  | O => OutOfFuel
                  | S fuel' =>
                      let* expanded :=
                        expand_lines (ExpandArgument fuel' files)
                          (getlines (f_content f) EmptyString) expanded in
                      if f_bad f then
                        Die "error while reading from argument file %s"
                            [Str.substr_from (String "@" name) 1]
                      else Ok expanded
                  end
              end) by (destruct fuel; reflexivity).
  rewrite H, substr_from_tail, Hname. reflexivity.
Qed.

(** X21: an argument file that cannot be opened ends the run with [DIE],
    naming the file, provided the expansion gets to it: the tokens before it
    are plain ones.  Nothing of what was expanded so far is returned. *)
Theorem ExpandArguments_missing_file :
  forall fuel files pre name rest,
    forallb plain_token pre = true ->
    files !! name = None ->
    ExpandArguments fuel files (pre ++ String "@" name :: rest) =
    Die "opening argument file %s failed" [name].
Proof.
  intros fuel files pre name rest Hpre Hname. unfold ExpandArguments.
  assert (H : forall expanded,
             ExpandArguments_loop fuel files (pre ++ String "@" name :: rest)
                                  expanded
             = Die "opening argument file %s failed" [name]);
    [|apply H].
  induction pre as [|tok pre IH]; intros expanded; cbn.
  - change (String.eqb (String "@" name) "--") with false. cbn [negb].
    rewrite ExpandArgument_unopened by exact Hname. reflexivity.
  - cbn in Hpre. apply andb_prop in Hpre as [Htok Hpre].
    unfold plain_token in Htok. apply andb_prop in Htok as [Hat Hdash].
    apply negb_true_iff in Hat. rewrite Hdash. cbn.
    rewrite (ExpandArgument_plain _ _ _ _ Hat). cbn. now apply IH.
Qed.

Lemma ExpandArguments_missing_file_witness :
  ExpandArguments 5 Examples.argument_files
    ["linux-sandbox"; "-D"; "@nowhere"; "--"; "/bin/true"] =
  Die "opening argument file %s failed" ["nowhere"].
Proof.
  apply (ExpandArguments_missing_file 5 Examples.argument_files
           ["linux-sandbox"; "-D"] "nowhere" ["--"; "/bin/true"]).
  - reflexivity.
  - reflexivity.
Defined.

(** X22: what [ParseOptions] returns is a usable configuration: there is a
    command, /tmp is the last tmpfs directory, the working directory is set
    whenever the current directory is known, every source has its target,
    and the durations are in range. *)
Theorem ParseOptions_configuration :
  forall fuel files cwd argv opt,
    ParseOptions fuel files cwd argv = Ok opt ->
    args opt <> [] /\
    (exists dirs, tmpfs_dirs opt = dirs ++ ["/tmp"]) /\
    (working_dir opt = None -> cwd = None) /\
    length (bind_mount_sources opt) = length (bind_mount_targets opt) /\
    durations_in_range opt.
Proof.
  intros fuel files cwd argv opt. unfold ParseOptions.
  destruct (ExpandArguments fuel files argv) as [expanded| | | | |];
    try discriminate. cbn [bind].
  destruct (ParseCommandLine opt_zero expanded) as [parsed| | | | |] eqn:E;
    try discriminate. cbn [bind].
  apply ParseCommandLine_loop in E as (evs & st' & Hloop & Hopt).
  pose proof (parse_loop_invariant paired paired_step evs (opt_zero, None) st')
    as Hpaired.
  destruct Hpaired as [Hlen _];
    [split; [reflexivity | discriminate] | exact Hloop |].
  pose proof (parse_loop_invariant (fun st => durations_in_range (fst st))
                (fun optarg opt ss opt' ss' => durations_step optarg opt ss opt' ss')
                evs (opt_zero, None) st') as Hdur.
  cbv beta in Hdur. specialize (Hdur ltac:(unfold durations_in_range, INT_MAX; cbn; lia) Hloop).
  assert (Hparsed : length (bind_mount_sources parsed)
                    = length (bind_mount_targets parsed) /\
                    durations_in_range parsed).
  { destruct Hopt as [-> | [command ->]]; split; assumption. }
  destruct Hparsed as [Hl Hd].
  destruct (args parsed) eqn:Ea; [discriminate|].
  cbn [working_dir set_tmpfs_dirs].
  destruct Hd as [[? ?] [? ?]].
  destruct (working_dir parsed) eqn:Ew; intros [= <-]; cbn;
    rewrite ?Ea, ?Ew; repeat split; eauto; try discriminate.
Qed.

Lemma ParseOptions_configuration_witness :
  let opt :=
    match ParseOptions 2 Examples.argument_files (Some "/home/me")
            ["linux-sandbox"; "@opts"; "-M"; "/a"; "-e"; "/scratch"; "--";
             "/bin/cat"; "@opts"]
    with Ok o => o | _ => opt_zero end in
  args opt <> [] /\
  (exists dirs, tmpfs_dirs opt = dirs ++ ["/tmp"]) /\
  (working_dir opt = None -> Some "/home/me" = None) /\
  length (bind_mount_sources opt) = length (bind_mount_targets opt) /\
  durations_in_range opt.
Proof.
  apply (ParseOptions_configuration 2 Examples.argument_files (Some "/home/me")
           ["linux-sandbox"; "@opts"; "-M"; "/a"; "-e"; "/scratch"; "--";
            "/bin/cat"; "@opts"]).
  vm_compute. reflexivity.
Defined.

(** X23: everything after a literal [--] reaches the command as it was
    typed: tokens that look like options or like argument files are neither
    parsed nor expanded. *)
Theorem command_is_verbatim :
  forall fuel files cwd prog command,
    plain_token prog = true ->
    command <> [] ->
    ParseOptions fuel files cwd (prog :: "--" :: command) =
    Ok (set_working_dir cwd (set_tmpfs_dirs ["/tmp"] (set_args command opt_zero))).
Proof.
  intros fuel files cwd prog command Hprog Hcommand.
  unfold plain_token in Hprog. apply andb_prop in Hprog as [Hat Hdash].
  apply negb_true_iff in Hat.
  unfold ParseOptions, ExpandArguments. cbn [ExpandArguments_loop].
  rewrite Hdash. cbn [bind]. rewrite (ExpandArgument_plain _ _ _ _ Hat).
  cbn. destruct command as [|c command]; [contradiction|]. reflexivity.
Qed.

Lemma command_is_verbatim_witness :
  ParseOptions 0 ∅ (Some "/home/me")
    ["linux-sandbox"; "--"; "/bin/echo"; "-m"; "@opts"; "--"] =
  Ok (set_working_dir (Some "/home/me")
        (set_tmpfs_dirs ["/tmp"]
           (set_args ["/bin/echo"; "-m"; "@opts"; "--"] opt_zero))).
Proof.
  apply (command_is_verbatim 0 ∅ (Some "/home/me") "linux-sandbox"
           ["/bin/echo"; "-m"; "@opts"; "--"]).
  - reflexivity.
  - discriminate.
Defined.

End ParseOptionsFacts.

(** ** Argument files as text *)

Section ArgumentFileFacts.
Import LinuxSandboxOptions.

Lemma append_empty_r s : s +:+ "" = s.
Proof.
  induction s as [|c s IH]; [reflexivity|].
  change (String c (s +:+ "") = String c s). now f_equal.
Qed.

Lemma append_assoc_string a b c : (a +:+ b) +:+ c = a +:+ (b +:+ c).
Proof.
  induction a as [|x a IH]; [reflexivity|].
  change (String x ((a +:+ b) +:+ c) = String x (a +:+ (b +:+ c))). now f_equal.
Qed.

Lemma text_line_cons c l :
  text_line (String c l) = true ->
  Ascii.eqb c newline = false /\ Ascii.eqb c Ascii.zero = false /\
  text_line l = true.
Proof.
  unfold text_line. cbn [all_chars]. intros H.
  apply andb_prop in H as [Hc Hl]. apply andb_prop in Hc as [H1 H2].
  apply negb_true_iff in H1, H2. auto.
Qed.

(** [getline] reads a line of text up to its newline. *)
Lemma getlines_line l : forall rest acc,
  text_line l = true ->
  getlines (l +:+ String newline rest) acc = (acc +:+ l) :: getlines rest "".
Proof.
  induction l as [|c l IH]; intros rest acc Hl.
  - rewrite append_empty_r.
    change (getlines ("" +:+ String newline rest) acc)
      with (if Ascii.eqb newline newline then acc :: getlines rest ""
            else getlines rest (acc +:+ String newline "")).
    now rewrite Ascii.eqb_refl.
  - apply text_line_cons in Hl as (Hc & _ & Hl).
    change (getlines (String c l +:+ String newline rest) acc)
      with (if Ascii.eqb c newline
            then acc :: getlines (l +:+ String newline rest) ""
            else getlines (l +:+ String newline rest) (acc +:+ String c "")).
    rewrite Hc, (IH _ _ Hl), append_assoc_string. reflexivity.
Qed.

(** Splitting what [join_lines] joined gives the lines back. *)
Lemma getlines_join lines :
  forallb text_line lines = true -> getlines (join_lines lines) "" = lines.
Proof.
  induction lines as [|l lines IH]; intros H; [reflexivity|].
  cbn in H. apply andb_prop in H as [Hl Hrest].
  cbn [join_lines]. rewrite (getlines_line _ _ _ Hl), (IH Hrest). reflexivity.
Qed.


Lemma c_str_text l : text_line l = true -> c_str l = l.
Proof.
  induction l as [|c l IH]; intros Hl; [reflexivity|].
  apply text_line_cons in Hl as (_ & Hz & Hl).
  cbn. now rewrite Hz, (IH Hl).
Qed.

(** [ExpandArgument] on an argument file, one level unfolded. *)
Lemma ExpandArgument_file fuel files expanded name f :
  files !! name = Some f ->
  ExpandArgument (S fuel) files expanded (String "@" name) =
    (let* expanded :=
       expand_lines (ExpandArgument fuel files)
                    (getlines (f_content f) EmptyString) expanded in
     if f_bad f then Die "error while reading from argument file %s" [name]
     else Ok expanded).
Proof.
  intros Hname.
  change (ExpandArgument (S fuel) files expanded (String "@" name))
    with (match files !! Str.substr_from (String "@" name) 1 with
          | None => Die "opening argument file %s failed"
                        [Str.substr_from (String "@" name) 1]
          | Some f =>
              let* expanded :=
                expand_lines (ExpandArgument fuel files)
                  (getlines (f_content f) EmptyString) expanded in
              if f_bad f then
                Die "error while reading from argument file %s"
                    [Str.substr_from (String "@" name) 1]
              else Ok expanded
          end).
  now rewrite substr_from_tail, Hname.
Qed.

Lemma expand_lines_plain fuel files : forall lines expanded,
  forallb text_line lines = true ->
  forallb (fun l => negb (Ascii.eqb (Str.first_char l) "@")) lines = true ->
  expand_lines (ExpandArgument fuel files) lines expanded =
    Ok (expanded ++ List.filter (fun l => (0 <? String.length l)%nat) lines).
Proof.
  induction lines as [|l lines IH]; intros expanded Ht Hp;
    cbn [expand_lines List.filter].
  - now rewrite app_nil_r.
  - cbn [forallb] in Ht, Hp. apply andb_prop in Ht as [Hl Ht].
    apply andb_prop in Hp as [Hat Hp]. apply negb_true_iff in Hat.
    destruct (0 <? String.length l)%nat; [|now apply IH].
    rewrite (c_str_text _ Hl), (ExpandArgument_plain _ _ _ _ Hat). cbn [bind].
    rewrite (IH _ Ht Hp), <- app_assoc. reflexivity.
Qed.

(** X24: an argument file of plain text lines, each ended by a newline,
    expands to its lines in order with the empty ones left out. *)
Theorem ExpandArgument_text_file :
  forall fuel files expanded name lines,
    files !! name = Some (ArgFile (join_lines lines) false) ->
    forallb text_line lines = true ->
    forallb (fun l => negb (Ascii.eqb (Str.first_char l) "@")) lines = true ->
    ExpandArgument (S fuel) files expanded (String "@" name) =
      Ok (expanded ++ List.filter (fun l => (0 <? String.length l)%nat) lines).
Proof.
  intros fuel files expanded name lines Hname Ht Hp.
  rewrite (ExpandArgument_file _ _ _ _ _ Hname). cbn [f_content f_bad].
  rewrite (getlines_join _ Ht), (expand_lines_plain _ _ _ _ Ht Hp).
  reflexivity.
Qed.

Lemma ExpandArgument_text_file_witness :
  ExpandArgument 1 {[ "f" := ArgFile (join_lines ["a"; "b"; ""; "c"]) false ]}
                 ["linux-sandbox"] "@f" =
  Ok (["linux-sandbox"] ++ ["a"; "b"; "c"]).
Proof.
  apply (ExpandArgument_text_file 0
           {[ "f" := ArgFile (join_lines ["a"; "b"; ""; "c"]) false ]}
           ["linux-sandbox"] "f" ["a"; "b"; ""; "c"]).
  - reflexivity.
  - reflexivity.
  - reflexivity.
Defined.

(** Counting the streams changes nothing while they suffice: a result of
    [ExpandArgument_open] is the result of [ExpandArgument] with the same
    bound on the nesting. *)
Lemma ExpandArgument_open_agrees avail files : forall expanded arg r,
  ExpandArgument_open avail files expanded arg = Ok r ->
  ExpandArgument avail files expanded arg = Ok r.
Proof.
  induction avail as [|avail IH]; intros expanded arg r;
    cbn [ExpandArgument_open ExpandArgument];
    destruct (Ascii.eqb (Str.first_char arg) "@"); try (intros [=]; fail);
    try (intros H; exact H).
  destruct (files !! Str.substr_from arg 1) as [f|]; [|intros [=]].
  assert (Hlines : forall lines expanded r,
             expand_lines (ExpandArgument_open avail files) lines expanded = Ok r ->
             expand_lines (ExpandArgument avail files) lines expanded = Ok r).
  { induction lines as [|l lines IHl]; intros e r'; cbn [expand_lines];
      [auto|].
    destruct (0 <? String.length l)%nat; [|apply IHl].
    destruct (ExpandArgument_open avail files e (c_str l)) as [e'| | | | |] eqn:E;
      cbn [bind]; try (intros [=]; fail).
    rewrite (IH _ _ _ E). cbn [bind]. apply IHl. }
  destruct (expand_lines (ExpandArgument_open avail files) _ expanded)
    as [e'| | | | |] eqn:E; cbn [bind]; try (intros [=]; fail).
  rewrite (Hlines _ _ _ E). cbn [bind]. auto.
Qed.



End ArgumentFileFacts.
